(** * The arena allocator and the timed waits of the thread shim

    A shallow embedding of the arena allocator (the region allocator with
    its process-wide free list) and of the timed operations of [cthread.c],
    with the properties the specification states about them.

    Conventions of the embedding.
    - Target: LP64. [long] and [ptrdiff_t] are 64-bit signed, [size_t] is
      64-bit unsigned, [int] is 32-bit signed.  Unsigned arithmetic wraps
      modulo 2^64 and is written out with [to_size_t]; a conversion of an
      out-of-range value to [long] wraps ([to_long]); signed overflow is
      undefined behaviour and is reported as [Undef].
    - Pointers are addresses in [Z], [0] is [NULL]; pointer arithmetic is
      exact.
    - Memory has a typed view and a byte view.  [heap] holds the
      [struct arena_s] objects (arena handles and chunk headers) by address,
      [mem] holds the bytes written through [memset].  The two views are
      kept apart: a write to a field does not show in [mem], nor a
      [memset] in [heap].  They describe the same bytes where a chunk
      header reaches into the memory handed out from its block, which
      happens when [sizeof(union header)] is smaller than the struct; what
      is stated about handed-out memory across a field write says where
      the field lies ([offsetof_bytes]).
    - The system allocator never hands out an address twice, so a pointer
      to a released block stays invalid; dereferencing it is [Undef].
    - Loops take fuel; running out of it is the outcome [OutOfFuel]. *)

From stdpp Require Import gmap list.

Local Open Scope Z_scope.

(** ** C integers *)

Definition LONG_MAX : Z := 2 ^ 63 - 1.
Definition LONG_MIN : Z := - 2 ^ 63.
Definition INT_MIN : Z := - 2 ^ 31.

(** Conversion to [size_t] (and every unsigned computation): modulo 2^64. *)
Definition to_size_t (z : Z) : Z := z mod 2 ^ 64.

(** Conversion of an unsigned 64-bit value to [long]: two's complement. *)
Definition to_long (z : Z) : Z :=
  let u := z mod 2 ^ 64 in if u <? 2 ^ 63 then u else u - 2 ^ 64.

Definition in_long (z : Z) : bool := (LONG_MIN <=? z) && (z <=? LONG_MAX).

(** ** What [raii.h] fixes for a build

    [raii.h] is not part of the sources at hand; the constants it defines are
    parameters of the development. *)
Record platform := Platform {
  sizeof_header : Z;   (* sizeof(union header) *)
  RAII_ARENA : Z;      (* enumerators of raii_type *)
  RAII_STRUCT : Z;
  assertions : bool    (* whether RAII_ASSERT checks are compiled in *)
}.

(** #ifndef THRESHOLD / #define THRESHOLD 10 *)
Definition THRESHOLD : Z := 10.

(** ** Data *)

(** struct arena_s *)
Record arena_s := Arena {
  type : Z;
  prev : Z;
  avail : Z;
  limit : Z;
  base : Z;
  bytes : Z;
  total : Z
}.

(** sizeof(struct arena_s) on LP64: a 4-byte enum padded to 8, then six
    8-byte fields. *)
Definition sizeof_arena_s : Z := 56.

Definition with_type (v : Z) (r : arena_s) : arena_s :=
  Arena v (prev r) (avail r) (limit r) (base r) (bytes r) (total r).
Definition with_prev (v : Z) (r : arena_s) : arena_s :=
  Arena (type r) v (avail r) (limit r) (base r) (bytes r) (total r).
Definition with_avail (v : Z) (r : arena_s) : arena_s :=
  Arena (type r) (prev r) v (limit r) (base r) (bytes r) (total r).
Definition with_limit (v : Z) (r : arena_s) : arena_s :=
  Arena (type r) (prev r) (avail r) v (base r) (bytes r) (total r).
Definition with_base (v : Z) (r : arena_s) : arena_s :=
  Arena (type r) (prev r) (avail r) (limit r) v (bytes r) (total r).
Definition with_bytes (v : Z) (r : arena_s) : arena_s :=
  Arena (type r) (prev r) (avail r) (limit r) (base r) v (total r).
Definition with_total (v : Z) (r : arena_s) : arena_s :=
  Arena (type r) (prev r) (avail r) (limit r) (base r) (bytes r) v.

(** One answer of the system allocator to a request. *)
Inductive alloc_choice :=
| alloc_fail     (* returns NULL *)
| alloc_same     (* realloc resizes the block where it is *)
| alloc_fresh.   (* returns a block at a new address *)

(** The state of the process: memory, the system allocator, and the two
    file-scope variables [free_list] and [num_free]. *)
Record state := State {
  heap : gmap Z arena_s;        (* struct arena_s objects by address *)
  mem : gmap Z Z;               (* bytes by address *)
  blocks : gmap Z Z;            (* live blocks of the allocator: address, size *)
  brk : Z;                      (* next address the allocator hands out *)
  oracle : list alloc_choice;   (* its answers to the coming requests *)
  free_list : Z;
  num_free : Z
}.

Definition set_heap (h : gmap Z arena_s) (s : state) : state :=
  State h (mem s) (blocks s) (brk s) (oracle s) (free_list s) (num_free s).
Definition set_mem (m : gmap Z Z) (s : state) : state :=
  State (heap s) m (blocks s) (brk s) (oracle s) (free_list s) (num_free s).
Definition set_free_list (p : Z) (s : state) : state :=
  State (heap s) (mem s) (blocks s) (brk s) (oracle s) p (num_free s).
Definition set_num_free (n : Z) (s : state) : state :=
  State (heap s) (mem s) (blocks s) (brk s) (oracle s) (free_list s) n.

(** The state a process starts in: nothing allocated,
    [free_list = NULL], [num_free = 0]. *)
Definition initial (start : Z) (o : list alloc_choice) : state :=
  State ∅ ∅ ∅ start o 0 0.

(** ** Outcomes and the monad of the operations *)

(** The built-in exceptions the arena can raise. *)
Inductive exn := out_of_memory | assertion_failure.

Inductive outcome (A : Type) : Type :=
| Ret (a : A) (s : state)      (* returns [a] *)
| Throw (e : exn) (s : state)  (* leaves by raising [e] *)
| Undef                        (* undefined behaviour *)
| OutOfFuel.                   (* a loop did not finish within the fuel *)
Arguments Ret {A} a s.
Arguments Throw {A} e s.
Arguments Undef {A}.
Arguments OutOfFuel {A}.

Definition M (A : Type) : Type := state → outcome A.

Definition ret {A} (a : A) : M A := λ s, Ret a s.
Definition bind {A B} (m : M A) (k : A → M B) : M B :=
  λ s, match m s with
       | Ret a s' => k a s'
       | Throw e s' => Throw e s'
       | Undef => Undef
       | OutOfFuel => OutOfFuel
       end.
Definition throw {A} (e : exn) : M A := λ s, Throw e s.
Definition undef {A} : M A := λ _, Undef.
Definition out_of_fuel {A} : M A := λ _, OutOfFuel.
Definition get {A} (f : state → A) : M A := λ s, Ret (f s) s.
Definition update (f : state → state) : M unit := λ s, Ret tt (f s).

Declare Scope arena_scope.
Delimit Scope arena_scope with arena.
Notation "'do' x <- m ; k" := (bind m (λ x, k))
  (at level 10, x name, m at level 100, k at level 200) : arena_scope.
Notation "m ;; k" := (bind m (λ _, k))
  (at level 100, k at level 200, right associativity) : arena_scope.
Local Open Scope arena_scope.

(** ** Memory accesses *)

(** Reading [*p]. *)
Definition load (p : Z) : M arena_s :=
  λ s, match heap s !! p with Some r => Ret r s | None => Undef end.

(** Writing a whole struct, [*p = r]: [p] has to be a live block. *)
Definition store (p : Z) (r : arena_s) : M unit :=
  λ s, match blocks s !! p with
       | Some _ => Ret tt (set_heap (<[p := r]> (heap s)) s)
       | None => Undef
       end.

(** Reading a field, [p->f]. *)
Definition field (p : Z) (f : arena_s → Z) : M Z :=
  do r <- load p; ret (f r).

(** Writing a field, [p->f = v]. *)
Definition assign (p : Z) (f : Z → arena_s → arena_s) (v : Z) : M unit :=
  do r <- load p; store p (f v r).

(** The byte range [p, p + n) lies inside one live block. *)
Definition in_block (s : state) (p n : Z) : Prop :=
  map_Exists (λ b sz, b ≤ p ∧ p + n ≤ b + sz) (blocks s).

Definition fill (p n c : Z) (m : gmap Z Z) : gmap Z Z :=
  foldr (λ i m, <[p + i := c]> m) m (seqZ 0 n).

(** memset(p, c, n) on user memory; the value is converted to unsigned char. *)
Definition memset (p c n : Z) : M unit :=
  λ s, if decide (n = 0) then Ret tt s
       else if decide (in_block s p n)
            then Ret tt (set_mem (fill p n (c mod 256) (mem s)) s)
            else Undef.

(** ** The system allocator: malloc, realloc, free *)

Definition next_choice (s : state) : alloc_choice * list alloc_choice :=
  match oracle s with
  | [] => (alloc_fresh, [])
  | c :: o => (c, o)
  end.

Definition set_oracle (o : list alloc_choice) (s : state) : state :=
  State (heap s) (mem s) (blocks s) (brk s) o (free_list s) (num_free s).

(** A new block of [size] bytes at the address [brk]. *)
Definition new_block (size : Z) (s : state) : state :=
  State (heap s) (mem s) (<[brk s := size]> (blocks s))
        (brk s + Z.max size 1) (oracle s) (free_list s) (num_free s).

Definition sys_malloc (size : Z) : M Z :=
  λ s, let '(c, o) := next_choice s in
       match c with
       | alloc_fail => Ret 0 (set_oracle o s)
       | _ => Ret (brk s) (new_block size (set_oracle o s))
       end.

(** The struct at [p], if any, moves to [q]. *)
Definition relocate (p q : Z) (h : gmap Z arena_s) : gmap Z arena_s :=
  match h !! p with
  | Some r => <[q := r]> (delete p h)
  | None => delete p h
  end.

Definition copy_bytes (p q n : Z) (m : gmap Z Z) : gmap Z Z :=
  foldr (λ i m', match m !! (p + i) with
                 | Some b => <[q + i := b]> m'
                 | None => m'
                 end) m (seqZ 0 n).

(** The block [p] moves to the address [brk] and gets the size [size]. *)
Definition move_block (p old size : Z) (s : state) : state :=
  State (relocate p (brk s) (heap s))
        (copy_bytes p (brk s) (Z.min old size) (mem s))
        (<[brk s := size]> (delete p (blocks s)))
        (brk s + Z.max size 1) (oracle s) (free_list s) (num_free s).

Definition resize_block (p size : Z) (s : state) : state :=
  State (heap s) (mem s) (<[p := size]> (blocks s))
        (brk s) (oracle s) (free_list s) (num_free s).

Definition sys_realloc (p size : Z) : M Z :=
  λ s, if decide (p = 0) then sys_malloc size s
       else match blocks s !! p with
            | None => Undef
            | Some old =>
                let '(c, o) := next_choice s in
                match c with
                | alloc_fail => Ret 0 (set_oracle o s)
                | alloc_same => Ret p (resize_block p size (set_oracle o s))
                | alloc_fresh => Ret (brk s) (move_block p old size (set_oracle o s))
                end
            end.

Definition release_block (p : Z) (s : state) : state :=
  State (delete p (heap s)) (mem s) (delete p (blocks s))
        (brk s) (oracle s) (free_list s) (num_free s).

(** RAII_FREE(p), that is free(p). *)
Definition RAII_FREE (p : Z) : M unit :=
  λ s, if decide (p = 0) then Ret tt s
       else match blocks s !! p with
            | None => Undef
            | Some _ => Ret tt (release_block p s)
            end.

(** ** Helpers declared in [raii.h] *)

(** Modelled from the spec: [try_malloc] is not in the sources at hand.
    Section 7 lists out-of-memory as the built-in exception raised "from
    arena growth failure and try_malloc": when the system allocator returns
    NULL the helper raises it, otherwise it returns the block. *)
Definition try_malloc (size : Z) : M Z :=
  do p <- sys_malloc size;
  if decide (p = 0) then throw out_of_memory else ret p.

(** Modelled from the spec: [try_realloc] is not in the sources at hand; it
    is the realloc counterpart of [try_malloc]. *)
Definition try_realloc (p size : Z) : M Z :=
  do q <- sys_realloc p size;
  if decide (q = 0) then throw out_of_memory else ret q.

(** Modelled from the spec: the macros [is_empty], [is_zero] and the
    function [is_type] are not in the sources at hand.  An empty handle is
    NULL, [is_zero] compares with 0, and [is_type] is false for an empty
    pointer and otherwise compares the type tag of the object. *)
Definition is_empty (p : Z) : bool := p =? 0.
Definition is_zero (v : Z) : bool := v =? 0.
Definition is_type (p t : Z) : M bool :=
  if is_empty p then ret false else do ty <- field p type; ret (ty =? t).

Section Arena.

Variable P : platform.

(** Modelled from the spec: the macro [RAII_ASSERT] is not in the sources at
    hand.  Section 7 names assertion-failure as the built-in exception
    raised "from internal invariant checks"; a build may compile the checks
    out, which [assertions P] records. *)
Definition RAII_ASSERT (c : bool) : M unit :=
  if assertions P && negb c then throw assertion_failure else ret tt.

(** ** The arena allocator *)

(** arena_t arena_init(void) *)
Definition arena_init : M Z :=
  do arena <- try_malloc sizeof_arena_s;
  store arena (Arena (RAII_ARENA P + RAII_STRUCT P) 0 0 0 0 0 0);;
  ret arena.

(** void arena_free(arena_t arena).  The memset of [sizeof(arena_t)] bytes
    of 0xFF covers the first eight bytes of the struct, the [type] tag. *)
Definition arena_free (arena : Z) : M unit :=
  if is_empty arena then ret tt
  else
    do t <- is_type arena (RAII_ARENA P + RAII_STRUCT P);
    if t then
      assign arena with_type (-1);;
      do b <- field arena base;
      RAII_FREE b;;
      RAII_FREE arena
    else ret tt.

(** size_t arena_capacity(const arena_t arena) *)
Definition arena_capacity (arena : Z) : M Z :=
  if negb (is_empty arena) then
    do t <- is_type arena (RAII_ARENA P + RAII_STRUCT P);
    if t then
      do l <- field arena limit;
      do a <- field arena avail;
      ret (to_size_t (l - a))
    else ret 0
  else ret 0.

(** size_t arena_total(const arena_t arena) *)
Definition arena_total (arena : Z) : M Z :=
  if negb (is_empty arena) then
    do t <- is_type arena (RAII_ARENA P + RAII_STRUCT P);
    if t then
      do tot <- field arena total;
      ret (to_size_t (Z.max tot (sizeof_header P) - sizeof_header P))
    else ret 0
  else ret 0.

(** The rounding of a request in [malloc_arena]; the operands are promoted
    to [size_t] and the result is stored back in the [long] nbytes. *)
Definition round_request (nbytes : Z) : Z :=
  to_long (to_size_t (nbytes + sizeof_header P - 1)
           / sizeof_header P * sizeof_header P).

(** [num_free--] on an [int]. *)
Definition decr_num_free : M unit :=
  do n <- get num_free;
  if decide (n = INT_MIN) then undef else update (set_num_free (n - 1)).

(** The first branch of the loop body: take the head of the free list. *)
Definition pop_free_list : M (Z * Z) :=
  do ptr <- get free_list;
  do nxt <- field ptr prev;
  update (set_free_list nxt);;
  decr_num_free;;
  do l <- field ptr limit;
  ret (ptr, l).

(** The second branch: grow the arena's block through the system
    allocator. *)
Definition grow (arena nbytes : Z) : M (Z * Z) :=
  let m := to_long (sizeof_header P + nbytes + THRESHOLD * 1024) in
  do t <- field arena total;
  assign arena with_total (to_size_t (t + m));;
  do b <- field arena base;
  do t <- field arena total;
  do ptr <- try_realloc b t;
  assign arena with_base ptr;;
  do b <- field arena base;
  do t <- field arena total;
  ret (ptr, b + t).

(** One turn of the while loop of [malloc_arena]. *)
Definition acquire_chunk (arena nbytes : Z) : M unit :=
  do fl <- get free_list;
  do pl <- (if decide (fl ≠ 0) then pop_free_list else grow arena nbytes);
  let ptr := pl.1 in
  do r <- load arena;
  store ptr r;;
  assign arena with_avail (ptr + sizeof_header P);;
  assign arena with_limit pl.2;;
  assign arena with_prev ptr;;
  assign ptr with_type (RAII_ARENA P).

(** while (nbytes > arena->limit - arena->avail) { ... } *)
Fixpoint malloc_arena_loop (fuel : nat) (arena nbytes : Z) : M unit :=
  do l <- field arena limit;
  do a <- field arena avail;
  if nbytes >? l - a then
    match fuel with
    | O => out_of_fuel
    | S fuel' =>
        acquire_chunk arena nbytes;;
        malloc_arena_loop fuel' arena nbytes
    end
  else ret tt.

(** void *malloc_arena(arena_t arena, long nbytes) *)
Definition malloc_arena (fuel : nat) (arena nbytes : Z) : M Z :=
  RAII_ASSERT (negb (arena =? 0));;
  RAII_ASSERT (nbytes >? 0);;
  do c <- arena_capacity arena;
  do t <- arena_total arena;
  (if c =? t then update (set_num_free 0) else ret tt);;
  let nbytes := round_request nbytes in
  malloc_arena_loop fuel arena nbytes;;
  do p <- field arena prev;
  (if negb (p =? 0) then
     do b <- field arena bytes;
     assign p with_bytes b
   else ret tt);;
  assign arena with_bytes (to_size_t nbytes);;
  do a <- field arena avail;
  assign arena with_avail (a + nbytes);;
  do a <- field arena avail;
  ret (a - nbytes).

(** void *calloc_arena(arena_t arena, long count, long nbytes) *)
Definition calloc_arena (fuel : nat) (arena count nbytes : Z) : M Z :=
  RAII_ASSERT (count >? 0);;
  if in_long (count * nbytes) then
    do ptr <- malloc_arena fuel arena (count * nbytes);
    memset ptr 0 (to_size_t (count * nbytes));;
    ret ptr
  else undef.

(** The body of the while loop of [arena_clear], up to [arena = tmp]. *)
Definition retire_chunk (arena : Z) : M unit :=
  do n <- get num_free;
  if n <? THRESHOLD then
    do p <- field arena prev;
    do fl <- get free_list;
    assign p with_prev fl;;
    do p <- field arena prev;
    update (set_free_list p);;
    update (set_num_free (n + 1));;
    do fl <- get free_list;
    do fb <- field fl bytes;
    do a <- field arena avail;
    if is_zero fb then
      do b <- field arena bytes;
      assign arena with_avail (a - b)
    else
      assign arena with_avail (a - fb)
  else
    do b <- field arena base;
    assign arena with_avail (b + sizeof_header P);;
    do b <- field arena base;
    do t <- field arena total;
    assign arena with_limit (b + t);;
    assign arena with_bytes 0;;
    assign arena with_prev 0.

(** while (arena->prev && is_type(arena->prev, RAII_ARENA)) { ... } *)
Fixpoint arena_clear_loop (fuel : nat) (arena : Z) : M unit :=
  do tmp <- field arena prev;
  do t <- (if negb (tmp =? 0) then is_type tmp (RAII_ARENA P) else ret false);
  if t then
    match fuel with
    | O => out_of_fuel
    | S fuel' =>
        retire_chunk arena;;
        arena_clear_loop fuel' tmp
    end
  else ret tt.

(** void arena_clear(arena_t arena) *)
Definition arena_clear (fuel : nat) (arena : Z) : M unit :=
  if is_empty arena then ret tt else arena_clear_loop fuel arena.

End Arena.

(** ** The vocabulary of the statements *)

(** [returns o Q]: the outcome is a normal return whose value and final
    state satisfy [Q]. *)
Definition returns {A} (o : outcome A) (Q : A → state → Prop) : Prop :=
  match o with Ret a s => Q a s | _ => False end.

(** [raises o e Q]: the outcome is the exception [e], raised in a state
    that satisfies [Q]. *)
Definition raises {A} (o : outcome A) (e : exn) (Q : state → Prop) : Prop :=
  match o with Throw e' s => e' = e ∧ Q s | _ => False end.

(** [wlp o Q E]: if the operation completes, then [Q] holds of the value and
    the state it returns, or [E] of the state it raises an exception in. *)
Definition wlp {A} (o : outcome A) (Q : A → state → Prop) (E : state → Prop) : Prop :=
  match o with Ret a s => Q a s | Throw _ s => E s | _ => True end.

(** [ensures o Q]: if the operation completes, by a return or by an
    exception, the state it leaves satisfies [Q]. *)
Definition ensures {A} (o : outcome A) (Q : state → Prop) : Prop :=
  wlp o (λ _, Q) Q.

(** [completes o s']: the operation completes and leaves the state [s']. *)
Definition completes {A} (o : outcome A) (s' : state) : Prop :=
  match o with Ret _ s | Throw _ s => s = s' | _ => False end.

(** A live [struct arena_s] object at [p] holding [r]. *)
Definition live (s : state) (p : Z) (r : arena_s) : Prop :=
  heap s !! p = Some r ∧ is_Some (blocks s !! p).

(** The allocator hands out addresses above every live block, none of
    them NULL. *)
Definition allocator_ok (s : state) : Prop :=
  0 < brk s ∧ ∀ p, is_Some (blocks s !! p) → 0 < p < brk s.

(** Between [s] and [s'] the system allocator answered no request with a
    failure. *)
Definition answered_ok (s s' : state) : Prop :=
  ∃ used, oracle s = used ++ oracle s' ∧ alloc_fail ∉ used.

(** The part of a state that a write to the [bytes] field of some object
    or to [num_free] leaves alone. *)
Definition same_but_bytes (s s' : state) : Prop :=
  mem s' = mem s ∧ blocks s' = blocks s ∧ brk s' = brk s ∧
  oracle s' = oracle s ∧ free_list s' = free_list s ∧
  ∀ q rq, heap s !! q = Some rq →
    ∃ rq', heap s' !! q = Some rq' ∧ with_bytes 0 rq' = with_bytes 0 rq.

(** The chunks on a list linked through [prev], from its head [p]. *)
Inductive chain (s : state) : Z → list Z → Prop :=
| chain_end : chain s 0 []
| chain_link p r l :
    p ≠ 0 → heap s !! p = Some r → chain s (prev r) l → chain s p (p :: l).

(** The calls a client can make. *)
Inductive call :=
| call_init
| call_malloc (fuel : nat) (arena nbytes : Z)
| call_calloc (fuel : nat) (arena count nbytes : Z)
| call_clear (fuel : nat) (arena : Z)
| call_free (arena : Z).

Section ArenaSpec.

Variable P : platform.

Definition exec (c : call) : M unit :=
  match c with
  | call_init => arena_init P;; ret tt
  | call_malloc fuel arena nbytes => malloc_arena P fuel arena nbytes;; ret tt
  | call_calloc fuel arena count nbytes =>
      calloc_arena P fuel arena count nbytes;; ret tt
  | call_clear fuel arena => arena_clear P fuel arena
  | call_free arena => arena_free P arena
  end.

(** The states of an execution: the process starts with nothing allocated
    and makes calls; a call that raises an exception leaves a state too. *)
Inductive reachable : state → Prop :=
| reach_start k o : 0 < k → reachable (initial k o)
| reach_call s c s' : reachable s → completes (exec c s) s' → reachable s'.

(** Running a list of calls; [None] when one of them does not complete. *)
Fixpoint run_calls (cs : list call) (s : state) : option state :=
  match cs with
  | [] => Some s
  | c :: cs' =>
      match exec c s with
      | Ret _ s' | Throw _ s' => run_calls cs' s'
      | _ => None
      end
  end.

(** What holds of the free list between calls: the counter is at most
    THRESHOLD and the list is empty, or its head is gone, or it is a single
    chunk. *)
Definition free_list_ok (s : state) : Prop :=
  num_free s ≤ THRESHOLD ∧
  0 < brk s ∧
  (∀ p, is_Some (blocks s !! p) → 0 < p < brk s) ∧
  (∀ p, is_Some (heap s !! p) → 0 < p < brk s) ∧
  free_list s < brk s ∧
  (free_list s = 0 ∨
   (heap s !! free_list s = None ∧ blocks s !! free_list s = None) ∨
   ∃ r, heap s !! free_list s = Some r ∧ prev r = 0 ∧ type r = RAII_ARENA P).

(** Inside the loop of [arena_clear], after a push: the chunk at hand is
    the head of the free list, and the list runs to it again after at most
    one more chunk. *)
Definition free_list_cycle (cur : Z) (s : state) : Prop :=
  num_free s ≤ THRESHOLD ∧
  0 < brk s ∧
  (∀ p, is_Some (blocks s !! p) → 0 < p < brk s) ∧
  (∀ p, is_Some (heap s !! p) → 0 < p < brk s) ∧
  free_list s = cur ∧ cur ≠ 0 ∧
  ∃ rc, heap s !! cur = Some rc ∧ type rc = RAII_ARENA P ∧
    (prev rc = 0 ∨
     (heap s !! prev rc = None) ∨
     ∃ ro, heap s !! prev rc = Some ro ∧ type ro = RAII_ARENA P ∧
           (prev ro = 0 ∨ prev ro = cur)).

(** The size the arena's block is grown to for a rounded request [n]. *)
Definition grown_total (r : arena_s) (n : Z) : Z :=
  to_size_t (total r + to_long (sizeof_header P + n + THRESHOLD * 1024)).

(** The growth for a rounded request [n] does not overflow. *)
Definition growth_fits (r : arena_s) (n : Z) : Prop :=
  0 ≤ total r ∧ 0 ≤ n ∧
  total r + sizeof_header P + n + THRESHOLD * 1024 < 2 ^ 63.

End ArenaSpec.

(** ** Two builds and some executions *)

(** An LP64 build with an 8-byte header, with and without the checks. *)
Definition lp64 : platform := Platform 8 1 2 true.
Definition lp64_nocheck : platform := Platform 8 1 2 false.

(** The process at its start; the allocator succeeds on every request. *)
Definition boot : state := initial 65536 [].

(** The process at its start when the second request to the allocator is
    going to fail. *)
Definition boot_failing : state := initial 65536 [alloc_fresh; alloc_fail].

(** The state after a list of calls ([s] itself when one of them does not
    complete). *)
Definition after_calls (P : platform) (cs : list call) (s : state) : state :=
  default s (run_calls P cs s).

(** The first handle [arena_init] returns from [boot], and the first block
    [malloc_arena] obtains for it. *)
Definition handle : Z := 65536.
Definition chunk : Z := 65592.

(** ** cthread.c: the timed waits

    The operating system is the environment of these functions.  What its
    calls return is an argument of the model: a function of the deadline or
    timeout the shim passes down, or, for the build that polls, the list of
    what each turn of the loop observes.  The mutex operations whose result
    [cnd_timedwait] ignores, and the length of the naps of the polling
    loop, do not bear on the status returned and are left out. *)

(** Modelled from the spec: [cthread.h] is not in the sources at hand.
    Section 6 gives the return codes of the shim as "success, busy, timeout,
    out-of-memory, generic error — distinct values"; they are the
    enumerators [thrd_success], [thrd_busy], [thrd_timedout], [thrd_nomem]
    and [thrd_error] the functions return. *)
Inductive thrd_status :=
| thrd_error
| thrd_success
| thrd_timedout
| thrd_busy
| thrd_nomem.

(** struct timespec *)
Record timespec := Timespec { tv_sec : Z; tv_nsec : Z }.

(** The constants of the host the shim compares with: errno.h and the
    Win32 wait results. *)
Record host := Host {
  ETIMEDOUT : Z;
  EBUSY : Z;
  WAIT_OBJECT_0 : Z;
  WAIT_TIMEOUT : Z;
  WAIT_FAILED : Z
}.

(** DWORD, a 32-bit unsigned integer. *)
Definition DWORD (z : Z) : Z := z mod 2 ^ 32.

(** unsigned long long *)
Definition ULL (z : Z) : Z := z mod 2 ^ 64.

(** (cur.tv_sec > ts->tv_sec) ||
    ((cur.tv_sec == ts->tv_sec) && (cur.tv_nsec >= ts->tv_nsec)) *)
Definition deadline_passed (cur ts : timespec) : bool :=
  (tv_sec cur >? tv_sec ts) ||
  ((tv_sec cur =? tv_sec ts) && (tv_nsec cur >=? tv_nsec ts)).

(** The Win32 mutex of the shim (its handle is left out). *)
Record mtx_t := Mtx {
  mAlreadyLocked : bool;
  mRecursive : bool;
  mTimed : bool
}.

(** The Win32 condition variable of the shim (its events are left out). *)
Record cnd_t := Cnd { mWaitersCount : Z }.

Definition _CONDITION_EVENT_ALL : Z := 1.

(** What one turn of the polling loop observes: the result of
    pthread_mutex_trylock and, when the mutex is busy, the time
    timespec_get reads ([None] when it returns 0). *)
Record poll := Poll { trylock : Z; clock : option timespec }.

Section Shim.

Variable H : host.

(** mtx_timedlock, the build with _POSIX_TIMEOUTS. *)
Definition mtx_timedlock_posix
    (pthread_mutex_timedlock : timespec → Z) (ts : timespec) : thrd_status :=
  let rc := pthread_mutex_timedlock ts in
  if rc =? 0 then thrd_success
  else if rc =? ETIMEDOUT H then thrd_timedout
  else thrd_error.

(** The switch that ends mtx_timedlock in the POSIX build without
    timeouts. *)
Definition poll_status (rc : Z) : thrd_status :=
  if rc =? 0 then thrd_success
  else if (rc =? ETIMEDOUT H) || (rc =? EBUSY H) then thrd_timedout
  else thrd_error.

(** mtx_timedlock, the POSIX build without timeouts: try the lock and nap
    until the deadline.  [None]: the observations end while the loop still
    runs. *)
Fixpoint mtx_timedlock_poll (ts : timespec) (env : list poll) : option thrd_status :=
  match env with
  | [] => None
  | p :: env' =>
      if trylock p =? EBUSY H then
        match clock p with
        | None => Some thrd_error
        | Some cur =>
            if deadline_passed cur ts then Some (poll_status (trylock p))
            else mtx_timedlock_poll ts env'
        end
      else Some (poll_status (trylock p))
  end.

(** The timeout mtx_timedlock hands to WaitForSingleObject on Win32. *)
Definition timeout_ms (cur ts : timespec) : Z :=
  if deadline_passed cur ts then 0
  else
    let t := DWORD (DWORD (tv_sec ts - tv_sec cur) * 1000) in
    let t := DWORD (t + (tv_nsec ts - tv_nsec cur) ÷ 1000000) in
    DWORD (t + 1).

(** mtx_timedlock, the Win32 build.  [now] is what timespec_get reads
    ([None] when it returns 0).  [None]: the function spins in
    "while(mtx->mAlreadyLocked) Sleep(1)". *)
Definition mtx_timedlock_win32 (mtx : mtx_t) (now : option timespec)
    (ts : timespec) (WaitForSingleObject : Z → Z) : option (thrd_status * mtx_t) :=
  if negb (mTimed mtx) then Some (thrd_error, mtx)
  else
    match now with
    | None => Some (thrd_error, mtx)
    | Some cur =>
        let w := WaitForSingleObject (timeout_ms cur ts) in
        if w =? WAIT_OBJECT_0 H then
          if negb (mRecursive mtx) then
            if mAlreadyLocked mtx then None
            else Some (thrd_success, Mtx true (mRecursive mtx) (mTimed mtx))
          else Some (thrd_success, mtx)
        else if w =? WAIT_TIMEOUT H then Some (thrd_timedout, mtx)
        else Some (thrd_error, mtx)
    end.

(** cnd_timedwait, the POSIX build. *)
Definition cnd_timedwait_posix
    (pthread_cond_timedwait : timespec → Z) (ts : timespec) : thrd_status :=
  let ret := pthread_cond_timedwait ts in
  if ret =? ETIMEDOUT H then thrd_timedout
  else if ret =? 0 then thrd_success
  else thrd_error.

(** _cnd_timedwait_win32; [reset] is what ResetEvent returns. *)
Definition _cnd_timedwait_win32 (cond : cnd_t) (timeout : Z)
    (WaitForMultipleObjects : Z → Z) (reset : Z) : thrd_status * cnd_t :=
  let cond := Cnd (mWaitersCount cond + 1) in
  let result := WaitForMultipleObjects timeout in
  if result =? WAIT_TIMEOUT H then (thrd_timedout, cond)
  else if result =? WAIT_FAILED H then (thrd_error, cond)
  else
    let cond := Cnd (mWaitersCount cond - 1) in
    let lastWaiter :=
      (result =? WAIT_OBJECT_0 H + _CONDITION_EVENT_ALL) &&
      (mWaitersCount cond =? 0) in
    if lastWaiter then
      if reset =? 0 then (thrd_error, cond) else (thrd_success, cond)
    else (thrd_success, cond).

(** The timeout cnd_timedwait computes from the deadline on Win32. *)
Definition cnd_delta (now ts : timespec) : Z :=
  let nowInMilliseconds := ULL (tv_sec now * 1000 + tv_nsec now ÷ 1000000) in
  let tsInMilliseconds := ULL (tv_sec ts * 1000 + tv_nsec ts ÷ 1000000) in
  if tsInMilliseconds >? nowInMilliseconds
  then DWORD (tsInMilliseconds - nowInMilliseconds)
  else 0.

(** cnd_timedwait, the Win32 build. *)
Definition cnd_timedwait_win32 (cond : cnd_t) (now : option timespec)
    (ts : timespec) (WaitForMultipleObjects : Z → Z) (reset : Z)
    : thrd_status * cnd_t :=
  match now with
  | Some now =>
      _cnd_timedwait_win32 cond (cnd_delta now ts) WaitForMultipleObjects reset
  | None => (thrd_error, cond)
  end.

End Shim.

(** Linux errno values and the Win32 wait results. *)
Definition a_host : host := Host 110 16 0 258 4294967295.

(** ** More vocabulary: termination and the shape of the store *)

(** [halts o Q]: the operation does not run out of fuel, and if it returns,
    [Q] holds of the value and the state. *)
Definition halts {A} (o : outcome A) (Q : A → state → Prop) : Prop :=
  match o with Ret a s => Q a s | OutOfFuel => False | _ => True end.

(** The number of objects whose [prev] is not NULL. *)
Definition linked (h : gmap Z arena_s) : nat :=
  size (filter (λ kv, prev kv.2 ≠ 0) h).

(** Where the arena's block is after a growth that the allocator answers
    with [c]: realloc of NULL is malloc, [alloc_same] resizes in place, and
    otherwise the block moves to the allocator's next address. *)
Definition grown_base (r : arena_s) (c : alloc_choice) (s : state) : Z :=
  match c with
  | alloc_same => if decide (base r = 0) then brk s else base r
  | _ => brk s
  end.

(** ** cthread.c: more of the shim

    As for the timed waits, what the operating system returns is an
    argument of each function.  The handles of the Win32 objects are not
    part of the records; the client's thread function is a function on its
    argument. *)

(** The mutex types of [cthread.h], bit flags for mtx_init.  The header is
    not among the sources at hand; the values are parameters. *)
Record mtx_types := MtxTypes { mtx_timed : Z; mtx_recursive : Z }.

(** (int) of a DWORD: two's complement on 32 bits. *)
Definition to_int (z : Z) : Z :=
  let u := z mod 2 ^ 32 in if u <? 2 ^ 31 then u else u - 2 ^ 32.

Definition _CONDITION_EVENT_ONE : Z := 0.

Section ShimMore.

Variable H : host.
Variable T : mtx_types.

(** *** Mutexes, Win32 build *)

(** mtx_init.  [CreateMutex] is the handle the call returns, 0 for NULL. *)
Definition mtx_init_win32 (type : Z) (CreateMutex : Z) : thrd_status * mtx_t :=
  let mtx := Mtx false
                 (negb (Z.land type (mtx_recursive T) =? 0))
                 (negb (Z.land type (mtx_timed T) =? 0)) in
  if negb (mTimed mtx) then (thrd_success, mtx)
  else if CreateMutex =? 0 then (thrd_error, mtx)
  else (thrd_success, mtx).

(** The end of mtx_lock:
    if (!mtx->mRecursive) { while(mtx->mAlreadyLocked) Sleep(1);
    mtx->mAlreadyLocked = TRUE; } return thrd_success;
    [None] when the loop spins, which it does for ever unless another
    thread clears the flag. *)
Definition mark_locked (mtx : mtx_t) : option (thrd_status * mtx_t) :=
  if negb (mRecursive mtx) then
    if mAlreadyLocked mtx then None
    else Some (thrd_success, Mtx true (mRecursive mtx) (mTimed mtx))
  else Some (thrd_success, mtx).

(** mtx_lock.  [WaitForSingleObject] is the result of the wait with
    INFINITE on a timed mutex; EnterCriticalSection returns nothing. *)
Definition mtx_lock_win32 (mtx : mtx_t) (WaitForSingleObject : Z)
    : option (thrd_status * mtx_t) :=
  if negb (mTimed mtx) then mark_locked mtx
  else if WaitForSingleObject =? WAIT_OBJECT_0 H then mark_locked mtx
  else Some (thrd_error, mtx).

(** mtx_trylock. *)
Definition mtx_trylock_win32 (mtx : mtx_t) (TryEnterCriticalSection : bool)
    (WaitForSingleObject : Z) : thrd_status * mtx_t :=
  let ret :=
    if negb (mTimed mtx)
    then (if TryEnterCriticalSection then thrd_success else thrd_busy)
    else (if WaitForSingleObject =? WAIT_OBJECT_0 H then thrd_success else thrd_busy) in
  match ret with
  | thrd_success =>
      if negb (mRecursive mtx) then
        if mAlreadyLocked mtx then (thrd_busy, mtx)
        else (thrd_success, Mtx true (mRecursive mtx) (mTimed mtx))
      else (ret, mtx)
  | _ => (ret, mtx)
  end.

(** mtx_unlock.  [ReleaseMutex] is what the call returns on a timed
    mutex. *)
Definition mtx_unlock_win32 (mtx : mtx_t) (ReleaseMutex : bool) : thrd_status * mtx_t :=
  let mtx := Mtx false (mRecursive mtx) (mTimed mtx) in
  if negb (mTimed mtx) then (thrd_success, mtx)
  else if negb ReleaseMutex then (thrd_error, mtx)
  else (thrd_success, mtx).

(** *** Mutexes, POSIX build *)

Definition mtx_trylock_posix (pthread_mutex_trylock : Z) : thrd_status :=
  if pthread_mutex_trylock =? 0 then thrd_success else thrd_busy.

(** The nap of the polling mtx_timedlock: the time left until the
    deadline, at most 5 ms. *)
Definition nap (cur ts : timespec) : timespec :=
  let dur := Timespec (tv_sec ts - tv_sec cur) (tv_nsec ts - tv_nsec cur) in
  let dur := if tv_nsec dur <? 0
             then Timespec (tv_sec dur - 1) (tv_nsec dur + 1000000000)
             else dur in
  if negb (tv_sec dur =? 0) || (tv_nsec dur >? 5000000)
  then Timespec 0 5000000
  else dur.

(** *** Condition variables, Win32 build *)

(** cnd_signal and cnd_broadcast.  [SetEvent] gives what the call returns
    for an event; the second component lists the events it was called
    on. *)
Definition cnd_notify (event : Z) (cond : cnd_t) (SetEvent : Z → Z)
    : thrd_status * list Z :=
  let haveWaiters := mWaitersCount cond >? 0 in
  if haveWaiters then
    if SetEvent event =? 0 then (thrd_error, [event])
    else (thrd_success, [event])
  else (thrd_success, []).

Definition cnd_signal_win32 := cnd_notify _CONDITION_EVENT_ONE.
Definition cnd_broadcast_win32 := cnd_notify _CONDITION_EVENT_ALL.

(** *** thrd_sleep, Win32 build *)

(** The argument of SleepEx. *)
Definition sleep_ms (duration : timespec) : Z :=
  DWORD (tv_sec duration * 1000 + tv_nsec duration ÷ 1000000
         + (if Z.rem (tv_nsec duration) 1000000 =? 0 then 0 else 1)).

(** What is stored in [*remaining] from the two clock readings. *)
Definition since (start now : timespec) : timespec :=
  let r := Timespec (tv_sec now - tv_sec start) (tv_nsec now - tv_nsec start) in
  if tv_nsec r <? 0 then Timespec (tv_sec r - 1) (tv_nsec r + 1000000000) else r.

(** thrd_sleep.  [start] and [now] are what timespec_get reads ([None]
    when it returns 0), [remaining] tells whether the caller passed a
    pointer.  The result is the int returned, [inr thrd_error] where the
    source returns that enumerator, and the value stored in [*remaining],
    if any. *)
Definition thrd_sleep_win32 (WAIT_IO_COMPLETION : Z) (duration : timespec)
    (remaining : bool) (start : option timespec) (SleepEx : Z → Z)
    (now : option timespec) : (Z + thrd_status) * option timespec :=
  match start with
  | None => (inr thrd_error, None)
  | Some start =>
      let t := SleepEx (sleep_ms duration) in
      if t =? 0 then (inl 0, None)
      else
        let code := if t =? WAIT_IO_COMPLETION then inl (-1) else inl (-2) in
        if remaining then
          match now with
          | None => (inr thrd_error, None)
          | Some now => (code, Some (since start now))
          end
        else (code, None)
  end.

(** *** call_once, Win32 build, run by one thread *)

(** [flag] is flag->status and [func] the effect of the callback on the
    client's state.  With a single thread the compare-and-exchange in the
    state 0 succeeds, and the states 1 and 2 (another thread is at work)
    spin. *)
Fixpoint call_once {A} (fuel : nat) (flag : Z) (func : A → A) (a : A)
    : option (Z * A) :=
  if flag <? 3 then
    match fuel with
    | O => None
    | S fuel' =>
        if flag =? 0 then Some (3, func a)
        else call_once fuel' flag func a
    end
  else Some (flag, a).

(** [n] calls of call_once in a row on the same flag. *)
Fixpoint call_once_times {A} (n fuel : nat) (flag : Z) (func : A → A) (a : A)
    : option (Z * A) :=
  match n with
  | O => Some (flag, a)
  | S n' =>
      match call_once fuel flag func a with
      | Some (flag', a') => call_once_times n' fuel flag' func a'
      | None => None
      end
  end.

End ShimMore.

(** *** Threads

    The blocks malloc hands out are tracked by address: [malloc] is the
    address a call returns, 0 for NULL. *)

(** _thread_start_info: the client's function and its argument. *)
Record _thread_start_info := StartInfo { mFunction : Z → Z; mArg : Z }.

(** struct CThreadThrdData at the address [node].  The chain of [next]
    pointers that starts at [_cthread_thread_head] is given as a list. *)
Record CThreadThrdData := ThrdData { node : Z; thread_id : Z; thread_handle : Z }.

(** The bookkeeping of the threads. *)
Record threads := Threads {
  _cthread_thread_head : list CThreadThrdData;
  start_infos : gmap Z _thread_start_info;   (* the start infos in memory *)
  allocated : gset Z                         (* the blocks still allocated *)
}.

Definition malloc_block (p : Z) (w : threads) : threads :=
  Threads (_cthread_thread_head w) (start_infos w) ({[p]} ∪ allocated w).

Definition free_block (p : Z) (w : threads) : threads :=
  Threads (_cthread_thread_head w) (delete p (start_infos w)) (allocated w ∖ {[p]}).

Definition write_start_info (ti : Z) (func : Z → Z) (arg : Z) (w : threads) : threads :=
  Threads (_cthread_thread_head w) (<[ti := StartInfo func arg]> (start_infos w))
          (allocated w).

Definition set_thread_head (l : list CThreadThrdData) (w : threads) : threads :=
  Threads l (start_infos w) (allocated w).

(** _insert_thread_data: the new node goes after the last one. *)
Fixpoint _insert_thread_data (data : CThreadThrdData) (head : list CThreadThrdData)
    : list CThreadThrdData :=
  match head with
  | [] => [data]
  | n :: rest => n :: _insert_thread_data data rest
  end.

(** _lookup_thread_handle: the handle of the first node with the id, or
    NULL. *)
Fixpoint _lookup_thread_handle (id : Z) (head : list CThreadThrdData) : Z :=
  match head with
  | [] => 0
  | n :: rest =>
      if thread_id n =? id then thread_handle n
      else _lookup_thread_handle id rest
  end.

(** _remove_thread_data: the first node with the id is unlinked and freed;
    the result is the chain and the node freed, if any. *)
Fixpoint _remove_thread_data (id : Z) (head : list CThreadThrdData)
    : list CThreadThrdData * option Z :=
  match head with
  | [] => ([], None)
  | n :: rest =>
      if thread_id n =? id then (rest, Some (node n))
      else let '(rest', freed) := _remove_thread_data id rest in
           (n :: rest', freed)
  end.

Definition remove_thread (id : Z) (w : threads) : threads :=
  let '(head, freed) := _remove_thread_data id (_cthread_thread_head w) in
  let w := set_thread_head head w in
  match freed with Some p => free_block p w | None => w end.

Section Threads.

Variable H : host.

(** thrd_create, Win32 build.  [malloc_ti] and [malloc_data] are what the
    two calls of malloc return, [CreateThread] the handle (0 for NULL).
    The result is the status, the id stored in [*thr] if any, and the
    bookkeeping. *)
Definition thrd_create_win32 (malloc_ti malloc_data CreateThread : Z)
    (GetThreadId : Z → Z) (func : Z → Z) (arg : Z) (w : threads)
    : thrd_status * option Z * threads :=
  if malloc_ti =? 0 then (thrd_nomem, None, w)
  else
    let w := write_start_info malloc_ti func arg (malloc_block malloc_ti w) in
    if malloc_data =? 0 then (thrd_nomem, None, free_block malloc_ti w)
    else
      let w := malloc_block malloc_data w in
      if CreateThread =? 0
      then (thrd_error, None, free_block malloc_data (free_block malloc_ti w))
      else
        let data := ThrdData malloc_data (GetThreadId CreateThread) CreateThread in
        let w := set_thread_head
                   (_insert_thread_data data (_cthread_thread_head w)) w in
        (thrd_success, Some (thread_id data), w).

(** thrd_create, POSIX build.  [pthread_create] is the result of the call
    and [thr] the id it stores. *)
Definition thrd_create_posix (malloc_ti pthread_create thr : Z)
    (func : Z → Z) (arg : Z) (w : threads) : thrd_status * option Z * threads :=
  if malloc_ti =? 0 then (thrd_nomem, None, w)
  else
    let w := write_start_info malloc_ti func arg (malloc_block malloc_ti w) in
    if negb (pthread_create =? 0) then (thrd_error, None, free_block malloc_ti w)
    else (thrd_success, Some thr, w).

(** _thrd_wrapper_function, what the new thread runs: it reads the start
    info, frees it and calls the client's function.  The result is the int
    the function returns; the Win32 build returns it as a DWORD.  [None]
    when there is no start info at [aArg].  (The Win32 build then runs the
    destructors of the thread's storage, which is not modelled.) *)
Definition _thrd_wrapper_function (aArg : Z) (w : threads) : option (Z * threads) :=
  match start_infos w !! aArg with
  | None => None
  | Some ti =>
      let fun_ := mFunction ti in
      let arg := mArg ti in
      let w := free_block aArg w in
      Some (fun_ arg, w)
  end.

(** thrd_detach, Win32 build. *)
Definition thrd_detach_win32 (thr : Z) (CloseHandle : Z → bool) (w : threads)
    : thrd_status * threads :=
  let handle := _lookup_thread_handle thr (_cthread_thread_head w) in
  if handle =? 0 then (thrd_error, w)
  else if CloseHandle handle then (thrd_success, remove_thread thr w)
  else (thrd_error, w).

(** thrd_join, Win32 build.  [res] tells whether the caller passed a
    pointer; [GetExitCodeThread] gives the exit code, or [None] when the
    call fails.  The result is the status, the int stored in [*res] if
    any, and the bookkeeping. *)
Definition thrd_join_win32 (thr : Z) (res : bool)
    (WaitForSingleObject : Z → Z) (GetExitCodeThread : Z → option Z)
    (CloseHandle : Z → bool) (w : threads) : thrd_status * option Z * threads :=
  let handle := _lookup_thread_handle thr (_cthread_thread_head w) in
  let close (stored : option Z) :=
    if CloseHandle handle then (thrd_success, stored, remove_thread thr w)
    else (thrd_error, stored, w) in
  if handle =? 0 then (thrd_error, None, w)
  else if WaitForSingleObject handle =? WAIT_FAILED H then (thrd_error, None, w)
  else if res then
    match GetExitCodeThread handle with
    | Some dwRes => close (Some (to_int dwRes))
    | None => (thrd_error, None, w)
    end
  else close None.

(** thrd_join, POSIX build.  [pthread_join] is the result of the call and
    [pres] the pointer it stores. *)
Definition thrd_join_posix (res : bool) (pthread_join pres : Z)
    : thrd_status * option Z :=
  if negb (pthread_join =? 0) then (thrd_error, None)
  else (thrd_success, if res then Some (to_int pres) else None).

End Threads.

(** *** Thread-specific storage, Win32 build *)

(** struct CThreadTSSData *)
Record CThreadTSSData := TSSData { value : Z; key : Z; next : Z }.

(** The storage of a thread: the nodes in memory by address, the two ends
    of their list, the table of destructors, and the slots that
    TlsSetValue fills and TlsGetValue reads (NULL where nothing is
    stored). *)
Record tss := TSS {
  tss_nodes : gmap Z CThreadTSSData;
  _cthread_tss_head : Z;
  _cthread_tss_tail : Z;
  _cthread_tss_dtors : gmap Z Z;
  tls_slots : gmap Z Z
}.

Definition tss_empty : tss := TSS ∅ 0 0 ∅ ∅.

Definition TlsGetValue (k : Z) (w : tss) : Z := default 0 (tls_slots w !! k).

Definition set_tss_nodes (h : gmap Z CThreadTSSData) (w : tss) : tss :=
  TSS h (_cthread_tss_head w) (_cthread_tss_tail w) (_cthread_tss_dtors w)
      (tls_slots w).
Definition set_tss_head (p : Z) (w : tss) : tss :=
  TSS (tss_nodes w) p (_cthread_tss_tail w) (_cthread_tss_dtors w) (tls_slots w).
Definition set_tss_tail (p : Z) (w : tss) : tss :=
  TSS (tss_nodes w) (_cthread_tss_head w) p (_cthread_tss_dtors w) (tls_slots w).
Definition set_tls_slot (k p : Z) (w : tss) : tss :=
  TSS (tss_nodes w) (_cthread_tss_head w) (_cthread_tss_tail w)
      (_cthread_tss_dtors w) (<[k := p]> (tls_slots w)).

(** p->next = q and p->value = v; [None] when there is no node at [p]. *)
Definition set_next (p q : Z) (w : tss) : option tss :=
  n ← tss_nodes w !! p;
  Some (set_tss_nodes (<[p := TSSData (value n) (key n) q]> (tss_nodes w)) w).
Definition set_value (p v : Z) (w : tss) : option tss :=
  n ← tss_nodes w !! p;
  Some (set_tss_nodes (<[p := TSSData v (key n) (next n)]> (tss_nodes w)) w).

(** tss_create.  [TlsAlloc] is the index the call returns. *)
Definition tss_create (TLS_OUT_OF_INDEXES TlsAlloc dtor : Z) (w : tss)
    : thrd_status * option Z * tss :=
  if TlsAlloc =? TLS_OUT_OF_INDEXES then (thrd_error, Some TlsAlloc, w)
  else (thrd_success, Some TlsAlloc,
        TSS (tss_nodes w) (_cthread_tss_head w) (_cthread_tss_tail w)
            (<[TlsAlloc := dtor]> (_cthread_tss_dtors w)) (tls_slots w)).

(** tss_get; [None] when the slot points to no node. *)
Definition tss_get (k : Z) (w : tss) : option Z :=
  let data := TlsGetValue k w in
  if data =? 0 then Some 0
  else n ← tss_nodes w !! data; Some (value n).

(** tss_set.  [malloc] is the address malloc returns when a node is
    needed and [TlsSetValue] whether that call succeeds. *)
Definition tss_set (k val malloc : Z) (TlsSetValue : bool) (w : tss)
    : option (thrd_status * tss) :=
  let data := TlsGetValue k w in
  if data =? 0 then
    let data := malloc in
    if data =? 0 then Some (thrd_error, w)
    else
      let w := set_tss_nodes (<[data := TSSData 0 k 0]> (tss_nodes w)) w in
      w ← (if negb (_cthread_tss_tail w =? 0)
           then set_next (_cthread_tss_tail w) data w
           else Some (set_tss_tail data w));
      let w := if _cthread_tss_head w =? 0 then set_tss_head data w else w in
      if negb TlsSetValue
      then Some (thrd_error, set_tss_nodes (delete data (tss_nodes w)) w)
      else
        w ← set_value data val (set_tls_slot k data w);
        Some (thrd_success, w)
  else
    w ← set_value data val w;
    Some (thrd_success, w).

(** The nodes on the list that starts at [p], the list
    _cthread_tss_cleanup walks. *)
Inductive tss_list (w : tss) : Z → list Z → Prop :=
| tss_list_end : tss_list w 0 []
| tss_list_node p n l :
    p ≠ 0 → tss_nodes w !! p = Some n → tss_list w (next n) l →
    tss_list w p (p :: l).

(** The process at its start when the third request to the allocator, the
    first realloc of a block, is going to resize the block in place. *)
Definition boot_in_place : state :=
  initial 65536 [alloc_fresh; alloc_fresh; alloc_same].

(** The values of TinyCThread's header for the mutex types, and an empty
    bookkeeping of threads. *)
Definition a_mtx_types : mtx_types := MtxTypes 1 2.
Definition no_threads : threads := Threads [] ∅ ∅.

(** ** The place of the field [bytes]

    A chunk header is a whole [struct arena_s] stored at the start of the
    block ("*ptr = *arena"), and the memory handed out from the block
    starts [sizeof(union header)] bytes after its address.  On LP64 the
    field [bytes] lies 40 bytes into the struct: the tag, padded to 8
    bytes, and four pointers come before it; it is a [size_t]. *)
Definition offsetof_bytes : Z := 40.
Definition sizeof_size_t : Z := 8.

(** The bytes [p, p + n) and the field [bytes] of the struct stored at [q]
    have an address in common. *)
Definition holds_bytes_field (q p n : Z) : Prop :=
  ∃ a, p ≤ a < p + n ∧
       q + offsetof_bytes ≤ a < q + offsetof_bytes + sizeof_size_t.

(** An LP64 build without the checks whose [union header] is as large as
    a [struct arena_s] and more. *)
Definition lp64_wide_nocheck : platform := Platform 64 1 2 false.

(** winbase.h: INFINITE, the timeout of a wait without a limit; mtx_lock,
    cnd_wait and thrd_join pass it. *)
Definition INFINITE : Z := 4294967295.

(** * Properties *)

(** ** Rules for outcomes *)

Lemma returns_intro {A} (o : outcome A) Q :
  returns o Q → ∃ a s, o = Ret a s ∧ Q a s.
Proof. destruct o; simpl; intros H; try done. eauto. Qed.

Lemma returns_mono {A} (o : outcome A) (Q Q' : A → state → Prop) :
  returns o Q → (∀ a s, Q a s → Q' a s) → returns o Q'.
Proof. destruct o; simpl; auto. Qed.

Lemma returns_bind {A B} (m : M A) (k : A → M B) s Q :
  returns (m s) (λ a s1, returns (k a s1) Q) → returns (bind m k s) Q.
Proof. unfold bind. destruct (m s); simpl; auto. Qed.

Lemma returns_ret {A} (a : A) s (Q : A → state → Prop) : Q a s → returns (ret a s) Q.
Proof. auto. Qed.

Lemma returns_get {A} (f : state → A) s (Q : A → state → Prop) :
  Q (f s) s → returns (get f s) Q.
Proof. auto. Qed.

Lemma returns_update f s (Q : unit → state → Prop) :
  Q tt (f s) → returns (update f s) Q.
Proof. auto. Qed.

Lemma returns_load p s r (Q : arena_s → state → Prop) :
  heap s !! p = Some r → Q r s → returns (load p s) Q.
Proof. intros H HQ. unfold load. rewrite H. exact HQ. Qed.

Lemma returns_field p f s r (Q : Z → state → Prop) :
  heap s !! p = Some r → Q (f r) s → returns (field p f s) Q.
Proof. intros H HQ. unfold field, bind, load, ret. rewrite H. exact HQ. Qed.

Lemma returns_store p r s (Q : unit → state → Prop) :
  is_Some (blocks s !! p) →
  Q tt (set_heap (<[p := r]> (heap s)) s) → returns (store p r s) Q.
Proof. intros [sz Hb] HQ. unfold store. rewrite Hb. exact HQ. Qed.

Lemma returns_assign p f v s r (Q : unit → state → Prop) :
  heap s !! p = Some r → is_Some (blocks s !! p) →
  Q tt (set_heap (<[p := f v r]> (heap s)) s) → returns (assign p f v s) Q.
Proof.
  intros H Hb HQ. unfold assign. apply returns_bind.
  eapply returns_load; [exact H|]. by apply returns_store.
Qed.

Lemma returns_is_type p t s r (Q : bool → state → Prop) :
  p ≠ 0 → heap s !! p = Some r → Q (type r =? t) s → returns (is_type p t s) Q.
Proof.
  intros Hp H HQ. unfold is_type, is_empty.
  destruct (Z.eqb_spec p 0); [done|].
  apply returns_bind. eapply returns_field; [exact H|]. exact HQ.
Qed.

Lemma raises_bind_l {A B} (m : M A) (k : A → M B) s e Q :
  raises (m s) e Q → raises (bind m k s) e Q.
Proof. unfold bind. destruct (m s); simpl; done. Qed.

Lemma raises_bind_r {A B} (m : M A) (k : A → M B) s e Q :
  returns (m s) (λ a s1, raises (k a s1) e Q) → raises (bind m k s) e Q.
Proof. unfold bind. destruct (m s); simpl; done. Qed.

Lemma bind_eq {A B} (m : M A) (k : A → M B) s a s1 :
  m s = Ret a s1 → bind m k s = k a s1.
Proof. unfold bind. intros ->. reflexivity. Qed.

Lemma bind_inv_ret {A B} (m : M A) (k : A → M B) s b s' :
  bind m k s = Ret b s' → ∃ a s1, m s = Ret a s1 ∧ k a s1 = Ret b s'.
Proof. unfold bind. destruct (m s); try done. eauto. Qed.

Lemma field_live s p f r : heap s !! p = Some r → field p f s = Ret (f r) s.
Proof. intros H. unfold field, bind, load, ret. rewrite H. reflexivity. Qed.

Lemma assign_live s p f v r sz :
  heap s !! p = Some r → blocks s !! p = Some sz →
  assign p f v s = Ret tt (set_heap (<[p := f v r]> (heap s)) s).
Proof. intros H Hb. unfold assign, bind, load, store. rewrite H, Hb. reflexivity. Qed.

Lemma is_type_live s p t r :
  p ≠ 0 → heap s !! p = Some r → is_type p t s = Ret (type r =? t) s.
Proof.
  intros Hp H. unfold is_type, is_empty.
  destruct (Z.eqb_spec p 0); [done|].
  rewrite (bind_eq _ _ _ _ _ (field_live _ _ _ _ H)). reflexivity.
Qed.

Lemma wlp_mono {A} (o : outcome A) (Q Q' : A → state → Prop) (E E' : state → Prop) :
  wlp o Q E → (∀ a s, Q a s → Q' a s) → (∀ s, E s → E' s) → wlp o Q' E'.
Proof. destruct o; simpl; auto. Qed.

Lemma wlp_bind {A B} (m : M A) (k : A → M B) s Q E :
  wlp (m s) (λ a s1, wlp (k a s1) Q E) E → wlp (bind m k s) Q E.
Proof. unfold bind. destruct (m s); simpl; auto. Qed.

Lemma wlp_ret {A} (a : A) s (Q : A → state → Prop) E : Q a s → wlp (ret a s) Q E.
Proof. auto. Qed.

Lemma wlp_throw {A} e s (Q : A → state → Prop) (E : state → Prop) :
  E s → wlp (throw e s) Q E.
Proof. auto. Qed.

Lemma wlp_get {A} (f : state → A) s (Q : A → state → Prop) E :
  Q (f s) s → wlp (get f s) Q E.
Proof. auto. Qed.

Lemma wlp_update f s (Q : unit → state → Prop) E :
  Q tt (f s) → wlp (update f s) Q E.
Proof. auto. Qed.

Lemma wlp_load p s (Q : arena_s → state → Prop) E :
  (∀ r, heap s !! p = Some r → Q r s) → wlp (load p s) Q E.
Proof. intros H. unfold load. destruct (heap s !! p); simpl; auto. Qed.

Lemma wlp_field p f s (Q : Z → state → Prop) E :
  (∀ r, heap s !! p = Some r → Q (f r) s) → wlp (field p f s) Q E.
Proof.
  intros H. unfold field. apply wlp_bind, wlp_load. intros r Hr.
  apply wlp_ret. auto.
Qed.

Lemma wlp_store p r s (Q : unit → state → Prop) E :
  (is_Some (blocks s !! p) → Q tt (set_heap (<[p := r]> (heap s)) s)) →
  wlp (store p r s) Q E.
Proof. intros H. unfold store. destruct (blocks s !! p) eqn:Hb; simpl; eauto. Qed.

Lemma wlp_assign p f v s (Q : unit → state → Prop) E :
  (∀ r, heap s !! p = Some r → is_Some (blocks s !! p) →
        Q tt (set_heap (<[p := f v r]> (heap s)) s)) →
  wlp (assign p f v s) Q E.
Proof.
  intros H. unfold assign. apply wlp_bind, wlp_load. intros r Hr.
  apply wlp_store. auto.
Qed.

Lemma wlp_is_type p t s (Q : bool → state → Prop) E :
  (p = 0 → Q false s) →
  (∀ r, p ≠ 0 → heap s !! p = Some r → Q (type r =? t) s) →
  wlp (is_type p t s) Q E.
Proof.
  intros H0 H1. unfold is_type, is_empty.
  destruct (Z.eqb_spec p 0); [by apply wlp_ret, H0|].
  apply wlp_bind, wlp_field. intros r Hr. apply wlp_ret. auto.
Qed.

Lemma completes_wlp {A} (o : outcome A) (Q : state → Prop) s' :
  ensures o Q → completes o s' → Q s'.
Proof. destruct o; simpl; try done; by intros ? <-. Qed.

(** One step of a run that is known to return. *)
Ltac mstep :=
  lazymatch goal with
  | |- returns (bind _ _ _) _ => apply returns_bind
  | |- returns (get _ _) _ => apply returns_get
  | |- returns (update _ _) _ => apply returns_update
  | |- returns (ret _ _) _ => apply returns_ret
  | |- returns (field _ _ _) _ =>
      eapply returns_field; [simpl; simplify_map_eq; done|]
  | |- returns (load _ _) _ =>
      eapply returns_load; [simpl; simplify_map_eq; done|]
  | |- returns (assign _ _ _ _) _ =>
      eapply returns_assign;
      [simpl; simplify_map_eq; done|simpl; simplify_map_eq; done|]
  | |- returns (store _ _ _) _ =>
      eapply returns_store; [simpl; simplify_map_eq; done|]
  end; cbv beta.

Ltac mnorm :=
  cbn [heap mem blocks brk oracle free_list num_free
       set_heap set_mem set_free_list set_num_free set_oracle
       new_block move_block resize_block release_block fst snd];
  rewrite ?insert_insert_eq.

Ltac mstep' := mstep; mnorm.

(** One step of a run that may not complete. *)
Ltac wstep :=
  lazymatch goal with
  | |- wlp (bind _ _ _) _ _ => apply wlp_bind
  | |- wlp (get _ _) _ _ => apply wlp_get
  | |- wlp (update _ _) _ _ => apply wlp_update
  | |- wlp (ret _ _) _ _ => apply wlp_ret
  | |- wlp (throw _ _) _ _ => apply wlp_throw
  | |- wlp (undef _) _ _ => exact I
  | |- wlp (out_of_fuel _) _ _ => exact I
  | |- wlp (field _ _ _) _ _ => apply wlp_field; intros ? ?
  | |- wlp (load _ _) _ _ => apply wlp_load; intros ? ?
  | |- wlp (assign _ _ _ _) _ _ => apply wlp_assign; intros ? ? ?
  | |- wlp (store _ _ _) _ _ => apply wlp_store; intros ?
  end; cbv beta; mnorm.

(** ** The arena operations *)

Section ArenaFacts.
Variable P : platform.

Lemma same_but_bytes_refl s : same_but_bytes s s.
Proof. unfold same_but_bytes. split_and!; eauto. Qed.

Lemma same_but_bytes_trans s1 s2 s3 :
  same_but_bytes s1 s2 → same_but_bytes s2 s3 → same_but_bytes s1 s3.
Proof.
  intros (?&?&?&?&?&Hq1) (?&?&?&?&?&Hq2). unfold same_but_bytes.
  split_and!; try congruence.
  intros q rq Hq. destruct (Hq1 _ _ Hq) as (r2 & Hr2 & E2).
  destruct (Hq2 _ _ Hr2) as (r3 & Hr3 & E3). exists r3. split; congruence.
Qed.

Lemma same_but_bytes_assign s p r v :
  heap s !! p = Some r →
  same_but_bytes s (set_heap (<[p := with_bytes v r]> (heap s)) s).
Proof.
  intros H. unfold same_but_bytes. simpl. split_and!; try done.
  intros q rq Hq. destruct (decide (p = q)) as [->|Hne].
  - rewrite lookup_insert_eq. eexists; split; [done|]. by simplify_eq.
  - rewrite lookup_insert_ne by done. eauto.
Qed.

Lemma same_but_bytes_live s s' p r :
  same_but_bytes s s' → live s p r →
  ∃ r', live s' p r' ∧ with_bytes 0 r' = with_bytes 0 r.
Proof.
  intros (?&Hb&?&?&?&H) [Hp Hl]. destruct (H _ _ Hp) as (r' & Hr' & E).
  exists r'. split; [|done]. split; [done|]. by rewrite Hb.
Qed.

Lemma with_bytes_fields r r' :
  with_bytes 0 r' = with_bytes 0 r →
  type r' = type r ∧ prev r' = prev r ∧ avail r' = avail r ∧
  limit r' = limit r ∧ base r' = base r ∧ total r' = total r.
Proof. destruct r, r'; unfold with_bytes; simpl. intros [=]. by subst. Qed.

Lemma round_request_zero :
  0 < sizeof_header P < 2 ^ 63 → round_request P 0 = 0.
Proof.
  intros H. unfold round_request, to_size_t, to_long.
  rewrite (Z.mod_small (0 + sizeof_header P - 1)) by lia.
  rewrite Z.div_small by lia. reflexivity.
Qed.

(** [arena_capacity] and [arena_total] only read. *)
Lemma arena_capacity_reads s arena r :
  arena ≠ 0 → heap s !! arena = Some r →
  ∃ c, arena_capacity P arena s = Ret c s.
Proof.
  intros Ha Hr. unfold arena_capacity, is_empty.
  destruct (Z.eqb_spec arena 0); [done|]. simpl.
  unfold is_type, is_empty. destruct (Z.eqb_spec arena 0); [done|].
  unfold bind, field, bind, load, ret. rewrite Hr.
  destruct (type r =? _); rewrite ?Hr; eauto.
Qed.

Lemma arena_total_reads s arena r :
  arena ≠ 0 → heap s !! arena = Some r →
  ∃ c, arena_total P arena s = Ret c s.
Proof.
  intros Ha Hr. unfold arena_total, is_empty.
  destruct (Z.eqb_spec arena 0); [done|]. simpl.
  unfold is_type, is_empty. destruct (Z.eqb_spec arena 0); [done|].
  unfold bind, field, bind, load, ret. rewrite Hr.
  destruct (type r =? _); rewrite ?Hr; eauto.
Qed.

(** When the rounded request fits in what is left of the current chunk,
    [malloc_arena] returns the old [avail] and bumps it; no chunk is
    acquired.  The checks pass when they are compiled out or when
    [nbytes > 0]. *)
Lemma malloc_arena_fits (fuel : nat) (arena nbytes : Z) (s : state) (r : arena_s) :
  arena ≠ 0 → live s arena r →
  (prev r = 0 ∨ ∃ c, live s (prev r) c) →
  (assertions P = false ∨ 0 < nbytes) →
  round_request P nbytes ≤ limit r - avail r →
  ∃ s', malloc_arena P fuel arena nbytes s = Ret (avail r) s' ∧
        mem s' = mem s ∧ blocks s' = blocks s ∧ brk s' = brk s ∧
        oracle s' = oracle s ∧ free_list s' = free_list s ∧
        heap s' !! arena =
          Some (with_avail (avail r + round_request P nbytes)
                  (with_bytes (to_size_t (round_request P nbytes)) r)) ∧
        ∀ q rq, q ≠ arena → heap s !! q = Some rq →
          ∃ rq', heap s' !! q = Some rq' ∧ with_bytes 0 rq' = with_bytes 0 rq.
Proof.
  intros Ha [Hr Hb] Hprev Hchk Hfit.
  unfold malloc_arena.
  assert (E0 : RAII_ASSERT P (negb (arena =? 0)) s = Ret tt s).
  { unfold RAII_ASSERT. destruct (Z.eqb_spec arena 0); [done|].
    by rewrite andb_false_r. }
  assert (E0' : RAII_ASSERT P (nbytes >? 0) s = Ret tt s).
  { unfold RAII_ASSERT. destruct Hchk as [->|Hn]; [done|].
    destruct (Z.gtb_spec nbytes 0); [|lia]. by rewrite andb_false_r. }
  rewrite (bind_eq _ _ _ _ _ E0), (bind_eq _ _ _ _ _ E0').
  set (n := round_request P nbytes) in *. clearbody n.
  destruct (arena_capacity_reads s arena r Ha Hr) as [c Hc].
  destruct (arena_total_reads s arena r Ha Hr) as [t Ht].
  rewrite (bind_eq _ _ _ _ _ Hc), (bind_eq _ _ _ _ _ Ht).
  set (s1 := if c =? t then set_num_free 0 s else s).
  assert (Hs1 : same_but_bytes s s1 ∧ heap s1 = heap s).
  { subst s1. destruct (c =? t); split; try done; try apply same_but_bytes_refl.
    unfold same_but_bytes; simpl; split_and!; eauto. }
  destruct Hs1 as [Hs1 Hh1].
  assert (E1 : (if c =? t then update (set_num_free 0) else ret tt) s = Ret tt s1).
  { subst s1. by destruct (c =? t). }
  rewrite (bind_eq _ _ _ _ _ E1).
  assert (Hl1 : live s1 arena r).
  { split; [by rewrite Hh1|]. destruct Hs1 as (_&->&_). done. }
  clearbody s1.
  (* the loop does not run *)
  assert (E2 : malloc_arena_loop P fuel arena n s1 = Ret tt s1).
  { destruct Hl1 as [Hr1 _].
    destruct fuel; simpl;
      rewrite (bind_eq _ _ _ _ _ (field_live _ _ _ _ Hr1)),
              (bind_eq _ _ _ _ _ (field_live _ _ _ _ Hr1));
      destruct (Z.gtb_spec n (limit r - avail r)); try lia; reflexivity. }
  rewrite (bind_eq _ _ _ _ _ E2).
  destruct Hl1 as [Hr1 [sz Hb1]].
  rewrite (bind_eq _ _ _ _ _ (field_live _ _ _ _ Hr1)).
  (* arena->prev->bytes = arena->bytes *)
  assert (∃ s2, (if negb (prev r =? 0)
                 then do b <- field arena bytes; assign (prev r) with_bytes b
                 else ret tt) s1 = Ret tt s2 ∧ same_but_bytes s1 s2 ∧
                heap s2 !! arena = Some r)
    as (s2 & E3 & Hs2 & Hr2).
  { destruct (Z.eqb_spec (prev r) 0) as [E|E]; simpl.
    - eexists; split; [reflexivity|]. split; [apply same_but_bytes_refl|done].
    - destruct Hprev as [?|[c0 Hc0]]; [done|].
      destruct (same_but_bytes_live _ _ _ _ Hs1 Hc0) as (c1 & [Hc1 [sz1 Hbc1]] & _).
      rewrite (bind_eq _ _ _ _ _ (field_live _ _ _ _ Hr1)).
      rewrite (assign_live _ _ _ _ _ _ Hc1 Hbc1).
      eexists; split; [reflexivity|]. split; [by apply same_but_bytes_assign|].
      simpl. destruct (decide (prev r = arena)) as [Heq|Hne].
      + rewrite Heq in *. rewrite lookup_insert_eq. f_equal.
        assert (c1 = r) by congruence. subst c1. by destruct r.
      + by rewrite lookup_insert_ne. }
  rewrite (bind_eq _ _ _ _ _ E3).
  assert (Hb2 : blocks s2 !! arena = Some sz).
  { destruct Hs2 as (_&->&_). done. }
  rewrite (bind_eq _ _ _ _ _ (assign_live _ _ _ _ _ _ Hr2 Hb2)).
  set (s3 := set_heap _ s2).
  assert (Hs3 : same_but_bytes s2 s3) by by apply same_but_bytes_assign.
  assert (Hr3 : heap s3 !! arena = Some (with_bytes (to_size_t n) r)).
  { subst s3. simpl. by rewrite lookup_insert_eq. }
  assert (Hb3 : blocks s3 !! arena = Some sz) by done.
  clearbody s3.
  rewrite (bind_eq _ _ _ _ _ (field_live _ _ _ _ Hr3)).
  rewrite (bind_eq _ _ _ _ _ (assign_live _ _ _ _ _ _ Hr3 Hb3)).
  set (s4 := set_heap _ s3).
  assert (Hr4 : heap s4 !! arena =
                Some (with_avail (avail r + n) (with_bytes (to_size_t n) r))).
  { subst s4. simpl. by rewrite lookup_insert_eq. }
  rewrite (bind_eq _ _ _ _ _ (field_live _ _ _ _ Hr4)).
  pose proof (same_but_bytes_trans _ _ _ Hs1
                (same_but_bytes_trans _ _ _ Hs2 Hs3)) as (Hm & Hbl & Hbr & Ho & Hf & Hq).
  exists s4. split.
  { unfold ret. f_equal. simpl. lia. }
  subst s4. simpl. split_and!; try done.
  intros q rq Hne Hrq. rewrite lookup_insert_ne by done. eauto.
Qed.

(** C10. Queries on an empty handle, or on an object whose tag is not
    RAII_ARENA + RAII_STRUCT, return 0 whatever the other fields hold;
    [arena_free] and [arena_clear] on an empty handle return at once and
    leave the whole state as it was. *)
Theorem empty_handle_is_inert (arena : Z) (s : state) :
  arena = 0 ∨ (∃ r, heap s !! arena = Some r ∧ type r ≠ RAII_ARENA P + RAII_STRUCT P) →
  arena_capacity P arena s = Ret 0 s ∧
  arena_total P arena s = Ret 0 s ∧
  arena_free P 0 s = Ret tt s ∧
  ∀ fuel, arena_clear P fuel 0 s = Ret tt s.
Proof.
  intros H. split_and!; try reflexivity.
  - destruct H as [->|(r & Hr & Ht)]; [reflexivity|].
    unfold arena_capacity. destruct (is_empty arena) eqn:He; [reflexivity|]. simpl.
    apply Z.eqb_neq in He.
    rewrite (bind_eq _ _ _ _ _ (is_type_live _ _ _ _ He Hr)).
    destruct (Z.eqb_spec (type r) (RAII_ARENA P + RAII_STRUCT P)); done.
  - destruct H as [->|(r & Hr & Ht)]; [reflexivity|].
    unfold arena_total. destruct (is_empty arena) eqn:He; [reflexivity|]. simpl.
    apply Z.eqb_neq in He.
    rewrite (bind_eq _ _ _ _ _ (is_type_live _ _ _ _ He Hr)).
    destruct (Z.eqb_spec (type r) (RAII_ARENA P + RAII_STRUCT P)); done.
Qed.

Lemma fill_lookup p n c m i :
  0 ≤ i < n → fill p n c m !! (p + i) = Some c.
Proof.
  intros Hi. unfold fill.
  assert (Hin : i ∈ seqZ 0 n) by (apply elem_of_seqZ; lia).
  induction (seqZ 0 n) as [|j l IH]; [by apply elem_of_nil in Hin|].
  simpl. apply elem_of_cons in Hin as [->|Hin].
  - by rewrite lookup_insert_eq.
  - destruct (decide (p + j = p + i)) as [->|Hne].
    + by rewrite lookup_insert_eq.
    + rewrite lookup_insert_ne by done. auto.
Qed.



Lemma round_request_spec (nbytes : Z) :
  0 < sizeof_header P → 0 ≤ nbytes → nbytes + sizeof_header P - 1 ≤ LONG_MAX →
  round_request P nbytes = (nbytes + sizeof_header P - 1) / sizeof_header P * sizeof_header P ∧
  nbytes ≤ round_request P nbytes < nbytes + sizeof_header P ∧
  round_request P nbytes mod sizeof_header P = 0.
Proof.
  intros HH Hn Hmax. unfold LONG_MAX in Hmax.
  set (H := sizeof_header P) in *.
  assert (Hq1 : H * ((nbytes + H - 1) / H) ≤ nbytes + H - 1)
    by (apply Z.mul_div_le; lia).
  assert (Hq2 : nbytes + H - 1 < H * Z.succ ((nbytes + H - 1) / H))
    by (apply Z.mul_succ_div_gt; lia).
  assert (Hq0 : 0 ≤ (nbytes + H - 1) / H) by (apply Z.div_pos; lia).
  assert (E : round_request P nbytes = (nbytes + H - 1) / H * H).
  { unfold round_request, to_size_t, to_long. fold H.
    rewrite (Z.mod_small (nbytes + H - 1)) by lia.
    rewrite (Z.mod_small ((nbytes + H - 1) / H * H)) by nia.
    destruct (Z.ltb_spec ((nbytes + H - 1) / H * H) (2 ^ 63)); [done|nia]. }
  rewrite E. split; [done|]. split; [nia|]. apply Z.mod_mul. lia.
Qed.

(** One turn of the loop when the free list is not empty: its head becomes
    the current chunk of the arena and the system allocator is not called. *)
Lemma acquire_chunk_pops (arena n : Z) (s : state) (r c : arena_s) :
  live s arena r → free_list s ≠ 0 → live s (free_list s) c →
  num_free s ≠ INT_MIN →
  returns (acquire_chunk P arena n s) (λ _ s',
    free_list s' = prev c ∧ num_free s' = num_free s - 1 ∧
    mem s' = mem s ∧ blocks s' = blocks s ∧ brk s' = brk s ∧ oracle s' = oracle s ∧
    ∃ r', heap s' !! arena = Some r' ∧
          avail r' = free_list s + sizeof_header P ∧ limit r' = limit c ∧
          prev r' = free_list s ∧ base r' = base r ∧ total r' = total r).
Proof.
  intros [Hr Hb] Hfl [Hc Hbc] Hnf.
  unfold acquire_chunk. mstep. mstep.
  destruct (decide (free_list s ≠ 0)); [|done].
  unfold pop_free_list. do 7 mstep.
  unfold decr_num_free. mstep. mstep. simpl.
  destruct (decide (num_free s = INT_MIN)); [done|].
  mstep. mstep. mstep. mstep. simpl.
  destruct (decide (free_list s = arena)) as [Heq|Hne].
  - rewrite Heq in *. assert (c = r) by congruence. subst c.
    repeat mstep. simpl. split_and!; try done.
    eexists. split; [by simplify_map_eq|]. simpl. by rewrite ?Heq.
  - repeat mstep. simpl. split_and!; try done.
    eexists. split; [by simplify_map_eq|]. done.
Qed.

Lemma relocate_lookup_ne p q a (h : gmap Z arena_s) :
  a ≠ p → a ≠ q → relocate p q h !! a = h !! a.
Proof.
  intros Hp Hq. unfold relocate. destruct (h !! p).
  - rewrite lookup_insert_ne by done. by rewrite lookup_delete_ne.
  - by rewrite lookup_delete_ne.
Qed.

Lemma acquire_chunk_grows (arena n : Z) (s : state) (r : arena_s) :
  live s arena r → free_list s = 0 →
  base r ≠ arena → (base r = 0 ∨ is_Some (blocks s !! base r)) →
  allocator_ok s → (next_choice s).1 ≠ alloc_fail →
  returns (acquire_chunk P arena n s) (λ _ s',
    free_list s' = 0 ∧ num_free s' = num_free s ∧
    oracle s' = (next_choice s).2 ∧
    ∃ r', heap s' !! arena = Some r' ∧
          total r' = grown_total P r n ∧
          blocks s' !! base r' = Some (grown_total P r n) ∧
          avail r' = base r' + sizeof_header P ∧
          limit r' = base r' + grown_total P r n ∧
          prev r' = base r' ∧
          heap s' !! base r' =
            Some (with_type (RAII_ARENA P)
                    (with_base (base r') (with_total (grown_total P r n) r))) ∧

          (base r' = brk s ∨ (base r ≠ 0 ∧ base r' = base r ∧ (next_choice s).1 = alloc_same)) ∧
          base r' ≠ 0 ∧ base r' ≠ arena ∧ is_Some (blocks s' !! arena) ∧
          bytes r' = bytes r ∧ type r' = type r).
Proof.
  intros [Hr Hb] Hfl Hba Hbase [Hbrk Hok] Hch.
  unfold acquire_chunk. mstep. mstep.
  destruct (decide (free_list s ≠ 0)); [done|].
  unfold grow. do 8 mstep'.
  change (to_size_t (total r + to_long (sizeof_header P + n + THRESHOLD * 1024)))
    with (grown_total P r n).
  set (T := grown_total P r n). clearbody T.
  mstep'. mstep'.
  unfold try_realloc. mstep'. unfold sys_realloc, sys_malloc.
  unfold next_choice in *. mnorm.
  assert (Hane : arena ≠ brk s) by (specialize (Hok _ Hb); lia).
  destruct (decide (base r = 0)) as [Hb0|Hb0].
  - (* first chunk of the arena: malloc *)
    cbn [base with_total].
    destruct (decide (base r = 0)); [|done].
    destruct (oracle s) as [|[] o]; simpl in Hch; try done.
    all: mnorm; unfold returns at 1; cbv beta iota.
    all: destruct (decide (brk s = 0)); [lia|].
    all: repeat mstep'; split_and!; try done.
    all: eexists; (split; [by simplify_map_eq|]); cbn.
    all: unfold live; cbn; split_and!; try done; try (by simplify_map_eq); auto.
  - destruct Hbase as [|[old Hold]]; [done|].
    cbn [base with_total]. destruct (decide (base r = 0)); [done|].
    rewrite Hold.
    assert (Hbb : base r ≠ brk s) by (specialize (Hok (base r) (mk_is_Some _ _ Hold)); lia).
    destruct (oracle s) as [|[] o]; simpl in Hch; try done.
    all: mnorm; unfold returns at 1; cbv beta iota.
    all: try (destruct (decide (brk s = 0)); [lia|]).
    all: try (destruct (decide (base r = 0)); [lia|]).
    all: mstep'.
    2: { repeat mstep'. split_and!; try done.
         eexists; (split; [by simplify_map_eq|]); cbn.
         split_and!; try done; try (by simplify_map_eq); auto. }
    all: apply returns_bind; eapply returns_assign;
           [ cbn; rewrite relocate_lookup_ne by done; apply lookup_insert_eq
           | cbn; rewrite lookup_insert_ne, lookup_delete_ne by done; exact Hb
           | ]; mnorm.
    all: repeat mstep'; split_and!; try done.
    all: eexists; (split; [by simplify_map_eq|]); cbn.
    all: split_and!; try done; try (by simplify_map_eq); auto.
Qed.

Lemma returns_assert (c : bool) s (Q : unit → state → Prop) :
  assertions P = false ∨ c = true → Q tt s → returns (RAII_ASSERT P c s) Q.
Proof.
  intros H HQ. unfold RAII_ASSERT.
  destruct H as [->| ->]; [done|]. by rewrite andb_false_r.
Qed.

Lemma returns_capacity arena s r (Q : Z → state → Prop) :
  arena ≠ 0 → heap s !! arena = Some r → (∀ c, Q c s) →
  returns (arena_capacity P arena s) Q.
Proof.
  intros Ha Hr HQ. destruct (arena_capacity_reads s arena r Ha Hr) as [c ->].
  apply HQ.
Qed.

Lemma returns_total arena s r (Q : Z → state → Prop) :
  arena ≠ 0 → heap s !! arena = Some r → (∀ c, Q c s) →
  returns (arena_total P arena s) Q.
Proof.
  intros Ha Hr HQ. destruct (arena_total_reads s arena r Ha Hr) as [c ->].
  apply HQ.
Qed.

Lemma grown_total_exact r n :
  0 < sizeof_header P → growth_fits P r n →
  grown_total P r n = total r + (n + (sizeof_header P + THRESHOLD * 1024)).
Proof.
  intros HH (Ht & Hn & Hlt). unfold grown_total, to_size_t, to_long.
  unfold THRESHOLD in *.
  rewrite (Z.mod_small (sizeof_header P + n + 10 * 1024)) by lia.
  destruct (Z.ltb_spec (sizeof_header P + n + 10 * 1024) (2 ^ 63)); [|lia].
  rewrite Z.mod_small by lia. lia.
Qed.

Lemma malloc_arena_grows (fuel : nat) (arena nbytes : Z) (s : state) (r : arena_s) :
  0 < sizeof_header P →
  arena ≠ 0 → live s arena r →
  (assertions P = false ∨ 0 < nbytes) →
  free_list s = 0 →
  limit r - avail r < round_request P nbytes →
  growth_fits P r (round_request P nbytes) →
  base r ≠ arena → (base r = 0 ∨ is_Some (blocks s !! base r)) →
  allocator_ok s → (next_choice s).1 ≠ alloc_fail →
  returns (malloc_arena P (S fuel) arena nbytes s) (λ p s',
    free_list s' = 0 ∧ oracle s' = (next_choice s).2 ∧
    ∃ r', heap s' !! arena = Some r' ∧
          p = base r' + sizeof_header P ∧
          total r' = total r + (round_request P nbytes
                                + (sizeof_header P + THRESHOLD * 1024)) ∧
          blocks s' !! base r' = Some (total r') ∧
          avail r' = p + round_request P nbytes ∧
          limit r' = base r' + total r' ∧
          prev r' = base r' ∧
          (base r' = brk s ∨ (base r ≠ 0 ∧ base r' = base r))).
Proof.
  intros HH Ha [Hr Hb] Hchk Hfl Hnofit Hgf Hba Hbase Hok Hch.
  unfold malloc_arena.
  apply returns_bind, returns_assert; [right; by destruct (Z.eqb_spec arena 0)|].
  apply returns_bind, returns_assert.
  { destruct Hchk; [by left|right]. by apply Z.gtb_lt. }
  apply returns_bind. eapply returns_capacity; [done..|]. intros c.
  apply returns_bind. eapply returns_total; [done..|]. intros t.
  set (n := round_request P nbytes) in *.
  pose proof (grown_total_exact r n HH Hgf) as HT.
  apply returns_bind.
  set (s1 := if c =? t then set_num_free 0 s else s).
  assert (E1 : (if c =? t then update (set_num_free 0) else ret tt) s = Ret tt s1)
    by (subst s1; by destruct (c =? t)).
  rewrite E1. unfold returns at 1.
  assert (Hs1 : heap s1 = heap s ∧ blocks s1 = blocks s ∧ brk s1 = brk s ∧
                oracle s1 = oracle s ∧ free_list s1 = free_list s)
    by (subst s1; by destruct (c =? t)).
  destruct Hs1 as (Hh1 & Hb1 & Hk1 & Ho1 & Hf1). clearbody s1.
  apply returns_bind. cbn [malloc_arena_loop].
  apply returns_bind. eapply returns_field; [by rewrite Hh1|].
  apply returns_bind. eapply returns_field; [by rewrite Hh1|].
  destruct (Z.gtb_spec n (limit r - avail r)); [|lia].
  apply returns_bind.
  eapply returns_mono.
  { apply (acquire_chunk_grows arena n s1 r).
    - split; [by rewrite Hh1|by rewrite Hb1].
    - by rewrite Hf1.
    - done.
    - by rewrite Hb1.
    - destruct Hok as [? Hok]. split; [by rewrite Hk1|].
      intros p. rewrite Hb1, Hk1. apply Hok.
    - unfold next_choice in *. by rewrite Ho1. }
  cbv beta. intros [] s2 (Hf2 & _ & Ho2 & r2 & Hr2 & Ht2 & Hbl2 & Hav2 & Hl2 & Hp2 &
                          Hc2 & Hbase2 & Hbn0 & Hbna & Hba2 & Hby2 & Hty2).
  rewrite HT in *.
  assert (E2 : malloc_arena_loop P fuel arena n s2 = Ret tt s2).
  { destruct fuel; simpl;
      rewrite (bind_eq _ _ _ _ _ (field_live _ _ _ _ Hr2)),
              (bind_eq _ _ _ _ _ (field_live _ _ _ _ Hr2));
      destruct (Z.gtb_spec n (limit r2 - avail r2)); try reflexivity;
      destruct Hgf as (?&?&?); unfold THRESHOLD in *; lia. }
  rewrite E2. unfold returns at 1.
  mstep. mstep. rewrite Hp2.
  destruct (Z.eqb_spec (base r2) 0); [done|]. cbn [negb].
  mstep. mstep. mstep.
  eapply returns_assign; [exact Hc2|by rewrite Hbl2|]. mnorm.
  repeat mstep'. split_and!; try done.
  { unfold next_choice in *. by rewrite Ho2, Ho1. }
  eexists. split; [by simplify_map_eq|]. cbn.
  split_and!; try done; try lia.
  by rewrite Ht2.
Qed.
Lemma returns_intro' {A} (o : outcome A) (a : A) (Q : state → Prop) :
  returns o (λ v s', v = a ∧ Q s') → ∃ s', o = Ret a s' ∧ Q s'.
Proof. destruct o; simpl; try done. intros [-> HQ]. eauto. Qed.


Lemma malloc_arena_out_of_memory (fuel : nat) (arena nbytes : Z) (s : state)
    (r : arena_s) (o : list alloc_choice) :
  arena ≠ 0 → live s arena r →
  (assertions P = false ∨ 0 < nbytes) →
  free_list s = 0 →
  limit r - avail r < round_request P nbytes →
  (base r = 0 ∨ is_Some (blocks s !! base r)) →
  oracle s = alloc_fail :: o →
  raises (malloc_arena P (S fuel) arena nbytes s) out_of_memory
    (λ s', oracle s' = o ∧ blocks s' = blocks s ∧ free_list s' = 0).
Proof.
  intros Ha [Hr Hb] Hchk Hfl Hnofit Hbase Ho.
  unfold malloc_arena.
  apply raises_bind_r, returns_assert; [right; by destruct (Z.eqb_spec arena 0)|].
  apply raises_bind_r, returns_assert.
  { destruct Hchk; [by left|right]. by apply Z.gtb_lt. }
  apply raises_bind_r. eapply returns_capacity; [done..|]. intros c.
  apply raises_bind_r. eapply returns_total; [done..|]. intros t.
  set (n := round_request P nbytes) in *.
  apply raises_bind_r.
  set (s1 := if c =? t then set_num_free 0 s else s).
  assert (E1 : (if c =? t then update (set_num_free 0) else ret tt) s = Ret tt s1)
    by (subst s1; by destruct (c =? t)).
  rewrite E1. unfold returns at 1.
  assert (Hs1 : heap s1 = heap s ∧ blocks s1 = blocks s ∧ brk s1 = brk s ∧
                oracle s1 = oracle s ∧ free_list s1 = free_list s)
    by (subst s1; by destruct (c =? t)).
  destruct Hs1 as (Hh1 & Hb1 & Hk1 & Ho1 & Hf1). clearbody s1.
  apply raises_bind_l. cbn [malloc_arena_loop].
  apply raises_bind_r. eapply returns_field; [by rewrite Hh1|].
  apply raises_bind_r. eapply returns_field; [by rewrite Hh1|].
  destruct (Z.gtb_spec n (limit r - avail r)); [|lia].
  apply raises_bind_l. unfold acquire_chunk.
  apply raises_bind_r, returns_get.
  destruct (decide (free_list s1 ≠ 0)); [congruence|].
  apply raises_bind_l. unfold grow.
  apply raises_bind_r. eapply returns_field; [by rewrite Hh1|].
  apply raises_bind_r. eapply returns_assign; [by rewrite Hh1|by rewrite Hb1|].
  apply raises_bind_r. eapply returns_field; [cbn; by rewrite lookup_insert_eq|].
  apply raises_bind_r. eapply returns_field; [cbn; by rewrite lookup_insert_eq|].
  apply raises_bind_l. unfold try_realloc. apply raises_bind_r.
  unfold sys_realloc, sys_malloc, next_choice. cbn.
  rewrite Ho1, Ho, Hb1.
  destruct (decide (base r = 0)).
  - cbn. split_and!; simpl; congruence.
  - destruct Hbase as [|[old ->]]; [done|]. cbn. split_and!; simpl; congruence.
Qed.


(** ** The free list between calls *)

Lemma inv_store s p r' :
  free_list_ok P s → is_Some (blocks s !! p) →
  (free_list s = p → prev r' = 0 ∧ type r' = RAII_ARENA P) →
  free_list_ok P (set_heap (<[p := r']> (heap s)) s).
Proof.
  intros (Hnf & Hbrk & Hbl & Hhp & Hfl & Hhead) Hp Hcond.
  unfold free_list_ok. simpl. split_and!; try done.
  - intros q Hq. destruct (decide (p = q)) as [<-|Hne]; [by apply Hbl|].
    rewrite lookup_insert_ne in Hq by done. by apply Hhp.
  - destruct Hhead as [H0|[[Hn Hbn]|(r & Hr & Hpr & Hty)]].
    + by left.
    + right; left. destruct (decide (free_list s = p)) as [E|NE].
      * rewrite E in Hbn. rewrite Hbn in Hp. by destruct Hp.
      * by rewrite lookup_insert_ne.
    + right; right. destruct (decide (free_list s = p)) as [E|NE].
      * exists r'. rewrite E, lookup_insert_eq. split; [done|]. by apply Hcond.
      * exists r. by rewrite lookup_insert_ne.
Qed.

Lemma inv_head s r :
  free_list_ok P s → heap s !! free_list s = Some r →
  prev r = 0 ∧ type r = RAII_ARENA P.
Proof.
  intros (Hnf & Hbrk & Hbl & Hhp & Hfl & Hhead) Hr.
  destruct Hhead as [H0|[[Hn Hbn]|(r0 & Hr0 & Hpr & Hty)]].
  - rewrite H0 in Hr. specialize (Hhp 0 (mk_is_Some _ _ Hr)). lia.
  - congruence.
  - by simplify_eq.
Qed.

Lemma inv_assign_keep s p r r' :
  free_list_ok P s → heap s !! p = Some r → is_Some (blocks s !! p) →
  prev r' = prev r → type r' = type r →
  free_list_ok P (set_heap (<[p := r']> (heap s)) s).
Proof.
  intros Hinv Hr Hb Hp Ht. apply inv_store; [done..|].
  intros E. rewrite <- E in Hr. destruct (inv_head _ _ Hinv Hr). split; congruence.
Qed.

Lemma inv_num_free s n :
  free_list_ok P s → n ≤ THRESHOLD → free_list_ok P (set_num_free n s).
Proof. intros (Hnf & H) Hn. unfold free_list_ok. simpl. by split. Qed.

Lemma inv_empty_store s p r' :
  free_list_ok P s → free_list s = 0 → is_Some (blocks s !! p) →
  free_list_ok P (set_heap (<[p := r']> (heap s)) s).
Proof.
  intros Hinv H0 Hp. apply inv_store; [done..|].
  intros E. destruct Hinv as (_ & _ & Hbl & _). specialize (Hbl _ Hp). lia.
Qed.

(** The system allocator, called while the free list is empty. *)
Lemma try_realloc_inv p size s :
  free_list_ok P s → free_list s = 0 →
  wlp (try_realloc p size s)
      (λ _ s', free_list_ok P s' ∧ free_list s' = 0) (free_list_ok P).
Proof.
  intros Hinv H0. pose proof Hinv as (Hnf & Hbrk & Hbl & Hhp & Hfl & Hhead).
  assert (Hfail : ∀ o, free_list_ok P (set_oracle o s)) by (intros o; exact Hinv).
  assert (Hnew : ∀ o, free_list_ok P (new_block size (set_oracle o s))).
  { intros o. unfold free_list_ok. simpl. split_and!; try done; try lia.
    - intros q Hq. destruct (decide (brk s = q)) as [<-|Hne]; [lia|].
      rewrite lookup_insert_ne in Hq by done. specialize (Hbl _ Hq). lia.
    - intros q Hq. specialize (Hhp _ Hq). lia. }
  unfold try_realloc. apply wlp_bind. unfold sys_realloc, sys_malloc.
  destruct (decide (p = 0)).
  - destruct (next_choice s) as [[] o]; simpl.
    + by apply Hfail.
    + destruct (decide (brk s = 0)); [lia|]. simpl. split; [apply Hnew|done].
    + destruct (decide (brk s = 0)); [lia|]. simpl. split; [apply Hnew|done].
  - destruct (blocks s !! p) as [old|] eqn:Hp; [|done].
    destruct (next_choice s) as [[] o]; simpl.
    + by apply Hfail.
    + destruct (decide (p = 0)); [done|]. simpl. split; [|done].
      unfold free_list_ok. simpl. split_and!; try done; try (by left).
      intros q Hq. destruct (decide (p = q)) as [<-|Hne]; [apply Hbl; by rewrite Hp|].
      rewrite lookup_insert_ne in Hq by done. by apply Hbl.
    + destruct (decide (brk s = 0)); [lia|]. simpl. split; [|done].
      unfold free_list_ok. simpl. split_and!; try done; try lia; try (by left).
      * intros q Hq. destruct (decide (brk s = q)) as [<-|Hne]; [lia|].
        rewrite lookup_insert_ne in Hq by done.
        destruct (decide (p = q)) as [<-|Hne'].
        { rewrite lookup_delete_eq in Hq. by destruct Hq. }
        rewrite lookup_delete_ne in Hq by done. specialize (Hbl _ Hq). lia.
      * intros q Hq. destruct (decide (brk s = q)) as [<-|Hne]; [lia|].
        unfold relocate in Hq. destruct (heap s !! p).
        { rewrite lookup_insert_ne in Hq by done.
          destruct (decide (p = q)) as [<-|Hne'].
          - rewrite lookup_delete_eq in Hq. by destruct Hq.
          - rewrite lookup_delete_ne in Hq by done. specialize (Hhp _ Hq). lia. }
        destruct (decide (p = q)) as [<-|Hne'].
        { rewrite lookup_delete_eq in Hq. by destruct Hq. }
        rewrite lookup_delete_ne in Hq by done. specialize (Hhp _ Hq). lia.
Qed.

Lemma wlp_field_any p f s (Q : Z → state → Prop) E :
  (∀ x, Q x s) → wlp (field p f s) Q E.
Proof. intros H. apply wlp_field. auto. Qed.

Lemma wlp_load_any p s (Q : arena_s → state → Prop) E :
  (∀ x, Q x s) → wlp (load p s) Q E.
Proof. intros H. apply wlp_load. auto. Qed.

Lemma wlp_store_empty p r s (Q : unit → state → Prop) E :
  free_list_ok P s → free_list s = 0 →
  (∀ s', free_list_ok P s' → free_list s' = 0 → Q tt s') →
  wlp (store p r s) Q E.
Proof.
  intros Hinv H0 HQ. apply wlp_store. intros Hb. apply HQ; [|done].
  by apply inv_empty_store.
Qed.

Lemma wlp_assign_empty p f v s (Q : unit → state → Prop) E :
  free_list_ok P s → free_list s = 0 →
  (∀ s', free_list_ok P s' → free_list s' = 0 → Q tt s') →
  wlp (assign p f v s) Q E.
Proof.
  intros Hinv H0 HQ. apply wlp_assign. intros r Hr Hb. apply HQ; [|done].
  by apply inv_empty_store.
Qed.

Lemma wlp_assign_keep p f v s (Q : unit → state → Prop) E :
  free_list_ok P s →
  (∀ r, prev (f v r) = prev r ∧ type (f v r) = type r) →
  (∀ s', free_list_ok P s' → Q tt s') →
  wlp (assign p f v s) Q E.
Proof.
  intros Hinv Hf HQ. apply wlp_assign. intros r Hr Hb. apply HQ.
  destruct (Hf r). by eapply inv_assign_keep.
Qed.

Lemma install_chunk_inv arena ptr lim s :
  free_list_ok P s → free_list s = 0 →
  wlp ((do r <- load arena;
        store ptr r;;
        assign arena with_avail (ptr + sizeof_header P);;
        assign arena with_limit lim;;
        assign arena with_prev ptr;;
        assign ptr with_type (RAII_ARENA P)) s)
      (λ _ s', free_list_ok P s') (free_list_ok P).
Proof.
  intros Hinv H0.
  apply wlp_bind, wlp_load_any. intros r.
  apply wlp_bind, wlp_store_empty; [done..|]. intros s1 Hs1 H1.
  apply wlp_bind, wlp_assign_empty; [done..|]. intros s2 Hs2 H2.
  apply wlp_bind, wlp_assign_empty; [done..|]. intros s3 Hs3 H3.
  apply wlp_bind, wlp_assign_empty; [done..|]. intros s4 Hs4 H4.
  apply wlp_assign_empty; [done..|]. intros s5 Hs5 H5. done.
Qed.

Lemma acquire_chunk_inv arena n s :
  free_list_ok P s →
  wlp (acquire_chunk P arena n s) (λ _ s', free_list_ok P s') (free_list_ok P).
Proof.
  intros Hinv. unfold acquire_chunk.
  apply wlp_bind, wlp_get. apply wlp_bind.
  destruct (decide (free_list s ≠ 0)) as [Hne|He].
  - (* the head of the free list *)
    unfold pop_free_list.
    apply wlp_bind, wlp_get. apply wlp_bind, wlp_field. intros c Hc.
    destruct (inv_head _ _ Hinv Hc) as [Hpc Htc].
    apply wlp_bind, wlp_update. apply wlp_bind.
    unfold decr_num_free. apply wlp_bind, wlp_get. simpl.
    destruct (decide (num_free s = INT_MIN)); [done|]. apply wlp_update.
    apply wlp_bind, wlp_field_any. intros l. apply wlp_ret.
    apply install_chunk_inv; [|by simpl].
    destruct Hinv as (Hnf & Hbrk & Hbl & Hhp & Hfl & Hhead).
    unfold free_list_ok. simpl. split_and!; try done; try lia; by left.
  - (* the system allocator *)
    assert (H0 : free_list s = 0) by (destruct (decide (free_list s = 0)); done).
    unfold grow.
    apply wlp_bind, wlp_field_any. intros t.
    apply wlp_bind, wlp_assign_empty; [done..|]. intros s1 Hs1 H1.
    apply wlp_bind, wlp_field_any. intros b.
    apply wlp_bind, wlp_field_any. intros t1.
    apply wlp_bind. eapply wlp_mono; [by apply try_realloc_inv| |done].
    cbv beta. intros ptr s2 [Hs2 H2].
    apply wlp_bind, wlp_assign_empty; [done..|]. intros s3 Hs3 H3.
    apply wlp_bind, wlp_field_any. intros b3.
    apply wlp_bind, wlp_field_any. intros t3. apply wlp_ret.
    by apply install_chunk_inv.
Qed.

Lemma malloc_arena_loop_inv fuel arena n s :
  free_list_ok P s →
  wlp (malloc_arena_loop P fuel arena n s) (λ _ s', free_list_ok P s') (free_list_ok P).
Proof.
  revert s. induction fuel as [|fuel IH]; intros s Hinv; simpl.
  - apply wlp_bind, wlp_field_any. intros l.
    apply wlp_bind, wlp_field_any. intros a.
    by destruct (n >? l - a).
  - apply wlp_bind, wlp_field_any. intros l.
    apply wlp_bind, wlp_field_any. intros a.
    destruct (n >? l - a); [|done].
    apply wlp_bind. eapply wlp_mono; [by apply acquire_chunk_inv| |done].
    cbv beta. intros _ s1 Hs1. by apply IH.
Qed.

Lemma wlp_assert c s (Q : unit → state → Prop) (E : state → Prop) :
  E s → Q tt s → wlp (RAII_ASSERT P c s) Q E.
Proof. intros HE HQ. unfold RAII_ASSERT. by destruct (assertions P && negb c). Qed.

(** [arena_capacity] and [arena_total] do not write. *)
Lemma wlp_capacity arena s (Q : Z → state → Prop) E :
  (∀ c, Q c s) → wlp (arena_capacity P arena s) Q E.
Proof.
  intros HQ. unfold arena_capacity.
  destruct (negb (is_empty arena)); [|by apply wlp_ret].
  apply wlp_bind, wlp_is_type; [intros _|intros r _ _].
  - by apply wlp_ret.
  - destruct (type r =? _); [|by apply wlp_ret].
    apply wlp_bind, wlp_field_any. intros l.
    apply wlp_bind, wlp_field_any. intros a. by apply wlp_ret.
Qed.

Lemma wlp_total arena s (Q : Z → state → Prop) E :
  (∀ c, Q c s) → wlp (arena_total P arena s) Q E.
Proof.
  intros HQ. unfold arena_total.
  destruct (negb (is_empty arena)); [|by apply wlp_ret].
  apply wlp_bind, wlp_is_type; [intros _|intros r _ _].
  - by apply wlp_ret.
  - destruct (type r =? _); [|by apply wlp_ret].
    apply wlp_bind, wlp_field_any. intros l. by apply wlp_ret.
Qed.

Lemma malloc_arena_inv fuel arena nbytes s :
  free_list_ok P s →
  wlp (malloc_arena P fuel arena nbytes s) (λ _ s', free_list_ok P s') (free_list_ok P).
Proof.
  intros Hinv. unfold malloc_arena.
  apply wlp_bind, wlp_assert; [done|].
  apply wlp_bind, wlp_assert; [done|].
  apply wlp_bind, wlp_capacity. intros c.
  apply wlp_bind, wlp_total. intros t.
  apply wlp_bind.
  assert (Hreset : wlp ((if c =? t then update (set_num_free 0) else ret tt) s)
                     (λ _ s', free_list_ok P s') (free_list_ok P)).
  { destruct (c =? t); simpl; [|done]. apply inv_num_free; [done|]. unfold THRESHOLD. lia. }
  eapply wlp_mono; [exact Hreset| |done]. cbv beta. intros _ s1 Hs1.
  apply wlp_bind. eapply wlp_mono; [by apply malloc_arena_loop_inv| |done].
  cbv beta. intros _ s2 Hs2.
  apply wlp_bind, wlp_field_any. intros p.
  apply wlp_bind.
  assert (Hprev : wlp ((if negb (p =? 0)
                        then do b <- field arena bytes; assign p with_bytes b
                        else ret tt) s2)
                    (λ _ s', free_list_ok P s') (free_list_ok P)).
  { destruct (negb (p =? 0)); [|done].
    apply wlp_bind, wlp_field_any. intros b.
    apply wlp_assign_keep; [done|by intros []|done]. }
  eapply wlp_mono; [exact Hprev| |done]. cbv beta. intros _ s3 Hs3.
  apply wlp_bind, wlp_assign_keep; [done|by intros []|]. intros s4 Hs4.
  apply wlp_bind, wlp_field_any. intros a.
  apply wlp_bind, wlp_assign_keep; [done|by intros []|]. intros s5 Hs5.
  apply wlp_bind, wlp_field_any. intros a5. by apply wlp_ret.
Qed.

(** ** Failures of the system allocator are not swallowed *)

Lemma answered_ok_refl s : answered_ok s s.
Proof. exists []. split; [done|]. apply not_elem_of_nil. Qed.

Lemma answered_ok_same s0 s s' :
  answered_ok s0 s → oracle s' = oracle s → answered_ok s0 s'.
Proof. intros (used & E & Hu) Ho. exists used. by rewrite Ho. Qed.

Lemma answered_ok_trans s0 s1 s2 :
  answered_ok s0 s1 → answered_ok s1 s2 → answered_ok s0 s2.
Proof.
  intros (u1 & E1 & H1) (u2 & E2 & H2). exists (u1 ++ u2).
  split; [by rewrite E1, E2, app_assoc|].
  rewrite elem_of_app. tauto.
Qed.

Lemma answered_ok_next s0 s c o s' :
  answered_ok s0 s → next_choice s = (c, o) → c ≠ alloc_fail →
  oracle s' = o → answered_ok s0 s'.
Proof.
  intros (used & E & Hu) Hn Hc Ho. unfold next_choice in Hn.
  destruct (oracle s) as [|c' o'] eqn:Hos.
  - injection Hn as <- <-. exists used. by rewrite Ho.
  - injection Hn as -> ->. exists (used ++ [c]). split.
    + by rewrite E, Ho, <- app_assoc.
    + rewrite elem_of_app, list_elem_of_singleton. intros [?|?]; [done|congruence].
Qed.

Lemma try_realloc_answered s0 p size s :
  answered_ok s0 s →
  wlp (try_realloc p size s) (λ q s', q ≠ 0 ∧ answered_ok s0 s') (λ _, True).
Proof.
  intros H0. unfold try_realloc. apply wlp_bind. unfold sys_realloc, sys_malloc.
  assert (Hret : ∀ q s', wlp ((if decide (q = 0) then throw out_of_memory else ret q) s')
            (λ q' s'', q' ≠ 0 ∧ answered_ok s0 s') (λ _, True) →
            answered_ok s0 s' →
            wlp ((if decide (q = 0) then throw out_of_memory else ret q) s')
              (λ q' s'', q' ≠ 0 ∧ answered_ok s0 s'') (λ _, True)).
  { intros q s' _ Hs'. destruct (decide (q = 0)); simpl; auto. }
  destruct (decide (p = 0)).
  - destruct (next_choice s) as [c o] eqn:Hn.
    destruct c; simpl; [done| |].
    + destruct (decide (brk s = 0)); simpl; [done|]. split; [done|].
      by eapply answered_ok_next.
    + destruct (decide (brk s = 0)); simpl; [done|]. split; [done|].
      by eapply answered_ok_next.
  - destruct (blocks s !! p); [|done].
    destruct (next_choice s) as [c o] eqn:Hn.
    destruct c; simpl; [done| |].
    + destruct (decide (p = 0)); simpl; [done|]. split; [done|].
      by eapply answered_ok_next.
    + destruct (decide (brk s = 0)); simpl; [done|]. split; [done|].
      by eapply answered_ok_next.
Qed.

Lemma wlp_assign_answered s0 p f v s (Q : unit → state → Prop) E :
  answered_ok s0 s →
  (∀ s', answered_ok s0 s' → Q tt s') →
  wlp (assign p f v s) Q E.
Proof.
  intros H0 HQ. apply wlp_assign. intros r _ _. apply HQ.
  by eapply answered_ok_same.
Qed.

Lemma acquire_chunk_answered s0 arena n s :
  answered_ok s0 s →
  wlp (acquire_chunk P arena n s) (λ _ s', answered_ok s0 s') (λ _, True).
Proof.
  intros H0. unfold acquire_chunk.
  assert (Hinstall : ∀ ptr lim s1, answered_ok s0 s1 →
    wlp ((do r <- load arena;
          store ptr r;;
          assign arena with_avail (ptr + sizeof_header P);;
          assign arena with_limit lim;;
          assign arena with_prev ptr;;
          assign ptr with_type (RAII_ARENA P)) s1)
        (λ _ s', answered_ok s0 s') (λ _, True)).
  { intros ptr lim s1 H1.
    apply wlp_bind, wlp_load. intros r _.
    apply wlp_bind, wlp_store. intros _.
    apply wlp_bind, wlp_assign_answered with s0; [by eapply answered_ok_same|].
    intros s2 H2.
    apply wlp_bind, wlp_assign_answered with s0; [done|]. intros s3 H3.
    apply wlp_bind, wlp_assign_answered with s0; [done|]. intros s4 H4.
    apply wlp_assign_answered with s0; [done|]. auto. }
  apply wlp_bind, wlp_get. apply wlp_bind.
  destruct (decide (free_list s ≠ 0)).
  - unfold pop_free_list.
    apply wlp_bind, wlp_get. apply wlp_bind, wlp_field. intros c _.
    apply wlp_bind, wlp_update. apply wlp_bind.
    unfold decr_num_free. apply wlp_bind, wlp_get. simpl.
    destruct (decide (num_free s = INT_MIN)); [done|]. apply wlp_update.
    apply wlp_bind, wlp_field_any. intros l. apply wlp_ret.
    apply Hinstall. by eapply answered_ok_same.
  - unfold grow.
    apply wlp_bind, wlp_field_any. intros t.
    apply wlp_bind, wlp_assign_answered with s0; [done|]. intros s1 H1.
    apply wlp_bind, wlp_field_any. intros b.
    apply wlp_bind, wlp_field_any. intros t1.
    apply wlp_bind.
    eapply wlp_mono; [by apply try_realloc_answered| |done].
    cbv beta. intros ptr s2 [_ H2].
    apply wlp_bind, wlp_assign_answered with s0; [done|]. intros s3 H3.
    apply wlp_bind, wlp_field_any. intros b3.
    apply wlp_bind, wlp_field_any. intros t3. apply wlp_ret.
    by apply Hinstall.
Qed.

Lemma malloc_arena_loop_answered s0 fuel arena n s :
  answered_ok s0 s →
  wlp (malloc_arena_loop P fuel arena n s) (λ _ s', answered_ok s0 s') (λ _, True).
Proof.
  revert s. induction fuel as [|fuel IH]; intros s H0; simpl.
  - apply wlp_bind, wlp_field_any. intros l.
    apply wlp_bind, wlp_field_any. intros a.
    by destruct (n >? l - a).
  - apply wlp_bind, wlp_field_any. intros l.
    apply wlp_bind, wlp_field_any. intros a.
    destruct (n >? l - a); [|done].
    apply wlp_bind. eapply wlp_mono; [by apply acquire_chunk_answered| |done].
    cbv beta. intros _ s1 H1. by apply IH.
Qed.

(** If [malloc_arena] returns, the system allocator answered none of its
    requests with a failure. *)
Lemma malloc_arena_answered fuel arena nbytes s :
  wlp (malloc_arena P fuel arena nbytes s) (λ _ s', answered_ok s s') (λ _, True).
Proof.
  pose proof (answered_ok_refl s) as H0. unfold malloc_arena.
  apply wlp_bind, wlp_assert; [done|].
  apply wlp_bind, wlp_assert; [done|].
  apply wlp_bind, wlp_capacity. intros c.
  apply wlp_bind, wlp_total. intros t.
  apply wlp_bind.
  assert (Hreset : wlp ((if c =? t then update (set_num_free 0) else ret tt) s)
                     (λ _ s', answered_ok s s') (λ _, True)).
  { destruct (c =? t); simpl; [|done]. by eapply answered_ok_same. }
  eapply wlp_mono; [exact Hreset| |done]. cbv beta. intros _ s1 H1.
  apply wlp_bind. eapply wlp_mono; [by apply malloc_arena_loop_answered| |done].
  cbv beta. intros _ s2 H2.
  apply wlp_bind, wlp_field_any. intros p.
  apply wlp_bind.
  assert (Hprev : wlp ((if negb (p =? 0)
                        then do b <- field arena bytes; assign p with_bytes b
                        else ret tt) s2)
                    (λ _ s', answered_ok s s') (λ _, True)).
  { destruct (negb (p =? 0)); [|done].
    apply wlp_bind, wlp_field_any. intros b.
    apply wlp_assign_answered with s; auto. }
  eapply wlp_mono; [exact Hprev| |done]. cbv beta. intros _ s3 H3.
  apply wlp_bind, wlp_assign_answered with s; [done|]. intros s4 H4.
  apply wlp_bind, wlp_field_any. intros a.
  apply wlp_bind, wlp_assign_answered with s; [done|]. intros s5 H5.
  apply wlp_bind, wlp_field_any. intros a5. by apply wlp_ret.
Qed.

(** If [arena_init] returns, the system allocator gave it a block, and the
    handle is not NULL. *)
Lemma arena_init_answered s :
  brk s ≠ 0 →
  wlp (arena_init P s) (λ a s', a ≠ 0 ∧ answered_ok s s') (λ _, True).
Proof.
  intros Hbrk. unfold arena_init. apply wlp_bind. unfold try_malloc.
  apply wlp_bind. unfold sys_malloc.
  destruct (next_choice s) as [c o] eqn:Hn.
  assert (Hok : c ≠ alloc_fail →
    wlp ((if decide (brk s = 0) then throw out_of_memory else ret (brk s))
           (new_block sizeof_arena_s (set_oracle o s)))
      (λ a s1, wlp ((store a (Arena (RAII_ARENA P + RAII_STRUCT P) 0 0 0 0 0 0);;
                     ret a) s1)
                 (λ a' s', a' ≠ 0 ∧ answered_ok s s') (λ _, True))
      (λ _, True)).
  { intros Hc. destruct (decide (brk s = 0)); [done|]. simpl.
    apply wlp_bind, wlp_store. intros _. apply wlp_ret. split; [done|].
    eapply answered_ok_next; [apply answered_ok_refl|exact Hn|done|done]. }
  destruct c; simpl; [done|by apply Hok..].
Qed.

(** C6. When the system allocator fails, [arena_init] raises out-of-memory,
    and so does [malloc_arena] when it has to grow the arena (the request
    does not fit and the free list is empty).  The failure is not swallowed:
    whenever [malloc_arena] or [arena_init] returns, the allocator answered
    none of the requests of the call with a failure, and the handle
    [arena_init] returns is not NULL. *)
Theorem allocation_failure_raises (fuel : nat) (arena nbytes : Z) (s : state)
    (r : arena_s) (o : list alloc_choice) :
  oracle s = alloc_fail :: o →
  arena ≠ 0 → live s arena r →
  (assertions P = false ∨ 0 < nbytes) →
  free_list s = 0 →
  limit r - avail r < round_request P nbytes →
  (base r = 0 ∨ is_Some (blocks s !! base r)) →
  arena_init P s = Throw out_of_memory (set_oracle o s) ∧
  raises (malloc_arena P (S fuel) arena nbytes s) out_of_memory
    (λ s', oracle s' = o ∧ blocks s' = blocks s ∧ free_list s' = 0) ∧
  (∀ fuel' arena' nbytes' s0,
     wlp (malloc_arena P fuel' arena' nbytes' s0)
       (λ _ s', answered_ok s0 s') (λ _, True)) ∧
  (∀ s0, brk s0 ≠ 0 →
     wlp (arena_init P s0) (λ a s', a ≠ 0 ∧ answered_ok s0 s') (λ _, True)).
Proof.
  intros Ho Ha Hl Hchk Hfl Hnofit Hbase. split_and!.
  - unfold arena_init, try_malloc, sys_malloc, next_choice, bind.
    rewrite Ho. reflexivity.
  - by eapply malloc_arena_out_of_memory.
  - intros. apply malloc_arena_answered.
  - intros. by apply arena_init_answered.
Qed.

(** C4, amended.  The allocation policy of [malloc_arena], for a request
    whose rounding does not overflow.  The request is rounded up to the next
    multiple of sizeof(union header).  If the rounded size fits between
    [avail] and [limit], the call returns the old [avail] and advances
    [avail] by the rounded size, without touching the free list or the
    system allocator.  Otherwise the loop runs [acquire_chunk]: with a
    non-empty free list its head becomes the current chunk and the system
    allocator is not called; with an empty free list the arena's block is
    resized through the system allocator, and the call returns with [total]
    grown by the rounded size plus sizeof(union header) + THRESHOLD * 1024. *)
Theorem malloc_arena_policy (fuel : nat) (arena nbytes : Z) (s : state) (r : arena_s) :
  0 < sizeof_header P →
  0 < nbytes → nbytes + sizeof_header P - 1 ≤ LONG_MAX →
  arena ≠ 0 → live s arena r →
  (prev r = 0 ∨ ∃ c, live s (prev r) c) →
  base r ≠ arena → (base r = 0 ∨ is_Some (blocks s !! base r)) →
  allocator_ok s → num_free s ≠ INT_MIN →
  let n := round_request P nbytes in
  (n = (nbytes + sizeof_header P - 1) / sizeof_header P * sizeof_header P ∧
   nbytes ≤ n < nbytes + sizeof_header P ∧ n mod sizeof_header P = 0) ∧
  (n ≤ limit r - avail r →
   ∃ s', malloc_arena P fuel arena nbytes s = Ret (avail r) s' ∧
         heap s' !! arena = Some (with_avail (avail r + n) (with_bytes n r)) ∧
         blocks s' = blocks s ∧ oracle s' = oracle s ∧
         free_list s' = free_list s) ∧
  (limit r - avail r < n →
   malloc_arena_loop P (S fuel) arena n s =
     (acquire_chunk P arena n;; malloc_arena_loop P fuel arena n) s) ∧
  (∀ c, free_list s ≠ 0 → live s (free_list s) c →
   returns (acquire_chunk P arena n s) (λ _ s',
     free_list s' = prev c ∧ blocks s' = blocks s ∧ oracle s' = oracle s ∧
     ∃ r', heap s' !! arena = Some r' ∧
           avail r' = free_list s + sizeof_header P ∧ limit r' = limit c ∧
           prev r' = free_list s)) ∧
  (limit r - avail r < n → free_list s = 0 → growth_fits P r n →
   (next_choice s).1 ≠ alloc_fail →
   returns (malloc_arena P (S fuel) arena nbytes s) (λ p s',
     ∃ r', heap s' !! arena = Some r' ∧
           total r' = total r + (n + (sizeof_header P + THRESHOLD * 1024)) ∧
           blocks s' !! base r' = Some (total r') ∧
           p = base r' + sizeof_header P ∧
           avail r' = p + n ∧ limit r' = base r' + total r')).
Proof.
  intros HH Hn Hmax Ha Hl Hprev Hba Hbase Hok Hnf n.
  destruct (round_request_spec nbytes HH ltac:(lia) Hmax) as (E & Hrange & Hmod).
  fold n in E, Hrange, Hmod.
  split; [done|]. split; [|split; [|split]].
  - intros Hfit.
    destruct (malloc_arena_fits fuel arena nbytes s r Ha Hl Hprev (or_intror Hn) Hfit)
      as (s' & E' & _ & Hb & _ & Ho & Hf & Hr' & _).
    exists s'. split_and!; try done. fold n in Hr'. rewrite Hr'.
    do 3 f_equal. unfold to_size_t. apply Z.mod_small. unfold LONG_MAX in Hmax. lia.
  - intros Hnofit. destruct Hl as [Hr _]. cbn [malloc_arena_loop].
    rewrite (bind_eq _ _ _ _ _ (field_live _ _ _ _ Hr)),
            (bind_eq _ _ _ _ _ (field_live _ _ _ _ Hr)).
    destruct (Z.gtb_spec n (limit r - avail r)); [done|lia].
  - intros c Hfl Hc. eapply returns_mono; [by apply (acquire_chunk_pops arena n s r c)|].
    cbv beta. intros _ s' (? & _ & _ & ? & _ & ? & r' & ? & ? & ? & ? & _).
    split_and!; try done. by exists r'.
  - intros Hnofit Hfl Hgf Hch.
    eapply returns_mono.
    { apply (malloc_arena_grows fuel arena nbytes s r); auto. }
    cbv beta. intros p s' (_ & _ & r' & ? & ? & ? & ? & ? & ? & _).
    exists r'. split_and!; done.
Qed.

Lemma keys_insert (h : gmap Z arena_s) p x k :
  (∀ q, is_Some (h !! q) → 0 < q < k) → is_Some (h !! p) →
  ∀ q, is_Some (<[p := x]> h !! q) → 0 < q < k.
Proof.
  intros Hk Hp q Hq. destruct (decide (p = q)) as [<-|Hne]; [by apply Hk|].
  rewrite lookup_insert_ne in Hq by done. by apply Hk.
Qed.

Lemma free_list_ok_ext s s' :
  heap s' = heap s → blocks s' = blocks s → brk s' = brk s →
  free_list s' = free_list s → num_free s' = num_free s →
  free_list_ok P s → free_list_ok P s'.
Proof. unfold free_list_ok. by intros -> -> -> -> ->. Qed.

(** The loop of [arena_clear]: one turn. *)
Lemma retire_chunk_inv cur s rc ro :
  heap s !! cur = Some rc → prev rc ≠ 0 →
  heap s !! prev rc = Some ro → type ro = RAII_ARENA P →
  free_list_ok P s ∨ free_list_cycle P cur s →
  wlp (retire_chunk P cur s)
      (λ _ s', free_list_ok P s' ∨ free_list_cycle P (prev rc) s')
      (free_list_ok P).
Proof.
  intros Hrc Hp0 Hro Hto HJ. unfold retire_chunk.
  apply wlp_bind, wlp_get.
  destruct (Z.ltb_spec (num_free s) THRESHOLD) as [Hlt|Hge].
  - (* push *)
    apply wlp_bind, wlp_field. intros r1 Hr1.
    assert (r1 = rc) by congruence. subst r1.
    apply wlp_bind, wlp_get.
    apply wlp_bind, wlp_assign. intros r2 Hr2 Hb2.
    assert (r2 = ro) by congruence. subst r2.
    apply wlp_bind, wlp_field. intros r3 Hr3.
    apply wlp_bind, wlp_update.
    apply wlp_bind, wlp_update.
    apply wlp_bind, wlp_get.
    apply wlp_bind, wlp_field. intros r4 Hr4.
    apply wlp_bind, wlp_field. intros r5 Hr5.
    simpl in Hr3, Hr4, Hr5.
    match goal with |- wlp (_ ?S) _ _ => set (s1 := S) end.
    assert (Hfin : ∀ X, wlp (assign cur with_avail X s1)
               (λ _ s', free_list_ok P s' ∨ free_list_cycle P (prev rc) s')
               (free_list_ok P)).
    { intros X. apply wlp_assign. intros r7 Hr7 Hb7. subst s1. simpl in Hr7, Hb7.
      assert (r7 = r3) by congruence. subst r7. clear Hr7 Hr5 Hr4.
      assert (Hkeys : (∀ q, is_Some (heap s !! q) → 0 < q < brk s) ∧
                      (∀ q, is_Some (blocks s !! q) → 0 < q < brk s) ∧
                      0 < brk s).
      { destruct HJ as [(?&?&?&?&?)|(?&?&?&?&?)]; done. }
      destruct Hkeys as (Hhk & Hbk & Hbrk).
      assert (Hhk' : ∀ q, is_Some (<[cur:=with_avail X r3]>
                        (<[prev rc:=with_prev (free_list s) ro]> (heap s)) !! q) →
                         0 < q < brk s).
      { apply keys_insert; [apply keys_insert; [done|by rewrite Hro]|].
        by rewrite Hr3. }
      destruct (decide (prev rc = cur)) as [Heq|Hne].
      - (* the chunk at hand is its own predecessor *)
        rewrite Heq in *. assert (ro = rc) by congruence. subst ro.
        rewrite lookup_insert_eq in Hr3. injection Hr3 as <-.
        destruct HJ as [Hinv|Hcyc].
        + left. assert (Hflc : free_list s ≠ cur).
          { intros E. rewrite <- E in Hrc. destruct (inv_head _ _ Hinv Hrc). lia. }
          destruct Hinv as (Hnf & _ & _ & _ & Hfl & Hhead).
          unfold free_list_ok. simpl. split_and!; try done; try lia.
          destruct Hhead as [H0|[[Hn Hbn]|(r & Hr & Hpr & Hty)]].
          * by left.
          * right; left. by rewrite !lookup_insert_ne.
          * right; right. exists r. by rewrite !lookup_insert_ne.
        + right. destruct Hcyc as (Hnf & _ & _ & _ & Hfl & Hc0 & rc' & Hrc' & Hty & _).
          assert (rc' = rc) by congruence. subst rc'.
          rewrite Hfl in Hhk'.
          unfold free_list_cycle. simpl. rewrite Hfl.
          split_and!; try done; try lia.
          eexists. rewrite lookup_insert_eq. split; [done|]. split; [done|].
          right; right. simpl. rewrite lookup_insert_eq.
          eexists. split; [done|]. simpl. auto.
      - (* a chunk of its own *)
        rewrite lookup_insert_ne in Hr3 by done.
        assert (r3 = rc) by congruence. subst r3.
        right. unfold free_list_cycle. simpl.
        assert (Hnf : num_free s + 1 ≤ THRESHOLD) by lia.
        split_and!; try done.
        exists (with_prev (free_list s) ro).
        rewrite lookup_insert_ne, lookup_insert_eq by done.
        split; [done|]. split; [done|]. simpl.
        destruct HJ as [Hinv|Hcyc].
        + destruct Hinv as (_ & _ & _ & _ & Hfl & Hhead).
          destruct Hhead as [H0|[[Hn Hbn]|(r & Hr & Hpr & Hty)]].
          * by left.
          * right; left.
            assert (free_list s ≠ cur) by congruence.
            assert (free_list s ≠ prev rc) by congruence.
            by rewrite !lookup_insert_ne.
          * right; right.
            destruct (decide (free_list s = cur)) as [E|NE].
            { rewrite E in Hr. assert (r = rc) by congruence. subst r. lia. }
            rewrite lookup_insert_ne by done.
            destruct (decide (free_list s = prev rc)) as [E'|NE'].
            { rewrite E', lookup_insert_eq. eexists. split; [done|]. simpl. auto. }
            rewrite lookup_insert_ne by done. exists r. auto.
        + destruct Hcyc as (_ & _ & _ & _ & Hfl & Hc0 & rc' & Hrc' & Hty & Hnext).
          assert (rc' = rc) by congruence. subst rc'.
          right; right. rewrite Hfl, lookup_insert_eq.
          eexists. split; [done|]. simpl. auto. }
    destruct (is_zero (bytes r4)); [|apply Hfin].
    apply wlp_bind, wlp_field_any. intros b. apply Hfin.
  - (* the free list is full *)
    apply wlp_bind, wlp_field_any. intros b1.
    apply wlp_bind, wlp_assign. intros r1 Hr1 Hb1.
    assert (r1 = rc) by congruence. subst r1.
    apply wlp_bind, wlp_field_any. intros b2.
    apply wlp_bind, wlp_field_any. intros t2.
    apply wlp_bind, wlp_assign. intros r2 Hr2 Hb2.
    apply wlp_bind, wlp_assign. intros r3 Hr3 Hb3.
    apply wlp_assign. intros r4 Hr4 Hb4.
    simpl in *. rewrite lookup_insert_eq in Hr2, Hr3, Hr4.
    injection Hr2 as <-. injection Hr3 as <-. injection Hr4 as <-.
    rewrite !insert_insert_eq. left.
    destruct HJ as [Hinv|Hcyc].
    + eapply (free_list_ok_ext (set_heap (<[cur:=_]> (heap s)) s));
        [simpl; reflexivity|done..|].
      apply inv_store; [done..|]. intros E. rewrite <- E in Hrc.
      destruct (inv_head _ _ Hinv Hrc). by simpl.
    + destruct Hcyc as (Hnf & Hbrk & Hbk & Hhk & Hfl & Hc0 & rc' & Hrc' & Hty & _).
      assert (rc' = rc) by congruence. subst rc'.
      unfold free_list_ok. simpl. split_and!; try done.
      * apply keys_insert; [done|by rewrite Hrc].
      * rewrite Hfl. specialize (Hhk cur). rewrite Hrc in Hhk.
        specialize (Hhk (mk_is_Some _ _ eq_refl)). lia.
      * right; right. rewrite Hfl, lookup_insert_eq. eexists. split; [done|]. by simpl.
Qed.

Lemma arena_clear_loop_inv fuel cur s :
  free_list_ok P s ∨ free_list_cycle P cur s →
  wlp (arena_clear_loop P fuel cur s) (λ _ s', free_list_ok P s') (free_list_ok P).
Proof.
  revert cur s.
  assert (Hstop : ∀ cur s rc,
    free_list_ok P s ∨ free_list_cycle P cur s →
    heap s !! cur = Some rc →
    (prev rc = 0 ∨ ∃ ro, heap s !! prev rc = Some ro ∧ type ro ≠ RAII_ARENA P) →
    free_list_ok P s).
  { intros cur s rc [Hinv|Hcyc] Hrc Hend; [done|].
    destruct Hcyc as (Hnf & Hbrk & Hbk & Hhk & Hfl & Hc0 & rc' & Hrc' & Hty & Hnext).
    assert (rc' = rc) by congruence. subst rc'.
    assert (Hp0 : prev rc = 0).
    { destruct Hend as [|(ro & Hro & Hne)]; [done|].
      destruct Hnext as [|[Hn|(ro' & Hro' & Hty' & _)]]; [done|congruence|].
      congruence. }
    unfold free_list_ok. split_and!; try done.
    - rewrite Hfl. specialize (Hhk cur). rewrite Hrc in Hhk.
      specialize (Hhk (mk_is_Some _ _ eq_refl)). lia.
    - right; right. exists rc. by rewrite Hfl. }
  induction fuel as [|fuel IH]; intros cur s HJ; simpl.
  - apply wlp_bind, wlp_field. intros rc Hrc. apply wlp_bind.
    destruct (Z.eqb_spec (prev rc) 0) as [Hp0|Hp0]; simpl.
    { eapply Hstop; eauto. }
    apply wlp_is_type; [done|].
    intros ro _ Hro. destruct (Z.eqb_spec (type ro) (RAII_ARENA P)); [done|].
    apply wlp_ret. eapply Hstop; eauto.
  - apply wlp_bind, wlp_field. intros rc Hrc. apply wlp_bind.
    destruct (Z.eqb_spec (prev rc) 0) as [Hp0|Hp0]; simpl.
    { eapply Hstop; eauto. }
    apply wlp_is_type; [done|].
    intros ro _ Hro. destruct (Z.eqb_spec (type ro) (RAII_ARENA P)).
    + apply wlp_bind.
      eapply wlp_mono; [by eapply retire_chunk_inv| |done].
      cbv beta. intros _ s1 HJ1. by apply IH.
    + apply wlp_ret. eapply Hstop; eauto.
Qed.

Lemma arena_clear_inv fuel arena s :
  free_list_ok P s →
  wlp (arena_clear P fuel arena s) (λ _ s', free_list_ok P s') (free_list_ok P).
Proof.
  intros Hinv. unfold arena_clear. destruct (is_empty arena); [done|].
  apply arena_clear_loop_inv. by left.
Qed.

Lemma arena_init_inv s :
  free_list_ok P s →
  wlp (arena_init P s) (λ _ s', free_list_ok P s') (free_list_ok P).
Proof.
  intros Hinv. pose proof Hinv as (Hnf & Hbrk & Hbl & Hhp & Hfl & Hhead).
  unfold arena_init. apply wlp_bind. unfold try_malloc. apply wlp_bind.
  unfold sys_malloc.
  assert (Hnew : ∀ o, wlp
    ((if decide (brk s = 0) then throw out_of_memory else ret (brk s))
       (new_block sizeof_arena_s (set_oracle o s)))
    (λ a s1, wlp ((store a (Arena (RAII_ARENA P + RAII_STRUCT P) 0 0 0 0 0 0);;
                   ret a) s1)
               (λ _ s', free_list_ok P s') (free_list_ok P))
    (free_list_ok P)).
  { intros o. destruct (decide (brk s = 0)); [lia|]. simpl.
    apply wlp_bind, wlp_store. intros _. apply wlp_ret.
    unfold free_list_ok. simpl. unfold sizeof_arena_s.
    split_and!; try done; try lia.
    - intros q Hq. destruct (decide (brk s = q)) as [<-|Hne]; [lia|].
      rewrite lookup_insert_ne in Hq by done. specialize (Hbl _ Hq). lia.
    - intros q Hq. destruct (decide (brk s = q)) as [<-|Hne]; [lia|].
      rewrite lookup_insert_ne in Hq by done. specialize (Hhp _ Hq). lia.
    - assert (brk s ≠ free_list s) by lia.
      destruct Hhead as [H0|[[Hn Hbn]|(r & Hr & Hpr & Hty)]].
      + by left.
      + right; left. by rewrite !lookup_insert_ne.
      + right; right. exists r. by rewrite lookup_insert_ne. }
  destruct (next_choice s) as [[] o]; simpl; [exact Hinv|apply Hnew..].
Qed.

Lemma inv_release p s :
  free_list_ok P s → free_list_ok P (release_block p s).
Proof.
  intros (Hnf & Hbrk & Hbl & Hhp & Hfl & Hhead).
  unfold free_list_ok. simpl. split_and!; try done.
  - intros q Hq. apply Hbl. destruct (decide (p = q)) as [<-|Hne].
    + rewrite lookup_delete_eq in Hq. by destruct Hq.
    + by rewrite lookup_delete_ne in Hq.
  - intros q Hq. apply Hhp. destruct (decide (p = q)) as [<-|Hne].
    + rewrite lookup_delete_eq in Hq. by destruct Hq.
    + by rewrite lookup_delete_ne in Hq.
  - destruct (decide (p = free_list s)) as [<-|Hne].
    + right; left. by rewrite !lookup_delete_eq.
    + rewrite !lookup_delete_ne by done. done.
Qed.

Lemma arena_free_inv arena s :
  free_list_ok P s →
  wlp (arena_free P arena s) (λ _ s', free_list_ok P s') (free_list_ok P).
Proof.
  intros Hinv. unfold arena_free. destruct (is_empty arena); [done|].
  apply wlp_bind, wlp_is_type; [intros _; by apply wlp_ret|].
  intros r Ha Hr. destruct (type r =? _); [|by apply wlp_ret].
  apply wlp_bind, wlp_assign. intros r1 Hr1 Hb1.
  apply wlp_bind, wlp_field. intros r2 Hr2.
  (* between the memset and the second free the tag of the handle is wrong;
     what holds is the invariant of the state without the handle *)
  set (s1 := set_heap _ s) in *.
  assert (K1 : free_list_ok P (release_block arena s1)).
  { eapply (free_list_ok_ext (release_block arena s)); try done; [|by apply inv_release].
    subst s1. simpl. by rewrite delete_insert_eq. }
  clearbody s1.
  assert (Hfree : ∀ s2, free_list_ok P (release_block arena s2) →
            wlp (RAII_FREE arena s2) (λ _ s', free_list_ok P s') (free_list_ok P)).
  { intros s2 K2. unfold RAII_FREE. destruct (decide (arena = 0)); [done|].
    by destruct (blocks s2 !! arena). }
  apply wlp_bind. unfold RAII_FREE at 1.
  destruct (decide (base r2 = 0)); [by apply Hfree|].
  destruct (blocks s1 !! base r2); [|done]. simpl. apply Hfree.
  eapply (free_list_ok_ext (release_block (base r2) (release_block arena s1)));
    try done; [simpl; apply delete_delete..|].
  by apply inv_release.
Qed.

Lemma calloc_arena_inv fuel arena count nbytes s :
  free_list_ok P s →
  wlp (calloc_arena P fuel arena count nbytes s)
      (λ _ s', free_list_ok P s') (free_list_ok P).
Proof.
  intros Hinv. unfold calloc_arena.
  apply wlp_bind, wlp_assert; [done|].
  destruct (in_long (count * nbytes)); [|done].
  apply wlp_bind. eapply wlp_mono; [by apply malloc_arena_inv| |done].
  cbv beta. intros ptr s1 Hs1.
  apply wlp_bind. unfold memset.
  destruct (decide (to_size_t (count * nbytes) = 0)); [done|].
  destruct (decide (in_block s1 ptr _)); [|done]. simpl. exact Hs1.
Qed.

Lemma exec_inv c s :
  free_list_ok P s → ensures (exec P c s) (free_list_ok P).
Proof.
  intros Hinv. unfold ensures.
  destruct c as [|fuel arena nbytes|fuel arena count nbytes|fuel arena|arena]; simpl.
  - apply wlp_bind. eapply wlp_mono; [by apply arena_init_inv| |done]. done.
  - apply wlp_bind. eapply wlp_mono; [by apply malloc_arena_inv| |done]. done.
  - apply wlp_bind. eapply wlp_mono; [by apply calloc_arena_inv| |done]. done.
  - by apply arena_clear_inv.
  - by apply arena_free_inv.
Qed.

Lemma reachable_inv s : reachable P s → free_list_ok P s.
Proof.
  induction 1 as [k o Hk|s c s' _ IH Hc].
  - unfold free_list_ok, initial, THRESHOLD. simpl.
    split_and!; try done; try lia; try (by left).
    all: intros p Hp; rewrite lookup_empty in Hp; by destruct Hp.
  - eapply completes_wlp; [|exact Hc]. by apply exec_inv.
Qed.

Lemma free_list_ok_chain s l :
  free_list_ok P s → chain s (free_list s) l → (length l ≤ 1)%nat.
Proof.
  intros Hinv Hch. inversion Hch as [|p r l' Hp Hr Hch' E]; subst; simpl; [lia|].
  destruct (inv_head _ _ Hinv Hr) as [Hpr _]. rewrite Hpr in Hch'.
  inversion Hch'; subst; simpl; [lia|done].
Qed.

(** In the full branch of the loop of [arena_clear] nothing is pushed. *)
Lemma retire_chunk_full arena s :
  THRESHOLD ≤ num_free s →
  ensures (retire_chunk P arena s)
    (λ s', free_list s' = free_list s ∧ num_free s' = num_free s ∧
           mem s' = mem s ∧ blocks s' = blocks s ∧ brk s' = brk s ∧
           oracle s' = oracle s).
Proof.
  intros Hge. unfold ensures, retire_chunk. apply wlp_bind, wlp_get.
  destruct (Z.ltb_spec (num_free s) THRESHOLD); [lia|].
  apply wlp_bind, wlp_field_any. intros b1.
  apply wlp_bind, wlp_assign. intros r1 Hr1 Hb1.
  apply wlp_bind, wlp_field_any. intros b2.
  apply wlp_bind, wlp_field_any. intros t2.
  apply wlp_bind, wlp_assign. intros r2 Hr2 Hb2.
  apply wlp_bind, wlp_assign. intros r3 Hr3 Hb3.
  apply wlp_assign. intros r4 Hr4 Hb4. done.
Qed.

(** C1, amended.  In every state of an execution the counter [num_free] is
    at most THRESHOLD and the free list holds at most THRESHOLD chunks (in
    fact at most one); a turn of the loop of [arena_clear] that finds
    [num_free] at THRESHOLD or above leaves the free list and the counter as
    they are.  The counter is not the length of the list. *)
Theorem free_list_bounded (s : state) (l : list Z) (arena : Z) :
  reachable P s → chain s (free_list s) l →
  num_free s ≤ THRESHOLD ∧
  Z.of_nat (length l) ≤ THRESHOLD ∧
  (THRESHOLD ≤ num_free s →
   ensures (retire_chunk P arena s)
     (λ s', free_list s' = free_list s ∧ num_free s' = num_free s)).
Proof.
  intros Hreach Hch. pose proof (reachable_inv _ Hreach) as Hinv.
  split; [by destruct Hinv|]. split.
  - pose proof (free_list_ok_chain _ _ Hinv Hch). unfold THRESHOLD. lia.
  - intros Hge. eapply wlp_mono; [by apply retire_chunk_full| |]; cbv beta.
    + by intros _ s' (? & ? & _).
    + by intros s' (? & ? & _).
Qed.

(** ** [arena_clear] and the system allocator *)

Lemma retire_chunk_allocator arena s :
  ensures (retire_chunk P arena s)
    (λ s', mem s' = mem s ∧ blocks s' = blocks s ∧ brk s' = brk s ∧
           oracle s' = oracle s).
Proof.
  unfold ensures, retire_chunk. apply wlp_bind, wlp_get.
  destruct (num_free s <? THRESHOLD).
  - apply wlp_bind, wlp_field_any. intros p.
    apply wlp_bind, wlp_get.
    apply wlp_bind, wlp_assign. intros r1 Hr1 Hb1.
    apply wlp_bind, wlp_field_any. intros p'.
    apply wlp_bind, wlp_update. apply wlp_bind, wlp_update.
    apply wlp_bind, wlp_get.
    apply wlp_bind, wlp_field_any. intros fb.
    apply wlp_bind, wlp_field_any. intros a.
    destruct (is_zero fb).
    + apply wlp_bind, wlp_field_any. intros b.
      apply wlp_assign. intros r2 Hr2 Hb2. done.
    + apply wlp_assign. intros r2 Hr2 Hb2. done.
  - apply wlp_bind, wlp_field_any. intros b1.
    apply wlp_bind, wlp_assign. intros r1 Hr1 Hb1.
    apply wlp_bind, wlp_field_any. intros b2.
    apply wlp_bind, wlp_field_any. intros t2.
    apply wlp_bind, wlp_assign. intros r2 Hr2 Hb2.
    apply wlp_bind, wlp_assign. intros r3 Hr3 Hb3.
    apply wlp_assign. intros r4 Hr4 Hb4. done.
Qed.

Lemma arena_clear_loop_allocator fuel arena s :
  ensures (arena_clear_loop P fuel arena s)
    (λ s', mem s' = mem s ∧ blocks s' = blocks s ∧ brk s' = brk s ∧
           oracle s' = oracle s).
Proof.
  unfold ensures. revert arena s.
  induction fuel as [|fuel IH]; intros arena s; simpl.
  - apply wlp_bind, wlp_field_any. intros tmp. apply wlp_bind.
    destruct (negb (tmp =? 0)); [|by apply wlp_ret].
    apply wlp_is_type; [intros _; by apply wlp_ret|].
    intros r _ _. by destruct (type r =? _).
  - apply wlp_bind, wlp_field_any. intros tmp.
    assert (Hturn : wlp ((retire_chunk P arena;; arena_clear_loop P fuel tmp) s)
              (λ _ s', mem s' = mem s ∧ blocks s' = blocks s ∧ brk s' = brk s ∧
                       oracle s' = oracle s)
              (λ s', mem s' = mem s ∧ blocks s' = blocks s ∧ brk s' = brk s ∧
                     oracle s' = oracle s)).
    { apply wlp_bind. eapply wlp_mono; [apply retire_chunk_allocator| |done].
      cbv beta. intros _ s1 (Hm & Hb & Hk & Ho).
      eapply wlp_mono; [apply IH| |]; cbv beta.
      - intros _ s2 (? & ? & ? & ?). split_and!; congruence.
      - intros s2 (? & ? & ? & ?). split_and!; congruence. }
    apply wlp_bind.
    destruct (negb (tmp =? 0)); [|by apply wlp_ret].
    apply wlp_is_type; [intros _; by apply wlp_ret|].
    intros r _ _. destruct (type r =? _); [exact Hturn|by apply wlp_ret].
Qed.

(** C2, amended.  [arena_clear] never calls the system allocator: if it
    completes, the live blocks, the next address and the pending answers of
    the allocator, and the byte memory, are as before; nothing is freed.  A
    turn of its loop that finds [num_free] at THRESHOLD or above resets the
    object at hand (avail = base + sizeof(union header),
    limit = base + total, bytes = 0, prev = NULL) and changes nothing else:
    the chunk that was its [prev] is neither freed nor pushed. *)
Theorem arena_clear_frees_nothing (fuel : nat) (arena : Z) (s : state) (r : arena_s) :
  THRESHOLD ≤ num_free s → live s arena r →
  ensures (arena_clear P fuel arena s)
    (λ s', mem s' = mem s ∧ blocks s' = blocks s ∧ brk s' = brk s ∧
           oracle s' = oracle s) ∧
  retire_chunk P arena s =
    Ret tt (set_heap
              (<[arena := Arena (type r) 0 (base r + sizeof_header P)
                            (base r + total r) (base r) 0 (total r)]> (heap s))
              s).
Proof.
  intros Hge [Hr [sz Hb]]. split.
  - unfold arena_clear. destruct (is_empty arena); [done|].
    apply arena_clear_loop_allocator.
  - unfold retire_chunk. unfold bind at 1. unfold get at 1.
    destruct (Z.ltb_spec (num_free s) THRESHOLD); [lia|].
    rewrite (bind_eq _ _ _ _ _ (field_live _ _ _ _ Hr)).
    rewrite (bind_eq _ _ _ _ _ (assign_live _ _ _ _ _ _ Hr Hb)).
    set (s1 := set_heap _ s).
    assert (Hr1 : heap s1 !! arena = Some (with_avail (base r + sizeof_header P) r))
      by (subst s1; simpl; by rewrite lookup_insert_eq).
    rewrite (bind_eq _ _ _ _ _ (field_live _ _ _ _ Hr1)).
    rewrite (bind_eq _ _ _ _ _ (field_live _ _ _ _ Hr1)).
    rewrite (bind_eq _ _ _ _ _ (assign_live _ _ _ _ _ sz Hr1 Hb)).
    set (s2 := set_heap _ s1).
    assert (Hr2 : heap s2 !! arena =
                  Some (with_limit (base r + total r)
                          (with_avail (base r + sizeof_header P) r)))
      by (subst s2; simpl; by rewrite lookup_insert_eq).
    rewrite (bind_eq _ _ _ _ _ (assign_live _ _ _ _ _ sz Hr2 Hb)).
    set (s3 := set_heap _ s2).
    assert (Hr3 : heap s3 !! arena =
                  Some (with_bytes 0 (with_limit (base r + total r)
                          (with_avail (base r + sizeof_header P) r))))
      by (subst s3; simpl; by rewrite lookup_insert_eq).
    rewrite (assign_live _ _ _ _ _ sz Hr3 Hb).
    subst s3 s2 s1. unfold set_heap. simpl. by rewrite !insert_insert_eq.
Qed.

Lemma run_calls_reachable cs s s' :
  reachable P s → run_calls P cs s = Some s' → reachable P s'.
Proof.
  revert s. induction cs as [|c cs IH]; intros s Hs; simpl.
  - by intros [= <-].
  - destruct (exec P c s) as [[] s1|e s1| |] eqn:Hc; try done.
    + apply IH. eapply reach_call; [exact Hs|]. by rewrite Hc.
    + apply IH. eapply reach_call; [exact Hs|]. by rewrite Hc.
Qed.

Lemma allocator_ok_decide s :
  bool_decide (0 < brk s ∧ map_Forall (λ p _, 0 < p < brk s) (blocks s)) = true →
  allocator_ok s.
Proof.
  intros H. apply bool_decide_eq_true in H as [Hb Hf]. split; [done|].
  intros p [sz Hp]. exact (Hf p sz Hp).
Qed.
End ArenaFacts.

(** ** Executions of the LP64 build *)

Lemma boot_reachable P : reachable P boot.
Proof. apply reach_start. reflexivity. Qed.

Lemma after_calls_reachable P cs :
  is_Some (run_calls P cs boot) → reachable P (after_calls P cs boot).
Proof.
  intros [s Hs]. unfold after_calls. rewrite Hs. simpl.
  eapply run_calls_reachable; [apply boot_reachable|exact Hs].
Qed.

(** C3 at its failing input.  After arena_init, malloc_arena(a, 5000) and
    arena_clear(a) the handle satisfies base ≤ avail ≤ limit; a second
    arena_clear(a) returns and leaves avail below base. *)
Theorem clear_twice_breaks_chunk_invariant :
  let calls := [call_init; call_malloc 2 handle 5000; call_clear 2 handle] in
  let s1 := after_calls lp64 calls boot in
  let s2 := after_calls lp64 (calls ++ [call_clear 12 handle]) boot in
  let r1 := Arena 3 chunk 65600 80840 chunk 5000 15248 in
  let r2 := Arena 3 chunk 60600 80840 chunk 5000 15248 in
  run_calls lp64 calls boot = Some s1 ∧
  heap s1 !! handle = Some r1 ∧
  base r1 ≤ avail r1 ≤ limit r1 ∧
  arena_clear lp64 12 handle s1 = Ret tt s2 ∧
  heap s2 !! handle = Some r2 ∧
  avail r2 < base r2.
Proof.
  split_and!; try (vm_compute; reflexivity); vm_compute; discriminate.
Qed.

(** C5 at its failing input.  After arena_init, malloc_arena(a, 8),
    malloc_arena(a, 800) and arena_clear(a), arena_capacity(a) is 9448 and
    arena_total(a) is 10248: the clear gave back the 8 bytes recorded in the
    chunk, not the 808 bytes in use. *)
Theorem clear_does_not_restore_capacity :
  returns
    ((do a <- arena_init lp64;
      malloc_arena lp64 2 a 8;;
      malloc_arena lp64 2 a 800;;
      arena_clear lp64 2 a;;
      do c <- arena_capacity lp64 a;
      do t <- arena_total lp64 a;
      ret (c, t)) boot)
    (λ v _, v = (9448, 10248) ∧ v.1 ≠ v.2 ∧ v.2 - v.1 = 800).
Proof. vm_compute. split_and!; [reflexivity|discriminate|reflexivity]. Qed.

(** C1 as stated fails: after arena_init, malloc_arena(a, 8), arena_clear(a)
    and malloc_arena(a, 8) the free list holds one chunk and [num_free]
    is 0. *)
Lemma num_free_is_not_the_length :
  let calls := [call_init; call_malloc 2 handle 8; call_clear 2 handle;
                call_malloc 2 handle 8] in
  let s := after_calls lp64 calls boot in
  run_calls lp64 calls boot = Some s ∧
  reachable lp64 s ∧
  chain s (free_list s) [chunk] ∧
  num_free s = 0 ∧
  num_free s ≠ Z.of_nat (length [chunk]).
Proof.
  split_and!.
  - vm_compute. reflexivity.
  - apply after_calls_reachable. eexists. vm_compute. reflexivity.
  - eapply (chain_link _ chunk (Arena 1 0 0 0 chunk 8 10256));
      [discriminate|vm_compute; reflexivity|apply chain_end].
  - vm_compute. reflexivity.
  - vm_compute. discriminate.
Qed.

(** C2 as stated fails: with [num_free] at THRESHOLD, arena_clear(a) on an
    arena whose [prev] is the chunk 65592 returns, and the chunk is still a
    live block of the system allocator, still the base of the arena and
    still the head of the free list. *)
Lemma overflow_chunk_is_kept :
  let calls := [call_init; call_malloc 2 handle 5000; call_clear 2 handle;
                call_clear 12 handle] in
  let s := after_calls lp64 calls boot in
  let s' := after_calls lp64 (calls ++ [call_clear 2 handle]) boot in
  run_calls lp64 calls boot = Some s ∧
  num_free s = THRESHOLD ∧
  heap s !! handle = Some (Arena 3 chunk 60600 80840 chunk 5000 15248) ∧
  heap s !! chunk = Some (Arena 1 0 65600 80840 chunk 0 15248) ∧
  arena_clear lp64 2 handle s = Ret tt s' ∧
  blocks s' !! chunk = Some 15248 ∧
  free_list s' = chunk ∧
  heap s' !! handle = Some (Arena 3 0 65600 80840 chunk 0 15248).
Proof. split_and!; vm_compute; reflexivity. Qed.

(** C4 as stated fails for a request near LONG_MAX: the rounding wraps to
    LONG_MIN, the request "fits", and [malloc_arena] returns the old [avail]
    and moves [avail] back by 2^63. *)
Lemma rounding_wraps :
  round_request lp64 LONG_MAX = LONG_MIN ∧
  ¬ (LONG_MAX ≤ round_request lp64 LONG_MAX) ∧
  returns
    ((do a <- arena_init lp64;
      malloc_arena lp64 2 a 8;;
      do before <- field a avail;
      do p <- malloc_arena lp64 2 a LONG_MAX;
      do after <- field a avail;
      ret (before, p, after)) boot)
    (λ v _, v = (65608, 65608, 65608 - 2 ^ 63)).
Proof.
  split; [vm_compute; reflexivity|]. split; [vm_compute; by intros H|].
  vm_compute. reflexivity.
Qed.


(** ** The theorems at concrete inputs *)

(** C10 on a chunk record, whose tag is RAII_ARENA alone. *)
Lemma empty_handle_is_inert_witness :
  let s := after_calls lp64 [call_init; call_malloc 2 handle 8] boot in
  arena_capacity lp64 chunk s = Ret 0 s ∧
  arena_total lp64 chunk s = Ret 0 s ∧
  arena_free lp64 0 s = Ret tt s ∧
  ∀ fuel, arena_clear lp64 fuel 0 s = Ret tt s.
Proof.
  apply (empty_handle_is_inert lp64 chunk
           (after_calls lp64 [call_init; call_malloc 2 handle 8] boot)).
  right. exists (Arena 1 0 0 0 chunk 0 10256).
  split; [vm_compute; reflexivity|vm_compute; discriminate].
Defined.



(** C6 on a fresh arena when the next answer of the allocator is a failure. *)
Lemma allocation_failure_raises_witness :
  let s := after_calls lp64 [call_init] boot_failing in
  arena_init lp64 s = Throw out_of_memory (set_oracle [] s) ∧
  raises (malloc_arena lp64 1 handle 8 s) out_of_memory
    (λ s', oracle s' = [] ∧ blocks s' = blocks s ∧ free_list s' = 0).
Proof.
  intros s.
  destruct (allocation_failure_raises lp64 0 handle 8 s
              (Arena 3 0 0 0 0 0 0) []) as (Hinit & Hmalloc & _);
    [| | | | | | |by split].
  - vm_compute. reflexivity.
  - discriminate.
  - split; [vm_compute; reflexivity|eexists; vm_compute; reflexivity].
  - right. reflexivity.
  - vm_compute. reflexivity.
  - vm_compute. reflexivity.
  - left. reflexivity.
Defined.

(** C4 in its three cases. *)
Lemma malloc_arena_policy_witness :
  (* the request fits *)
  (let s := after_calls lp64 [call_init; call_malloc 2 handle 8] boot in
   ∃ s', malloc_arena lp64 0 handle 100 s = Ret 65608 s' ∧
         heap s' !! handle = Some (Arena 3 chunk 65712 75848 chunk 104 10256)) ∧
  (* the free list has a chunk *)
  (let s := after_calls lp64 [call_init; call_malloc 2 handle 8;
                              call_clear 2 handle] boot in
   returns (acquire_chunk lp64 handle 104 s) (λ _ s',
     free_list s' = 0 ∧ blocks s' = blocks s ∧ oracle s' = oracle s ∧
     ∃ r', heap s' !! handle = Some r' ∧ avail r' = chunk + 8 ∧
           limit r' = 0 ∧ prev r' = chunk)) ∧
  (* the free list is empty *)
  (let s := after_calls lp64 [call_init] boot in
   returns (malloc_arena lp64 1 handle 100 s) (λ p s',
     ∃ r', heap s' !! handle = Some r' ∧
           total r' = 0 + (104 + (8 + THRESHOLD * 1024)) ∧
           blocks s' !! base r' = Some (total r') ∧
           p = base r' + 8 ∧ avail r' = p + 104 ∧
           limit r' = base r' + total r')).
Proof.
  split; [|split].
  - intros s.
    destruct (malloc_arena_policy lp64 0 handle 100 s
                (Arena 3 chunk 65608 75848 chunk 8 10256))
      as (_ & Hfit & _).
    + reflexivity.
    + reflexivity.
    + vm_compute. discriminate.
    + discriminate.
    + split; [vm_compute; reflexivity|eexists; vm_compute; reflexivity].
    + right. exists (Arena 1 0 0 0 chunk 0 10256).
      split; [vm_compute; reflexivity|eexists; vm_compute; reflexivity].
    + discriminate.
    + right. eexists. vm_compute. reflexivity.
    + apply allocator_ok_decide. vm_compute. reflexivity.
    + vm_compute. discriminate.
    + destruct Hfit as (s' & E & Hr & _); [vm_compute; discriminate|].
      exists s'. split; [exact E|exact Hr].
  - intros s.
    destruct (malloc_arena_policy lp64 0 handle 100 s
                (Arena 3 chunk 65600 75848 chunk 8 10256))
      as (_ & _ & _ & Hpop & _).
    + reflexivity.
    + reflexivity.
    + vm_compute. discriminate.
    + discriminate.
    + split; [vm_compute; reflexivity|eexists; vm_compute; reflexivity].
    + right. exists (Arena 1 0 0 0 chunk 0 10256).
      split; [vm_compute; reflexivity|eexists; vm_compute; reflexivity].
    + discriminate.
    + right. eexists. vm_compute. reflexivity.
    + apply allocator_ok_decide. vm_compute. reflexivity.
    + vm_compute. discriminate.
    + apply (Hpop (Arena 1 0 0 0 chunk 0 10256)).
      * vm_compute. discriminate.
      * split; [vm_compute; reflexivity|eexists; vm_compute; reflexivity].
  - intros s.
    destruct (malloc_arena_policy lp64 0 handle 100 s (Arena 3 0 0 0 0 0 0))
      as (_ & _ & _ & _ & Hgrow).
    + reflexivity.
    + reflexivity.
    + vm_compute. discriminate.
    + discriminate.
    + split; [vm_compute; reflexivity|eexists; vm_compute; reflexivity].
    + left. reflexivity.
    + discriminate.
    + left. reflexivity.
    + apply allocator_ok_decide. vm_compute. reflexivity.
    + vm_compute. discriminate.
    + apply Hgrow.
      * vm_compute. reflexivity.
      * reflexivity.
      * vm_compute. split_and!; (discriminate || reflexivity).
      * vm_compute. discriminate.
Defined.

(** C1 after one allocation and one clear. *)
Lemma free_list_bounded_witness :
  let s := after_calls lp64 [call_init; call_malloc 2 handle 8;
                             call_clear 2 handle] boot in
  num_free s ≤ THRESHOLD ∧
  Z.of_nat (length [chunk]) ≤ THRESHOLD ∧
  (THRESHOLD ≤ num_free s →
   ensures (retire_chunk lp64 handle s)
     (λ s', free_list s' = free_list s ∧ num_free s' = num_free s)).
Proof.
  apply (free_list_bounded lp64
           (after_calls lp64 [call_init; call_malloc 2 handle 8;
                              call_clear 2 handle] boot)
           [chunk] handle).
  - apply after_calls_reachable. eexists. vm_compute. reflexivity.
  - eapply chain_link; [discriminate|vm_compute; reflexivity|]. apply chain_end.
Defined.

(** C2 once the counter has reached THRESHOLD. *)
Lemma arena_clear_frees_nothing_witness :
  let s := after_calls lp64 [call_init; call_malloc 2 handle 5000;
                             call_clear 2 handle; call_clear 12 handle] boot in
  ensures (arena_clear lp64 2 handle s)
    (λ s', mem s' = mem s ∧ blocks s' = blocks s ∧ brk s' = brk s ∧
           oracle s' = oracle s) ∧
  retire_chunk lp64 handle s =
    Ret tt (set_heap (<[handle := Arena 3 0 65600 80840 chunk 0 15248]> (heap s)) s).
Proof.
  apply (arena_clear_frees_nothing lp64 2 handle
           (after_calls lp64 [call_init; call_malloc 2 handle 5000;
                              call_clear 2 handle; call_clear 12 handle] boot)
           (Arena 3 chunk 60600 80840 chunk 5000 15248)).
  - vm_compute. discriminate.
  - split; [vm_compute; reflexivity|eexists; vm_compute; reflexivity].
Defined.
(** ** The timed waits of the thread shim *)

Lemma quot_rem_1000000 (a : Z) :
  a = 1000000 * (a ÷ 1000000) + Z.rem a 1000000 ∧
  (0 ≤ a → 0 ≤ Z.rem a 1000000 < 1000000) ∧
  (a ≤ 0 → -1000000 < Z.rem a 1000000 ≤ 0).
Proof.
  split_and!.
  - apply Z.quot_rem'.
  - intros Ha. apply Z.rem_bound_pos; lia.
  - intros Ha. rewrite <- (Z.opp_involutive a) at 1 2.
    rewrite Z.rem_opp_l by lia.
    pose proof (Z.rem_bound_pos (- a) 1000000). lia.
Qed.

Lemma deadline_not_passed cur ts :
  deadline_passed cur ts = false →
  tv_sec cur ≤ tv_sec ts ∧ (tv_sec cur = tv_sec ts → tv_nsec cur < tv_nsec ts).
Proof.
  unfold deadline_passed. intros Hd.
  apply orb_false_iff in Hd as [H1 H2].
  destruct (Z.gtb_spec (tv_sec cur) (tv_sec ts)); [done|]. split; [lia|].
  intros E. rewrite E, Z.eqb_refl in H2. simpl in H2.
  destruct (Z.geb_spec (tv_nsec cur) (tv_nsec ts)); [done|lia].
Qed.

Section ShimFacts.

Variable H : host.

(** The turns of the polling loop that go on to the next one: the mutex is
    busy and the clock reads a time before the deadline. *)
Lemma mtx_timedlock_poll_skips ts before env :
  Forall (λ p, trylock p = EBUSY H ∧
               ∃ c, clock p = Some c ∧ deadline_passed c ts = false) before →
  mtx_timedlock_poll H ts (before ++ env) = mtx_timedlock_poll H ts env.
Proof.
  induction 1 as [|p before (Ht & c & Hc & Hd) _ IH]; [done|].
  simpl. by rewrite Ht, Z.eqb_refl, Hc, Hd.
Qed.

Lemma poll_status_timedout rc :
  ETIMEDOUT H ≠ 0 → EBUSY H ≠ 0 →
  poll_status H rc = thrd_timedout ↔ rc = ETIMEDOUT H ∨ rc = EBUSY H.
Proof.
  intros Ht Hb. unfold poll_status.
  destruct (Z.eqb_spec rc 0) as [->|_].
  { split; [done|]. intros [?|?]; congruence. }
  destruct (Z.eqb_spec rc (ETIMEDOUT H)), (Z.eqb_spec rc (EBUSY H)); simpl;
    split; auto; try done. intros [?|?]; congruence.
Qed.

(** The polling loop ends in [thrd_timedout] at the first turn that does
    not go on, and only when that turn finds the mutex busy at or past the
    deadline or pthread_mutex_trylock itself answers ETIMEDOUT. *)
Lemma mtx_timedlock_poll_timedout ts env :
  ETIMEDOUT H ≠ 0 → EBUSY H ≠ 0 →
  mtx_timedlock_poll H ts env = Some thrd_timedout ↔
  ∃ before p rest,
    env = before ++ p :: rest ∧
    Forall (λ q, trylock q = EBUSY H ∧
                 ∃ c, clock q = Some c ∧ deadline_passed c ts = false) before ∧
    ((trylock p = EBUSY H ∧
      ∃ cur, clock p = Some cur ∧ deadline_passed cur ts = true) ∨
     (trylock p ≠ EBUSY H ∧ trylock p = ETIMEDOUT H)).
Proof.
  intros Ht Hb. split.
  - induction env as [|p env IH]; [done|]. simpl.
    destruct (Z.eqb_spec (trylock p) (EBUSY H)) as [E|E].
    + destruct (clock p) as [cur|] eqn:Hc; [|done].
      destruct (deadline_passed cur ts) eqn:Hd.
      * intros _. exists [], p, env. split; [done|]. split; [constructor|].
        left. eauto.
      * intros Hr. destruct (IH Hr) as (before & q & rest & -> & Hbefore & Hq).
        exists (p :: before), q, rest. split; [done|]. split; [|done].
        constructor; eauto.
    + intros [= Hr]. apply poll_status_timedout in Hr as [Hr|Hr]; try done.
      exists [], p, env. split; [done|]. split; [constructor|]. by right.
  - intros (before & p & rest & -> & Hbefore & Hp).
    rewrite mtx_timedlock_poll_skips by done. simpl.
    destruct Hp as [(E & cur & Hc & Hd)|(Hne & E)].
    + rewrite E, Z.eqb_refl, Hc, Hd. f_equal.
      apply poll_status_timedout; auto.
    + destruct (Z.eqb_spec (trylock p) (EBUSY H)); [done|]. f_equal.
      apply poll_status_timedout; auto.
Qed.

(** The timeout the Win32 mtx_timedlock computes, for normalised times and
    a deadline less than 2^32 ms ahead: 0 once the deadline has passed,
    and otherwise more than the time left by at most two milliseconds. *)
Lemma timeout_ms_time_left (cur ts : timespec) :
  0 ≤ tv_nsec cur < 10 ^ 9 → 0 ≤ tv_nsec ts < 10 ^ 9 →
  (tv_sec ts - tv_sec cur) * 1000 + 1000 < 2 ^ 32 →
  let left := (tv_sec ts - tv_sec cur) * 10 ^ 9 + (tv_nsec ts - tv_nsec cur) in
  if deadline_passed cur ts then left ≤ 0 ∧ timeout_ms cur ts = 0
  else 0 < left ∧ left < timeout_ms cur ts * 10 ^ 6 ≤ left + 2 * 10 ^ 6.
Proof.
  intros Hc Ht Hrange left. destruct (deadline_passed cur ts) eqn:Hd.
  - unfold timeout_ms. rewrite Hd. split; [|done].
    unfold deadline_passed in Hd. apply orb_true_iff in Hd as [Hd|Hd].
    + apply Z.gtb_lt in Hd. subst left. lia.
    + apply andb_true_iff in Hd as [E Hn]. apply Z.eqb_eq in E.
      apply Z.geb_le in Hn. subst left. lia.
  - unfold timeout_ms. rewrite Hd.
    destruct (deadline_not_passed cur ts Hd) as [Hs Hn].
    set (ds := tv_sec ts - tv_sec cur) in *.
    set (dn := tv_nsec ts - tv_nsec cur) in *.
    destruct (quot_rem_1000000 dn) as (Eq & Hpos & Hneg).
    set (q := dn ÷ 1000000) in *. set (m := Z.rem dn 1000000) in *.
    assert (Hq : -1000 < q < 1000) by lia.
    assert (Hq0 : ds = 0 → 0 ≤ q) by (intros E; subst ds; lia).
    unfold DWORD. rewrite (Z.mod_small ds) by lia.
    rewrite (Z.mod_small (ds * 1000)) by lia.
    rewrite (Z.mod_small (ds * 1000 + q)) by lia.
    rewrite (Z.mod_small (ds * 1000 + q + 1)) by lia.
    subst left. lia.
Qed.

(** The timeout the Win32 cnd_timedwait computes, under the same
    conditions: within a millisecond of the time left, and 0 when no whole
    millisecond lies between the clock and the deadline. *)
Lemma cnd_delta_time_left (now ts : timespec) :
  0 ≤ tv_sec now < 2 ^ 50 → 0 ≤ tv_sec ts < 2 ^ 50 →
  0 ≤ tv_nsec now < 10 ^ 9 → 0 ≤ tv_nsec ts < 10 ^ 9 →
  (tv_sec ts - tv_sec now) * 1000 + 1000 < 2 ^ 32 →
  let left := (tv_sec ts - tv_sec now) * 10 ^ 9 + (tv_nsec ts - tv_nsec now) in
  Z.max left 0 - 10 ^ 6 < cnd_delta now ts * 10 ^ 6 < Z.max left 0 + 10 ^ 6.
Proof.
  intros Hsn Hst Hn Ht Hr32 left. unfold cnd_delta, ULL, DWORD.
  destruct (quot_rem_1000000 (tv_nsec now)) as (En & Hpn & _).
  destruct (quot_rem_1000000 (tv_nsec ts)) as (Et & Hpt & _).
  set (qn := tv_nsec now ÷ 1000000) in *. set (qt := tv_nsec ts ÷ 1000000) in *.
  set (rn := Z.rem (tv_nsec now) 1000000) in *.
  set (rt := Z.rem (tv_nsec ts) 1000000) in *.
  assert (0 ≤ qn < 1000) by lia. assert (0 ≤ qt < 1000) by lia.
  rewrite (Z.mod_small (tv_sec now * 1000 + qn)) by lia.
  rewrite (Z.mod_small (tv_sec ts * 1000 + qt)) by lia.
  destruct (Z.gtb_spec (tv_sec ts * 1000 + qt) (tv_sec now * 1000 + qn)).
  - rewrite Z.mod_small by lia. subst left. lia.
  - subst left. lia.
Qed.

(** C8. The timed waits take the absolute deadline [ts] and leave the
    waiting to the operating system.  The POSIX builds hand [ts] on as it
    is; the Win32 builds hand on the time left as a timeout in
    milliseconds, which for normalised times and a deadline less than 2^32
    ms ahead exceeds the time left by at most 2 ms (mtx_timedlock) or is
    within 1 ms of it (cnd_timedwait) and is 0 once the deadline has
    passed.  Each function returns [thrd_timedout] exactly when that wait
    reports a timeout, ETIMEDOUT or WAIT_TIMEOUT (for the Win32
    mtx_timedlock on a mutex created with mtx_timed and with a clock that
    can be read); the polling build returns it exactly when the first turn
    that does not go on finds the mutex busy at or past the deadline, or
    gets ETIMEDOUT from the trylock.  When the Win32 wait is granted on a
    mutex that is not recursive and has its flag set, mtx_timedlock does
    not return.  [thrd_timedout] is none of [thrd_success], [thrd_busy],
    [thrd_nomem] and [thrd_error]. *)
Theorem timed_waits_report_timeout :
  ETIMEDOUT H ≠ 0 → EBUSY H ≠ 0 → WAIT_TIMEOUT H ≠ WAIT_OBJECT_0 H →
  (∀ lock ts,
     mtx_timedlock_posix H lock ts = thrd_timedout ↔ lock ts = ETIMEDOUT H) ∧
  (∀ wait ts,
     cnd_timedwait_posix H wait ts = thrd_timedout ↔ wait ts = ETIMEDOUT H) ∧
  (∀ ts env,
     mtx_timedlock_poll H ts env = Some thrd_timedout ↔
     ∃ before p rest,
       env = before ++ p :: rest ∧
       Forall (λ q, trylock q = EBUSY H ∧
                    ∃ c, clock q = Some c ∧ deadline_passed c ts = false) before ∧
       ((trylock p = EBUSY H ∧
         ∃ cur, clock p = Some cur ∧ deadline_passed cur ts = true) ∨
        (trylock p ≠ EBUSY H ∧ trylock p = ETIMEDOUT H))) ∧
  (∀ mtx cur ts wait, mTimed mtx = true →
     (wait (timeout_ms cur ts) = WAIT_TIMEOUT H →
      mtx_timedlock_win32 H mtx (Some cur) ts wait = Some (thrd_timedout, mtx)) ∧
     (∀ m, mtx_timedlock_win32 H mtx (Some cur) ts wait = Some (thrd_timedout, m) →
           wait (timeout_ms cur ts) = WAIT_TIMEOUT H) ∧
     (wait (timeout_ms cur ts) = WAIT_OBJECT_0 H →
      mRecursive mtx = false → mAlreadyLocked mtx = true →
      mtx_timedlock_win32 H mtx (Some cur) ts wait = None)) ∧
  (∀ cond now ts wait reset,
     (cnd_timedwait_win32 H cond (Some now) ts wait reset).1 = thrd_timedout ↔
     wait (cnd_delta now ts) = WAIT_TIMEOUT H) ∧
  (∀ cur ts,
     0 ≤ tv_sec cur < 2 ^ 50 → 0 ≤ tv_sec ts < 2 ^ 50 →
     0 ≤ tv_nsec cur < 10 ^ 9 → 0 ≤ tv_nsec ts < 10 ^ 9 →
     (tv_sec ts - tv_sec cur) * 1000 + 1000 < 2 ^ 32 →
     let left := (tv_sec ts - tv_sec cur) * 10 ^ 9 + (tv_nsec ts - tv_nsec cur) in
     (if deadline_passed cur ts then left ≤ 0 ∧ timeout_ms cur ts = 0
      else 0 < left ∧ left < timeout_ms cur ts * 10 ^ 6 ≤ left + 2 * 10 ^ 6) ∧
     Z.max left 0 - 10 ^ 6 < cnd_delta cur ts * 10 ^ 6 < Z.max left 0 + 10 ^ 6) ∧
  thrd_timedout ≠ thrd_success ∧ thrd_timedout ≠ thrd_busy ∧
  thrd_timedout ≠ thrd_nomem ∧ thrd_timedout ≠ thrd_error.
Proof.
  intros Ht Hb Hw. split_and!; try discriminate.
  - intros lock ts. unfold mtx_timedlock_posix.
    destruct (Z.eqb_spec (lock ts) 0) as [E|_].
    { split; [done|]. intros E'. congruence. }
    destruct (Z.eqb_spec (lock ts) (ETIMEDOUT H)); by split.
  - intros wait ts. unfold cnd_timedwait_posix.
    destruct (Z.eqb_spec (wait ts) (ETIMEDOUT H)); [by split|].
    destruct (wait ts =? 0); by split.
  - intros ts env. by apply mtx_timedlock_poll_timedout.
  - intros mtx cur ts wait Hm. unfold mtx_timedlock_win32. rewrite Hm. simpl.
    split_and!.
    + intros E. rewrite E.
      destruct (Z.eqb_spec (WAIT_TIMEOUT H) (WAIT_OBJECT_0 H)); [done|].
      by rewrite Z.eqb_refl.
    + intros m.
      destruct (Z.eqb_spec (wait (timeout_ms cur ts)) (WAIT_OBJECT_0 H)).
      { destruct (mRecursive mtx), (mAlreadyLocked mtx); simpl; done. }
      destruct (Z.eqb_spec (wait (timeout_ms cur ts)) (WAIT_TIMEOUT H)); done.
    + intros E Hr Hl. rewrite E, Z.eqb_refl, Hr, Hl. reflexivity.
  - intros cond now ts wait reset.
    unfold cnd_timedwait_win32, _cnd_timedwait_win32.
    destruct (Z.eqb_spec (wait (cnd_delta now ts)) (WAIT_TIMEOUT H)); [by split|].
    split; [|done].
    destruct (wait (cnd_delta now ts) =? WAIT_FAILED H); [done|].
    match goal with |- context [if ?b then _ else _] => destruct b end;
      [destruct (reset =? 0)|]; done.
  - intros cur ts Hsc Hst Hc Hts Hr left. split.
    + by apply timeout_ms_time_left.
    + by apply cnd_delta_time_left.
Qed.

End ShimFacts.

(** C8 as stated fails on Win32.  A deadline 4294967.294 s ahead makes the
    timeout [INFINITE]: a wait that does not time out at [INFINITE] never
    yields [thrd_timedout], however long the mutex stays locked.  And on a
    mutex that is not recursive and is locked by the caller, the wait is
    granted and mtx_timedlock spins on the flag, although the deadline has
    passed already. *)
Lemma timed_wait_outlasts_deadline :
  let now := Timespec 0 0 in
  let ts := Timespec 4294967 294000000 in
  deadline_passed now ts = false ∧
  timeout_ms now ts = INFINITE ∧
  (∀ wait m, wait INFINITE ≠ WAIT_TIMEOUT a_host →
     mtx_timedlock_win32 a_host (Mtx false false true) (Some now) ts wait
       ≠ Some (thrd_timedout, m)) ∧
  deadline_passed (Timespec 10 0) (Timespec 5 0) = true ∧
  mtx_timedlock_win32 a_host (Mtx true false true) (Some (Timespec 10 0))
    (Timespec 5 0) (λ _, WAIT_OBJECT_0 a_host) = None.
Proof.
  intros now ts. split_and!; try reflexivity.
  intros wait m Hw. unfold mtx_timedlock_win32. cbn [mTimed negb].
  change (timeout_ms now ts) with INFINITE.
  destruct (Z.eqb_spec (wait INFINITE) (WAIT_OBJECT_0 a_host)); [done|].
  destruct (Z.eqb_spec (wait INFINITE) (WAIT_TIMEOUT a_host)); done.
Qed.

(** C8 on a host with ETIMEDOUT = 110, EBUSY = 16 and WAIT_TIMEOUT = 258:
    every build reports the timeout the wait ended with, and a timed mutex
    that the wait obtains is not reported as timed out. *)
Lemma timed_waits_report_timeout_witness :
  mtx_timedlock_posix a_host (λ _, 110) (Timespec 5 0) = thrd_timedout ∧
  cnd_timedwait_posix a_host (λ _, 110) (Timespec 5 0) = thrd_timedout ∧
  mtx_timedlock_poll a_host (Timespec 5 0)
    [Poll 16 (Some (Timespec 4 999000000)); Poll 16 (Some (Timespec 5 1000))]
    = Some thrd_timedout ∧
  mtx_timedlock_win32 a_host (Mtx false false true) (Some (Timespec 4 0))
    (Timespec 5 0) (λ _, 258) = Some (thrd_timedout, Mtx false false true) ∧
  (cnd_timedwait_win32 a_host (Cnd 0) (Some (Timespec 4 0)) (Timespec 5 0)
     (λ _, 258) 1).1 = thrd_timedout ∧
  (cnd_timedwait_win32 a_host (Cnd 0) (Some (Timespec 4 0)) (Timespec 5 0)
     (λ _, 0) 1).1 ≠ thrd_timedout ∧
  timeout_ms (Timespec 4 0) (Timespec 5 0) = 1001 ∧
  cnd_delta (Timespec 4 0) (Timespec 5 0) = 1000.
Proof.
  destruct (timed_waits_report_timeout a_host)
    as (H1 & H2 & H3 & H4 & H5 & _).
  - discriminate.
  - discriminate.
  - discriminate.
  - split_and!.
    + by apply H1.
    + by apply H2.
    + apply H3. exists [Poll 16 (Some (Timespec 4 999000000))],
        (Poll 16 (Some (Timespec 5 1000))), [].
      split; [reflexivity|]. split.
      * repeat constructor. by exists (Timespec 4 999000000).
      * left. split; [reflexivity|]. by exists (Timespec 5 1000).
    + by apply (H4 (Mtx false false true) (Timespec 4 0) (Timespec 5 0) (λ _, 258)).
    + by apply H5.
    + intros E. apply H5 in E. discriminate E.
    + reflexivity.
    + reflexivity.
Defined.

(** * Beyond the stated properties *)

(** ** Rules for [halts] *)

Lemma halts_mono {A} (o : outcome A) (Q Q' : A → state → Prop) :
  halts o Q → (∀ a s, Q a s → Q' a s) → halts o Q'.
Proof. destruct o; simpl; auto. Qed.

Lemma halts_bind {A B} (m : M A) (k : A → M B) s Q :
  halts (m s) (λ a s1, halts (k a s1) Q) → halts (bind m k s) Q.
Proof. unfold bind. destruct (m s); simpl; auto. Qed.

Lemma halts_ret {A} (a : A) s (Q : A → state → Prop) : Q a s → halts (ret a s) Q.
Proof. auto. Qed.

Lemma halts_get {A} (f : state → A) s (Q : A → state → Prop) :
  Q (f s) s → halts (get f s) Q.
Proof. auto. Qed.

Lemma halts_update f s (Q : unit → state → Prop) :
  Q tt (f s) → halts (update f s) Q.
Proof. auto. Qed.

Lemma halts_load p s (Q : arena_s → state → Prop) :
  (∀ r, heap s !! p = Some r → Q r s) → halts (load p s) Q.
Proof. intros H. unfold load. destruct (heap s !! p); simpl; auto. Qed.

Lemma halts_field p f s (Q : Z → state → Prop) :
  (∀ r, heap s !! p = Some r → Q (f r) s) → halts (field p f s) Q.
Proof.
  intros H. unfold field. apply halts_bind, halts_load. intros r Hr.
  apply halts_ret. auto.
Qed.

Lemma halts_store p r s (Q : unit → state → Prop) :
  (is_Some (blocks s !! p) → Q tt (set_heap (<[p := r]> (heap s)) s)) →
  halts (store p r s) Q.
Proof. intros H. unfold store. destruct (blocks s !! p) eqn:Hb; simpl; eauto. Qed.

Lemma halts_assign p f v s (Q : unit → state → Prop) :
  (∀ r, heap s !! p = Some r → is_Some (blocks s !! p) →
        Q tt (set_heap (<[p := f v r]> (heap s)) s)) →
  halts (assign p f v s) Q.
Proof.
  intros H. unfold assign. apply halts_bind, halts_load. intros r Hr.
  apply halts_store. auto.
Qed.

Lemma halts_is_type p t s (Q : bool → state → Prop) :
  (p = 0 → Q false s) →
  (∀ r, p ≠ 0 → heap s !! p = Some r → Q (type r =? t) s) →
  halts (is_type p t s) Q.
Proof.
  intros H0 H1. unfold is_type, is_empty.
  destruct (Z.eqb_spec p 0); [by apply halts_ret, H0|].
  apply halts_bind, halts_field. intros r Hr. apply halts_ret. auto.
Qed.

Lemma halts_finishes {A} (o : outcome A) Q : halts o Q → o ≠ OutOfFuel.
Proof. by destruct o. Qed.

Lemma bind_undef {A B} (m : M A) (k : A → M B) s :
  m s = Undef → bind m k s = Undef.
Proof. unfold bind. by intros ->. Qed.

(** One step of a run that is shown not to run out of fuel. *)
Ltac hstep :=
  lazymatch goal with
  | |- halts (bind _ _ _) _ => apply halts_bind; hstep
  | |- halts (get _ _) _ => apply halts_get
  | |- halts (update _ _) _ => apply halts_update
  | |- halts (ret _ _) _ => apply halts_ret
  | |- halts (throw _ _) _ => exact I
  | |- halts (undef _) _ => exact I
  | |- halts (field _ _ _) _ => apply halts_field; intros ? ?
  | |- halts (load _ _) _ => apply halts_load; intros ? ?
  | |- halts (assign _ _ _ _) _ => apply halts_assign; intros ? ? ?
  | |- halts (store _ _ _) _ => apply halts_store; intros ?
  end; cbv beta; mnorm;
  cbn [heap mem blocks brk oracle free_list num_free
       set_heap set_mem set_free_list set_num_free set_oracle] in *.

Section ArenaMore.

Variable P : platform.

(** ** [arena_clear] terminates *)

Lemma linked_le_size (h : gmap Z arena_s) : (linked h ≤ size h)%nat.
Proof. apply map_size_filter. Qed.

Lemma linked_unlink (h : gmap Z arena_s) p r x :
  h !! p = Some r → prev r ≠ 0 → prev x = 0 →
  S (linked (<[p := x]> h)) = linked h.
Proof.
  intros Hp Hr Hx. unfold linked.
  rewrite map_filter_insert_False by (simpl; lia).
  rewrite map_filter_delete.
  assert (Hin : filter (λ kv : Z * arena_s, prev kv.2 ≠ 0) h !! p = Some r)
    by by apply map_lookup_filter_Some.
  rewrite map_size_delete_Some by eauto.
  assert (size (filter (λ kv : Z * arena_s, prev kv.2 ≠ 0) h) ≠ 0%nat); [|lia].
  apply map_size_ne_0_lookup_2 with p. eauto.
Qed.

(** What one turn of the loop of [arena_clear] does to the two quantities
    that bound it: a push raises [num_free], a reset cuts a link. *)
Lemma retire_chunk_measure arena s r :
  heap s !! arena = Some r → prev r ≠ 0 →
  halts (retire_chunk P arena s) (λ _ s',
    size (heap s') = size (heap s) ∧
    (num_free s < THRESHOLD → num_free s' = num_free s + 1) ∧
    (THRESHOLD ≤ num_free s →
     num_free s' = num_free s ∧ S (linked (heap s')) = linked (heap s))).
Proof.
  intros Hr Hp. unfold retire_chunk. hstep.
  destruct (Z.ltb_spec (num_free s) THRESHOLD) as [Hlt|Hge].
  - repeat hstep.
    destruct (is_zero _); repeat hstep;
      (rewrite !map_size_insert_Some by eauto; split_and!; [done|done|lia]).
  - repeat hstep. split_and!.
    + apply map_size_insert_Some. eauto.
    + lia.
    + intros _. split; [done|]. eapply linked_unlink; [exact Hr|exact Hp|done].
Qed.

Lemma arena_clear_loop_halts fuel : ∀ arena s,
  (num_free s < THRESHOLD →
   (Z.to_nat (THRESHOLD - num_free s) + size (heap s) ≤ fuel)%nat) →
  (THRESHOLD ≤ num_free s → (linked (heap s) ≤ fuel)%nat) →
  halts (arena_clear_loop P fuel arena s) (λ _ _, True).
Proof.
  induction fuel as [|fuel IH]; intros arena s Hlow Hhigh; simpl.
  - apply halts_bind, halts_field. intros r Hr. apply halts_bind.
    destruct (Z.eqb_spec (prev r) 0) as [E|Hp]; simpl; [done|].
    apply halts_is_type; [done|]. intros rc _ Hrc.
    destruct (type rc =? RAII_ARENA P); [|done]. simpl.
    destruct (Z.lt_ge_cases (num_free s) THRESHOLD) as [Hlt|Hge].
    + specialize (Hlow Hlt). lia.
    + specialize (Hhigh Hge).
      pose proof (linked_unlink (heap s) arena r (with_prev 0 r) Hr Hp eq_refl).
      lia.
  - apply halts_bind, halts_field. intros r Hr. apply halts_bind.
    destruct (Z.eqb_spec (prev r) 0) as [E|Hp]; simpl; [done|].
    apply halts_is_type; [done|]. intros rc _ Hrc.
    destruct (type rc =? RAII_ARENA P); [|done].
    apply halts_bind. eapply halts_mono; [by eapply retire_chunk_measure|].
    cbv beta. intros _ s1 (Hsz & Hpush & Hreset).
    apply IH.
    + intros Hlt1. destruct (Z.lt_ge_cases (num_free s) THRESHOLD) as [Hlt|Hge].
      * specialize (Hlow Hlt). rewrite (Hpush Hlt) in *. rewrite Hsz. lia.
      * destruct (Hreset Hge) as [E _]. lia.
    + intros Hge1. destruct (Z.lt_ge_cases (num_free s) THRESHOLD) as [Hlt|Hge].
      * specialize (Hlow Hlt). pose proof (linked_le_size (heap s1)). lia.
      * destruct (Hreset Hge) as [_ E]. specialize (Hhigh Hge). lia.
Qed.

(** X1. [arena_clear] terminates in every state, whatever the links
    between the objects: its loop runs at most THRESHOLD - num_free times
    pushing a chunk and then at most once per object cutting a link. *)
Theorem arena_clear_terminates (fuel : nat) (arena : Z) (s : state) :
  (Z.to_nat (THRESHOLD - num_free s) + size (heap s) ≤ fuel)%nat →
  arena_clear P fuel arena s ≠ OutOfFuel.
Proof.
  intros Hfuel. unfold arena_clear. destruct (is_empty arena); [done|].
  apply halts_finishes with (λ _ _, True). apply arena_clear_loop_halts.
  - intros _. exact Hfuel.
  - intros _. pose proof (linked_le_size (heap s)). lia.
Qed.

End ArenaMore.

Section ArenaLoop.

Variable P : platform.

(** ** The loop of [malloc_arena] runs at most twice *)

Lemma halts_wlp {A} (o : outcome A) (Q Q' : A → state → Prop) E :
  halts o Q → wlp o Q' E → halts o (λ a s, Q a s ∧ Q' a s).
Proof. destruct o; simpl; auto. Qed.

Lemma halts_assert c s (Q : unit → state → Prop) :
  Q tt s → halts (RAII_ASSERT P c s) Q.
Proof. intros HQ. unfold RAII_ASSERT. by destruct (assertions P && negb c). Qed.

Lemma halts_capacity arena s (Q : Z → state → Prop) :
  (∀ c, Q c s) → halts (arena_capacity P arena s) Q.
Proof.
  intros HQ. unfold arena_capacity. destruct (negb (is_empty arena)); [|apply HQ].
  apply halts_bind, halts_is_type.
  - intros _. apply HQ.
  - intros r _ _. destruct (type r =? _); [|apply HQ].
    repeat hstep. apply HQ.
Qed.

Lemma halts_total arena s (Q : Z → state → Prop) :
  (∀ c, Q c s) → halts (arena_total P arena s) Q.
Proof.
  intros HQ. unfold arena_total. destruct (negb (is_empty arena)); [|apply HQ].
  apply halts_bind, halts_is_type.
  - intros _. apply HQ.
  - intros r _ _. destruct (type r =? _); [|apply HQ].
    repeat hstep. apply HQ.
Qed.

(** realloc leaves the record of the arena alone, unless it is the block
    that moves. *)
Lemma try_realloc_keeps arena p size s :
  arena ≠ brk s →
  halts (try_realloc p size s) (λ _ s',
    free_list s' = free_list s ∧ num_free s' = num_free s ∧
    ∀ r', heap s' !! arena = Some r' → heap s !! arena = Some r').
Proof.
  intros Hne. unfold try_realloc. apply halts_bind.
  unfold sys_realloc, sys_malloc.
  destruct (decide (p = 0)).
  - destruct (next_choice s) as [[] o]; simpl;
      repeat case_decide; simpl; done.
  - destruct (blocks s !! p); [|done].
    destruct (next_choice s) as [[] o]; simpl.
    + repeat case_decide; simpl; done.
    + repeat case_decide; simpl; done.
    + case_decide; simpl; [done|]. split_and!; [done..|].
      intros r'. destruct (decide (arena = p)) as [->|Hp].
      * unfold relocate. destruct (heap s !! p);
          rewrite ?lookup_insert_ne, lookup_delete_eq by done; done.
      * by rewrite relocate_lookup_ne.
Qed.

(** With an empty free list one turn of the loop grows the arena, and the
    request fits afterwards. *)
Lemma acquire_chunk_makes_room arena n s r :
  0 < sizeof_header P →
  free_list s = 0 → heap s !! arena = Some r → arena ≠ brk s →
  growth_fits P r n →
  halts (acquire_chunk P arena n s) (λ _ s',
    ∀ r', heap s' !! arena = Some r' → n ≤ limit r' - avail r').
Proof.
  intros Hh Hfl Hr Hne Hfits. unfold acquire_chunk. hstep. apply halts_bind.
  rewrite decide_False by (rewrite Hfl; auto).
  pose proof (grown_total_exact P r n Hh Hfits) as Ht.
  destruct Hfits as (Ht0 & Hn0 & _).
  unfold grow. do 4 (hstep; simplify_map_eq).
  fold (grown_total P r n).
  apply halts_bind. eapply halts_mono; [by apply try_realloc_keeps|].
  cbv beta. intros ptr s1 (_ & _ & Hkeep).
  hstep. apply Hkeep in H. simplify_map_eq.
  destruct (decide (ptr = arena)) as [->|Hp].
  - repeat (hstep; simplify_map_eq). intros r' [= <-]. simpl.
    unfold THRESHOLD in Ht. lia.
  - repeat (hstep; simplify_map_eq). intros r' [= <-]. simpl.
    unfold THRESHOLD in Ht. lia.
Qed.

(** With a chunk on the free list one turn of the loop takes it; in a state
    of an execution the list is empty afterwards. *)
Lemma acquire_chunk_takes_head arena n s r :
  free_list_ok P s → free_list s ≠ 0 → heap s !! arena = Some r →
  halts (acquire_chunk P arena n s) (λ _ s',
    free_list s' = 0 ∧ free_list_ok P s' ∧
    ∀ r', heap s' !! arena = Some r' → total r' = total r).
Proof.
  intros Hok Hfl Hr.
  eapply halts_mono.
  { eapply halts_wlp; [|by apply (acquire_chunk_inv P arena n s)].
    instantiate (1 := λ _ s', free_list s' = 0 ∧
      ∀ r', heap s' !! arena = Some r' → total r' = total r).
    unfold acquire_chunk. hstep. apply halts_bind.
    rewrite decide_True by done.
    unfold pop_free_list. hstep. hstep.
    destruct (inv_head P s r0 Hok H) as [Hprev _].
    hstep. apply halts_bind. unfold decr_num_free. hstep.
    case_decide; [done|]. hstep. hstep. hstep. simplify_map_eq.
    destruct (decide (free_list s = arena)) as [E|E].
    - rewrite E in *. repeat (hstep; simplify_map_eq).
      split; [done|]. intros r' [= <-]. done.
    - repeat (hstep; simplify_map_eq).
      split; [done|]. intros r' [= <-]. done. }
  cbv beta. intros _ s' [[? ?] ?]. done.
Qed.

Lemma malloc_arena_loop_done fuel arena n s :
  (∀ r, heap s !! arena = Some r → n ≤ limit r - avail r) →
  halts (malloc_arena_loop P fuel arena n s) (λ _ s', s' = s).
Proof.
  intros Hroom. destruct fuel; simpl.
  - hstep. hstep. rewrite H in H0. injection H0 as <-.
    specialize (Hroom r H).
    destruct (Z.gtb_spec n (limit r - avail r)); [lia|done].
  - hstep. hstep. rewrite H in H0. injection H0 as <-.
    specialize (Hroom r H).
    destruct (Z.gtb_spec n (limit r - avail r)); [lia|done].
Qed.

Lemma malloc_arena_loop_turn fuel arena n s :
  malloc_arena_loop P (S fuel) arena n s =
    (do l <- field arena limit;
     do a <- field arena avail;
     if n >? l - a
     then acquire_chunk P arena n;; malloc_arena_loop P fuel arena n
     else ret tt) s.
Proof. reflexivity. Qed.

Lemma growth_fits_total r r' n :
  total r' = total r → growth_fits P r n → growth_fits P r' n.
Proof. unfold growth_fits. by intros ->. Qed.

Lemma malloc_arena_loop_halts fuel arena n s :
  0 < sizeof_header P → free_list_ok P s →
  (∀ r, heap s !! arena = Some r → growth_fits P r n) →
  halts (malloc_arena_loop P (S (S fuel)) arena n s) (λ _ _, True).
Proof.
  intros Hh Hok Hfits.
  assert (Hbrk : ∀ t, free_list_ok P t → is_Some (heap t !! arena) → arena ≠ brk t).
  { intros t (_ & _ & _ & Hkeys & _) Hin%Hkeys. lia. }
  rewrite malloc_arena_loop_turn. hstep. hstep.
  destruct (n >? limit r - avail r0); [|done].
  apply halts_bind. destruct (decide (free_list s = 0)) as [Hfl|Hfl].
  - eapply halts_mono.
    { eapply acquire_chunk_makes_room; eauto. }
    cbv beta. intros _ s1 Hroom.
    eapply halts_mono; [by apply malloc_arena_loop_done|done].
  - eapply halts_mono.
    { by eapply acquire_chunk_takes_head. }
    cbv beta. intros _ s1 (Hfl1 & Hok1 & Htot).
    rewrite malloc_arena_loop_turn. hstep. hstep.
    destruct (n >? limit r1 - avail r2); [|done].
    apply halts_bind. eapply halts_mono.
    { eapply acquire_chunk_makes_room; eauto.
      eapply growth_fits_total; [by apply Htot|]. by apply Hfits. }
    cbv beta. intros _ s2 Hroom.
    eapply halts_mono; [by apply malloc_arena_loop_done|done].
Qed.

(** X2. In a state of an execution [malloc_arena] terminates and its loop
    runs at most twice, provided the growth of the arena's block does not
    overflow: the free list holds at most one chunk, and once the list is
    empty a single growth makes room for the request. *)
Theorem malloc_arena_terminates (fuel : nat) (arena nbytes : Z) (s : state) :
  0 < sizeof_header P → reachable P s →
  (∀ r, heap s !! arena = Some r → growth_fits P r (round_request P nbytes)) →
  (2 ≤ fuel)%nat →
  malloc_arena P fuel arena nbytes s ≠ OutOfFuel.
Proof.
  intros Hh Hreach Hfits Hfuel.
  destruct fuel as [|[|fuel]]; [lia..|].
  apply halts_finishes with (λ _ _, True).
  pose proof (reachable_inv P s Hreach) as Hok.
  unfold malloc_arena.
  apply halts_bind, halts_assert. apply halts_bind, halts_assert.
  apply halts_bind, halts_capacity. intros c.
  apply halts_bind, halts_total. intros t.
  apply halts_bind.
  assert (Hreset : halts ((if c =? t then update (set_num_free 0) else ret tt) s)
            (λ _ s1, free_list_ok P s1 ∧ heap s1 = heap s)).
  { destruct (c =? t); simpl; [|done]. split; [|done].
    apply inv_num_free; [done|]. unfold THRESHOLD. lia. }
  eapply halts_mono; [exact Hreset|]. cbv beta. intros _ s1 [Hok1 Hheap].
  apply halts_bind. eapply halts_mono.
  { apply malloc_arena_loop_halts; [done..|]. rewrite Hheap. exact Hfits. }
  cbv beta. intros _ s2 _.
  hstep. apply halts_bind.
  assert (Hprev : halts ((if negb (prev r =? 0)
                          then do b <- field arena bytes; assign (prev r) with_bytes b
                          else ret tt) s2) (λ _ _, True)).
  { destruct (negb (prev r =? 0)); [|done]. repeat hstep. done. }
  eapply halts_mono; [exact Hprev|]. cbv beta. intros _ s3 _.
  repeat hstep. done.
Qed.

End ArenaLoop.

Section ArenaGrowth.

Variable P : platform.

(** ** What a growth of the arena leaves behind *)

(** The block the arena has after a growth: the old one when realloc
    resizes it in place, a new one otherwise. *)
Lemma acquire_chunk_grows_exact (arena n : Z) (s : state) (r : arena_s)
    (c : alloc_choice) (o : list alloc_choice) :
  live s arena r → free_list s = 0 → base r ≠ arena →
  (base r = 0 ∨ is_Some (blocks s !! base r)) →
  allocator_ok s → next_choice s = (c, o) → c ≠ alloc_fail →
  let T := grown_total P r n in
  let b' := grown_base r c s in
  returns (acquire_chunk P arena n s) (λ _ s',
    heap s' !! arena =
      Some (Arena (type r) b' (b' + sizeof_header P) (b' + T) b' (bytes r) T) ∧
    heap s' !! b' =
      Some (Arena (RAII_ARENA P) (prev r) (avail r) (limit r) b' (bytes r) T) ∧
    blocks s' !! b' = Some T ∧
    is_Some (blocks s' !! arena) ∧
    (b' ≠ base r → blocks s' !! base r = None) ∧
    (∀ q, q ≠ b' → q ≠ base r → blocks s' !! q = blocks s !! q) ∧
    free_list s' = 0 ∧ num_free s' = num_free s ∧ oracle s' = o ∧
    brk s ≤ brk s' ∧ allocator_ok s').
Proof.
  intros [Hr Hb] Hfl Hba Hbase [Hbrk Hok] Hch Hc T b'.
  unfold acquire_chunk. mstep. mstep.
  destruct (decide (free_list s ≠ 0)); [done|].
  unfold grow. do 8 mstep'.
  change (to_size_t (total r + to_long (sizeof_header P + n + THRESHOLD * 1024)))
    with T.
  mstep'. mstep'.
  unfold try_realloc. mstep'. unfold sys_realloc, sys_malloc.
  change (next_choice (set_heap (<[arena:=with_total T r]> (heap s)) s))
    with (next_choice s).
  rewrite Hch. mnorm.
  assert (Hane : arena ≠ brk s) by (specialize (Hok _ Hb); lia).
  assert (Hmax : 0 < Z.max T 1) by lia.
  assert (Hnull : blocks s !! 0 = None).
  { destruct (blocks s !! 0) eqn:E; [|done].
    specialize (Hok 0 (mk_is_Some _ _ E)). lia. }
  destruct (decide (base r = 0)) as [Hb0|Hb0].
  - (* first chunk of the arena: malloc *)
    cbn [base with_total].
    destruct (decide (base r = 0)); [|done].
    assert (Eb : b' = brk s) by (subst b'; unfold grown_base; destruct c; by try case_decide).
    rewrite Eb. clearbody b' T.
    destruct c; try done.
    all: mnorm; unfold returns at 1; cbv beta iota.
    all: destruct (decide (brk s = 0)); [lia|].
    all: repeat mstep'; destruct r as [rty rpv rav rlm rbs rby rtt]; cbn in *; subst; split_and!; try done.
    all: try (by simplify_map_eq).
    all: try (intros; by simplify_map_eq).
    all: try lia.
    all: split; cbn; [lia|]; intros q [x Hq]; 
      destruct (decide (q = brk s)) as [->|]; simplify_map_eq;
      [lia|specialize (Hok q (mk_is_Some _ _ Hq)); lia].
  - destruct Hbase as [|[old Hold]]; [done|].
    cbn [base with_total]. destruct (decide (base r = 0)); [done|].
    rewrite Hold.
    assert (Hbb : base r ≠ brk s) by (specialize (Hok (base r) (mk_is_Some _ _ Hold)); lia).
    destruct c; try done.
    + (* in place *)
      assert (Eb : b' = base r) by (subst b'; unfold grown_base; by case_decide).
      rewrite Eb. clearbody b' T.
      mnorm; unfold returns at 1; cbv beta iota.
      destruct (decide (base r = 0)); [lia|].
      repeat mstep'; destruct r as [rty rpv rav rlm rbs rby rtt]; cbn in *; split_and!; try done.
      all: try (by simplify_map_eq).
      all: try (intros; by simplify_map_eq).
      all: try lia.
      split; cbn; [lia|]. intros q [x Hq].
      destruct (decide (q = rbs)) as [->|]; simplify_map_eq;
        [apply Hok; eauto|apply Hok; eauto].
    + (* moved *)
      assert (Eb : b' = brk s) by done.
      rewrite Eb. clearbody b' T.
      mnorm; unfold returns at 1; cbv beta iota.
      destruct (decide (brk s = 0)); [lia|].
      mstep'.
      apply returns_bind; eapply returns_assign;
           [ cbn; rewrite relocate_lookup_ne by done; apply lookup_insert_eq
           | cbn; rewrite lookup_insert_ne, lookup_delete_ne by done; exact Hb
           | ]; mnorm.
      repeat mstep'; destruct r as [rty rpv rav rlm rbs rby rtt]; cbn in *; split_and!; try done.
      all: try (by simplify_map_eq).
      all: try (intros; by simplify_map_eq).
      all: try lia.
      split; cbn; [lia|]. intros q [x Hq].
      destruct (decide (q = brk s)) as [->|]; simplify_map_eq; [lia|].
      apply lookup_delete_Some in Hq as [_ Hq].
      specialize (Hok q (mk_is_Some _ _ Hq)); lia.
Qed.

Lemma arena_capacity_live arena s r :
  arena ≠ 0 → heap s !! arena = Some r →
  type r = RAII_ARENA P + RAII_STRUCT P →
  arena_capacity P arena s = Ret (to_size_t (limit r - avail r)) s.
Proof.
  intros Ha Hr Ht. unfold arena_capacity, is_empty.
  destruct (Z.eqb_spec arena 0); [done|]. simpl.
  rewrite (bind_eq _ _ _ _ _ (is_type_live _ _ _ _ Ha Hr)).
  rewrite Ht, Z.eqb_refl.
  rewrite (bind_eq _ _ _ _ _ (field_live _ _ _ _ Hr)).
  by rewrite (bind_eq _ _ _ _ _ (field_live _ _ _ _ Hr)).
Qed.

Lemma arena_total_live arena s r :
  arena ≠ 0 → heap s !! arena = Some r →
  type r = RAII_ARENA P + RAII_STRUCT P →
  arena_total P arena s =
    Ret (to_size_t (Z.max (total r) (sizeof_header P) - sizeof_header P)) s.
Proof.
  intros Ha Hr Ht. unfold arena_total, is_empty.
  destruct (Z.eqb_spec arena 0); [done|]. simpl.
  rewrite (bind_eq _ _ _ _ _ (is_type_live _ _ _ _ Ha Hr)).
  rewrite Ht, Z.eqb_refl.
  by rewrite (bind_eq _ _ _ _ _ (field_live _ _ _ _ Hr)).
Qed.

Lemma malloc_arena_grows_exact (fuel : nat) (arena nbytes : Z) (s : state)
    (r : arena_s) (c : alloc_choice) (o : list alloc_choice) :
  0 < sizeof_header P →
  arena ≠ 0 → live s arena r →
  (assertions P = false ∨ 0 < nbytes) →
  free_list s = 0 →
  limit r - avail r < round_request P nbytes →
  growth_fits P r (round_request P nbytes) →
  base r ≠ arena → (base r = 0 ∨ is_Some (blocks s !! base r)) →
  allocator_ok s → next_choice s = (c, o) → c ≠ alloc_fail →
  let n := round_request P nbytes in
  let T := total r + (n + (sizeof_header P + THRESHOLD * 1024)) in
  let b' := grown_base r c s in
  returns (malloc_arena P (S fuel) arena nbytes s) (λ p s',
    p = b' + sizeof_header P ∧
    heap s' !! arena =
      Some (Arena (type r) b' (b' + sizeof_header P + n) (b' + T) b' n T) ∧
    heap s' !! b' =
      Some (Arena (RAII_ARENA P) (prev r) (avail r) (limit r) b' (bytes r) T) ∧
    blocks s' !! b' = Some T ∧
    is_Some (blocks s' !! arena) ∧
    (b' ≠ base r → blocks s' !! base r = None) ∧
    (∀ q, q ≠ b' → q ≠ base r → blocks s' !! q = blocks s !! q) ∧
    free_list s' = 0 ∧ oracle s' = o ∧ allocator_ok s' ∧
    (type r = RAII_ARENA P + RAII_STRUCT P →
     to_size_t (limit r - avail r)
       = to_size_t (Z.max (total r) (sizeof_header P) - sizeof_header P) →
     num_free s' = 0)).
Proof.
  intros HH Ha [Hr Hb] Hchk Hfl Hnofit Hgf Hba Hbase Hok Hch Hc n T b'.
  unfold malloc_arena.
  apply returns_bind, returns_assert; [right; by destruct (Z.eqb_spec arena 0)|].
  apply returns_bind, returns_assert.
  { destruct Hchk; [by left|right]. by apply Z.gtb_lt. }
  pose proof (arena_capacity_live arena s r Ha Hr) as Hcap.
  pose proof (arena_total_live arena s r Ha Hr) as Htot.
  destruct (arena_capacity_reads P s arena r Ha Hr) as [cp Ecp].
  destruct (arena_total_reads P s arena r Ha Hr) as [tt' Ett].
  rewrite (bind_eq _ _ _ _ _ Ecp), (bind_eq _ _ _ _ _ Ett).
  pose proof (grown_total_exact P r n HH Hgf) as HT.
  apply returns_bind.
  set (s1 := if cp =? tt' then set_num_free 0 s else s).
  assert (E1 : (if cp =? tt' then update (set_num_free 0) else ret tt) s = Ret tt s1)
    by (subst s1; by destruct (cp =? tt')).
  rewrite E1. unfold returns at 1.
  assert (Hs1 : heap s1 = heap s ∧ blocks s1 = blocks s ∧ brk s1 = brk s ∧
                oracle s1 = oracle s ∧ free_list s1 = free_list s ∧
                (type r = RAII_ARENA P + RAII_STRUCT P →
                 to_size_t (limit r - avail r)
                   = to_size_t (Z.max (total r) (sizeof_header P) - sizeof_header P) →
                 num_free s1 = 0)).
  { subst s1. destruct (Z.eqb_spec cp tt') as [E|E]; split_and!; try done.
    intros Ht Heq. rewrite (Hcap Ht) in Ecp. rewrite (Htot Ht) in Ett.
    congruence. }
  destruct Hs1 as (Hh1 & Hb1 & Hk1 & Ho1 & Hf1 & Hn1). clearbody s1.
  apply returns_bind. cbn [malloc_arena_loop].
  apply returns_bind. eapply returns_field; [by rewrite Hh1|].
  apply returns_bind. eapply returns_field; [by rewrite Hh1|].
  fold n. destruct (Z.gtb_spec n (limit r - avail r)); [|lia].
  apply returns_bind.
  eapply returns_mono.
  { apply (acquire_chunk_grows_exact arena n s1 r c o).
    - split; [by rewrite Hh1|by rewrite Hb1].
    - by rewrite Hf1.
    - done.
    - by rewrite Hb1.
    - destruct Hok as [? Hok]. split; [by rewrite Hk1|].
      intros p. rewrite Hb1, Hk1. apply Hok.
    - unfold next_choice in *. by rewrite Ho1.
    - done. }
  cbv beta. rewrite HT. fold T.
  assert (Eb : grown_base r c s1 = b').
  { subst b'. unfold grown_base. by rewrite Hk1. }
  rewrite Eb.
  assert (Hbna : b' ≠ arena).
  { subst b'. unfold grown_base. destruct Hok as [_ Hok'].
    specialize (Hok' _ Hb). destruct c; try case_decide; lia. }
  clear Eb. clearbody b'.
  intros [] s2 (Hr2 & Hc2 & Hbl2 & Hba2 & Hrel & Hfr & Hf2 & Hnf2 & Ho2 & _ & Hok2).
  assert (E2 : malloc_arena_loop P fuel arena n s2 = Ret tt s2).
  { destruct fuel; simpl;
      rewrite (bind_eq _ _ _ _ _ (field_live _ _ _ _ Hr2)),
              (bind_eq _ _ _ _ _ (field_live _ _ _ _ Hr2)); cbn;
      destruct (Z.gtb_spec n (b' + T - (b' + sizeof_header P))); try reflexivity;
      destruct Hgf as (?&?&?); subst T; unfold THRESHOLD in *; lia. }
  rewrite E2. unfold returns at 1.
  assert (Hbn0 : b' ≠ 0).
  { destruct Hok2 as [_ Hok2]. specialize (Hok2 b' (mk_is_Some _ _ Hbl2)). lia. }
  mstep. mstep. cbn [prev].
  destruct (Z.eqb_spec b' 0); [done|]. cbn [negb].
  mstep. mstep. mstep.
  eapply returns_assign; [exact Hc2|by rewrite Hbl2|]. mnorm.
  repeat mstep'.
  assert (En : to_size_t n = n).
  { destruct Hgf as (?&?&?). unfold to_size_t. apply Z.mod_small.
    unfold THRESHOLD in *. lia. }
  rewrite En. cbn.
  split_and!; try done; try (by simplify_map_eq).
  - lia.
  - intros q Hq1 Hq2. rewrite (Hfr q Hq1 Hq2). by rewrite Hb1.
  - intros Ht Heq. rewrite Hnf2. by apply Hn1.
Qed.

(** [arena_clear] on an arena whose only chunk has not been on the free
    list: the chunk is pushed and [avail] goes back by the size of the last
    allocation. *)
Lemma arena_clear_single_chunk (fuel : nat) (arena : Z) (s : state) (R C : arena_s) :
  arena ≠ 0 → live s arena R → prev R ≠ 0 → prev R ≠ arena →
  live s (prev R) C → type C = RAII_ARENA P → prev C = 0 → bytes C = 0 →
  free_list s = 0 → num_free s < THRESHOLD →
  returns (arena_clear P (S fuel) arena s) (λ _ s',
    heap s' !! arena = Some (with_avail (avail R - bytes R) R) ∧
    heap s' !! prev R = Some C ∧
    free_list s' = prev R ∧ num_free s' = num_free s + 1 ∧
    blocks s' = blocks s ∧ oracle s' = oracle s ∧ mem s' = mem s ∧
    brk s' = brk s).
Proof.
  intros Ha [HR HbR] Hp Hpa [HC HbC] HtC HpC HbyC Hfl Hnf.
  unfold arena_clear, is_empty. destruct (Z.eqb_spec arena 0); [done|].
  cbn [arena_clear_loop]. mstep. mstep.
  destruct (Z.eqb_spec (prev R) 0); [done|]. cbn [negb].
  mstep. eapply returns_is_type; [done|exact HC|].
  rewrite HtC, Z.eqb_refl. mstep.
  unfold retire_chunk. mstep. mstep.
  destruct (Z.ltb_spec (num_free s) THRESHOLD); [|lia].
  do 4 mstep'.
  apply returns_bind. eapply returns_assign; [exact HC|exact HbC|]. mnorm.
  rewrite Hfl.
  replace (with_prev 0 C) with C by (destruct C; cbn in *; by subst).
  rewrite insert_id by done.
  repeat mstep'. rewrite HbyC. cbn [is_zero Z.eqb].
  repeat mstep'.
  assert (Hdone : ∀ t, heap t !! prev R = Some C →
            arena_clear_loop P fuel (prev R) t = Ret tt t).
  { intros t Ht. destruct fuel; cbn [arena_clear_loop];
      rewrite (bind_eq _ _ _ _ _ (field_live _ _ _ _ Ht)), HpC; reflexivity. }
  rewrite Hdone by (cbn; by simplify_map_eq).
  cbn. split_and!; try done; by simplify_map_eq.
Qed.

(** ** A fresh arena and its first allocations *)

(** The record [arena_init] writes. *)
Lemma fresh_arena_grows arena nbytes s c o :
  0 < sizeof_header P → 0 < nbytes →
  nbytes + sizeof_header P - 1 ≤ LONG_MAX →
  round_request P nbytes + sizeof_header P + THRESHOLD * 1024 < 2 ^ 63 →
  arena ≠ 0 →
  live s arena (Arena (RAII_ARENA P + RAII_STRUCT P) 0 0 0 0 0 0) →
  free_list s = 0 → allocator_ok s → next_choice s = (c, o) → c ≠ alloc_fail →
  let n := round_request P nbytes in
  let T := n + (sizeof_header P + THRESHOLD * 1024) in
  let b := brk s in
  returns (malloc_arena P 1 arena nbytes s) (λ p s',
    p = b + sizeof_header P ∧
    heap s' !! arena =
      Some (Arena (RAII_ARENA P + RAII_STRUCT P) b (b + sizeof_header P + n)
              (b + T) b n T) ∧
    heap s' !! b = Some (Arena (RAII_ARENA P) 0 0 0 b 0 T) ∧
    blocks s' = <[b := T]> (blocks s) ∧
    is_Some (blocks s' !! arena) ∧ b ≠ arena ∧ b ≠ 0 ∧
    free_list s' = 0 ∧ num_free s' = 0 ∧ oracle s' = o ∧ allocator_ok s').
Proof.
  intros Hh Hn Hmax Hsum Ha Hlive Hfl Hok Hch Hc n T b.
  destruct (round_request_spec P nbytes Hh) as (_ & [Hle Hlt] & _); [lia..|].
  fold n in Hle, Hlt, Hsum.
  assert (Hb0 : blocks s !! 0 = None).
  { destruct (blocks s !! 0) eqn:E; [|done].
    destruct Hok as [_ Hok]. specialize (Hok 0 (mk_is_Some _ _ E)). lia. }
  assert (Hbne : b ≠ 0) by (destruct Hok; subst b; lia).
  eapply returns_mono.
  { eapply (malloc_arena_grows_exact 0 arena nbytes s _ c o); try done.
    - by right.
    - cbn. fold n. lia.
    - unfold growth_fits. cbn. fold n. unfold THRESHOLD in *. lia.
    - by left. }
  cbv beta. cbn [base total type prev avail limit bytes].
  assert (Eb : grown_base (Arena (RAII_ARENA P + RAII_STRUCT P) 0 0 0 0 0 0) c s = b).
  { unfold grown_base. cbn. by destruct c. }
  rewrite Eb. fold n. replace (0 + (n + (sizeof_header P + THRESHOLD * 1024))) with T by (subst T; lia).
  intros p s' (Hp & Hr' & Hc' & Hbl & Hba & Hrel & Hfr & Hfl' & Ho' & Hok' & Hnf).
  split_and!; try done.
  - apply map_eq. intros q. destruct (decide (q = b)) as [->|Hq].
    + by rewrite lookup_insert_eq.
    + rewrite lookup_insert_ne by done.
      destruct (decide (q = 0)) as [->|Hq0].
      * rewrite Hb0. by apply Hrel.
      * by apply Hfr.
  - destruct Hlive as [_ Hl]. destruct Hok as [_ Hok].
    specialize (Hok _ Hl). subst b. lia.
  - apply Hnf; [done|]. cbn. f_equal. lia.
Qed.

(** X3. The first allocation from a fresh arena obtains one block from the
    system allocator, of the rounded request plus sizeof(union header) plus
    THRESHOLD * 1024 bytes, and returns the address just after the header;
    afterwards [arena_capacity] is THRESHOLD * 1024 and [arena_total] is the
    rounded request plus THRESHOLD * 1024. *)
Theorem first_allocation_accounting (arena nbytes : Z) (s : state)
    (c : alloc_choice) (o : list alloc_choice) :
  0 < sizeof_header P → 0 < nbytes →
  nbytes + sizeof_header P - 1 ≤ LONG_MAX →
  round_request P nbytes + sizeof_header P + THRESHOLD * 1024 < 2 ^ 63 →
  arena ≠ 0 →
  live s arena (Arena (RAII_ARENA P + RAII_STRUCT P) 0 0 0 0 0 0) →
  free_list s = 0 → allocator_ok s → next_choice s = (c, o) → c ≠ alloc_fail →
  returns
    ((do p <- malloc_arena P 1 arena nbytes;
      do cap <- arena_capacity P arena;
      do tot <- arena_total P arena;
      ret (p, cap, tot)) s)
    (λ v s',
       v = (brk s + sizeof_header P, THRESHOLD * 1024,
            round_request P nbytes + THRESHOLD * 1024) ∧
       blocks s' =
         <[brk s := round_request P nbytes + (sizeof_header P + THRESHOLD * 1024)]>
           (blocks s) ∧
       oracle s' = o).
Proof.
  intros Hh Hn Hmax Hsum Ha Hlive Hfl Hok Hch Hc.
  destruct (round_request_spec P nbytes Hh) as (_ & [Hle Hlt] & _); [lia..|].
  apply returns_bind. eapply returns_mono.
  { by eapply fresh_arena_grows. }
  cbv beta. intros p s' (-> & Hr' & _ & Hbl & _ & _ & _ & _ & _ & Ho & _).
  rewrite (bind_eq _ _ _ _ _ (arena_capacity_live arena s' _ Ha Hr' eq_refl)).
  rewrite (bind_eq _ _ _ _ _ (arena_total_live arena s' _ Ha Hr' eq_refl)).
  cbn. split_and!; [|done..]. unfold to_size_t, THRESHOLD in *.
  rewrite Z.max_l by lia. rewrite !Z.mod_small by lia.
  repeat f_equal; lia.
Qed.

(** X4. After a first allocation and an [arena_clear], the next allocation
    that fits returns the same address without a call of the system
    allocator; the chunk stays the arena's current chunk and is at the same
    time the head of the free list. *)
Theorem clear_makes_region_reusable (fuel : nat) (arena n m : Z) (s : state)
    (c : alloc_choice) (o : list alloc_choice) :
  0 < sizeof_header P → 0 < n →
  n + sizeof_header P - 1 ≤ LONG_MAX →
  round_request P n + sizeof_header P + THRESHOLD * 1024 < 2 ^ 63 →
  arena ≠ 0 →
  live s arena (Arena (RAII_ARENA P + RAII_STRUCT P) 0 0 0 0 0 0) →
  free_list s = 0 → allocator_ok s → next_choice s = (c, o) → c ≠ alloc_fail →
  0 < m → round_request P m ≤ round_request P n + THRESHOLD * 1024 →
  returns
    ((do p1 <- malloc_arena P 1 arena n;
      arena_clear P (S fuel) arena;;
      do p2 <- malloc_arena P 0 arena m;
      ret (p1, p2)) s)
    (λ v s',
       v.1 = brk s + sizeof_header P ∧ v.2 = v.1 ∧
       blocks s' =
         <[brk s := round_request P n + (sizeof_header P + THRESHOLD * 1024)]>
           (blocks s) ∧
       oracle s' = o ∧
       free_list s' = brk s ∧
       ∃ r', heap s' !! arena = Some r' ∧ prev r' = brk s).
Proof.
  intros Hh Hn Hmax Hsum Ha Hlive Hfl Hok Hch Hc Hm Hfit.
  apply returns_bind. eapply returns_mono.
  { by eapply fresh_arena_grows. }
  cbv beta.
  intros p s1 (-> & HR & HC & Hbl & Hba & Hbna & Hb0 & Hfl1 & Hnf1 & Ho1 & Hok1).
  assert (HbC : is_Some (blocks s1 !! brk s)).
  { rewrite Hbl, lookup_insert_eq. eauto. }
  apply returns_bind. eapply returns_mono.
  { eapply (arena_clear_single_chunk fuel arena s1 _ _ Ha); try done.
    - rewrite Hnf1. unfold THRESHOLD. lia. }
  cbv beta. cbn [prev avail bytes with_avail type limit base total].
  intros _ s2 (HR2 & HC2 & Hfl2 & Hnf2 & Hbl2 & Ho2 & _ & _).
  apply returns_bind.
  edestruct (malloc_arena_fits P 0 arena m s2) as (s3 & E & _ & Hbl3 & _ & Ho3 & Hfl3 & HR3 & _).
  - exact Ha.
  - split; [exact HR2|]. by rewrite Hbl2.
  - right. cbn. eexists. split; [exact HC2|]. by rewrite Hbl2.
  - by right.
  - cbn. lia.
  - rewrite E. cbn. split_and!; try done.
    + lia.
    + by rewrite Hbl3, Hbl2.
    + by rewrite Ho3, Ho2.
    + by rewrite Hfl3.
    + eexists. split; [exact HR3|]. done.
Qed.

(** X5. A growth hands the block out from its start again.  After a first
    allocation from a fresh arena, a second one that does not fit makes the
    arena grow through realloc: when realloc resizes the block in place the
    second call returns the address the first call returned, and when the
    block moves the block of the first address is released. *)
Theorem growth_restarts_the_block (arena n1 n2 : Z) (s : state)
    (c1 c2 : alloc_choice) (o : list alloc_choice) :
  0 < sizeof_header P → 0 < n1 → 0 < n2 →
  n1 + sizeof_header P - 1 ≤ LONG_MAX → n2 + sizeof_header P - 1 ≤ LONG_MAX →
  round_request P n1 + round_request P n2
    + 2 * (sizeof_header P + THRESHOLD * 1024) < 2 ^ 63 →
  THRESHOLD * 1024 < round_request P n2 →
  arena ≠ 0 →
  live s arena (Arena (RAII_ARENA P + RAII_STRUCT P) 0 0 0 0 0 0) →
  free_list s = 0 → allocator_ok s →
  oracle s = c1 :: c2 :: o → c1 ≠ alloc_fail → c2 ≠ alloc_fail →
  returns
    ((do p1 <- malloc_arena P 1 arena n1;
      do p2 <- malloc_arena P 1 arena n2;
      ret (p1, p2)) s)
    (λ v s',
       v.1 = brk s + sizeof_header P ∧
       match c2 with
       | alloc_same => v.2 = v.1
       | _ => v.2 ≠ v.1 ∧ blocks s' !! brk s = None
       end).
Proof.
  intros Hh Hn1 Hn2 Hmax1 Hmax2 Hsum Hnofit Ha Hlive Hfl Hok Ho Hc1 Hc2.
  destruct (round_request_spec P n1 Hh) as (_ & [Hle1 _] & _); [lia..|].
  destruct (round_request_spec P n2 Hh) as (_ & [Hle2 _] & _); [lia..|].
  apply returns_bind. eapply returns_mono.
  { eapply (fresh_arena_grows arena n1 s c1 (c2 :: o)); try done.
    - unfold THRESHOLD in *. lia.
    - unfold next_choice. by rewrite Ho. }
  cbv beta.
  intros p s1 (-> & HR & HC & Hbl & Hba & Hbna & Hb0 & Hfl1 & Hnf1 & Ho1 & Hok1).
  assert (HbC : is_Some (blocks s1 !! brk s)).
  { rewrite Hbl, lookup_insert_eq. eauto. }
  assert (Hbrk : brk s < brk s1).
  { destruct Hok1 as [_ Hok1]. specialize (Hok1 _ HbC). lia. }
  apply returns_bind. eapply returns_mono.
  { eapply (malloc_arena_grows_exact 0 arena n2 s1 _ c2 o); try done.
    - by right.
    - cbn. lia.
    - unfold growth_fits. cbn. unfold THRESHOLD in *. lia.
    - cbn. by right.
    - unfold next_choice. by rewrite Ho1. }
  cbv beta. cbn [base]. unfold grown_base. cbn [base].
  intros p2 s2 (-> & _ & _ & _ & _ & Hrel & _).
  cbn. split; [done|]. destruct c2; [done| |].
  - by rewrite decide_False by done.
  - split; [lia|]. apply Hrel. lia.
Qed.

(** X6. Two allocations that both fit in the current chunk are adjacent:
    the first returns the old [avail], the second the address one rounded
    size further, so the regions do not overlap; both keep the alignment of
    [avail], and neither calls the system allocator. *)
Theorem consecutive_allocations_adjacent (fuel1 fuel2 : nat) (arena n1 n2 : Z)
    (s : state) (r : arena_s) :
  0 < sizeof_header P → 0 < n1 → 0 < n2 →
  n1 + sizeof_header P - 1 ≤ LONG_MAX → n2 + sizeof_header P - 1 ≤ LONG_MAX →
  arena ≠ 0 → live s arena r →
  (prev r = 0 ∨ ∃ c, live s (prev r) c) →
  round_request P n1 + round_request P n2 ≤ limit r - avail r →
  returns
    ((do p1 <- malloc_arena P fuel1 arena n1;
      do p2 <- malloc_arena P fuel2 arena n2;
      ret (p1, p2)) s)
    (λ v s',
       v.1 = avail r ∧ v.2 = avail r + round_request P n1 ∧
       v.1 + n1 ≤ v.2 ∧
       (avail r mod sizeof_header P = 0 → v.2 mod sizeof_header P = 0) ∧
       blocks s' = blocks s ∧ oracle s' = oracle s ∧
       ∃ r', heap s' !! arena = Some r' ∧ limit r' = limit r ∧
             avail r' = avail r + round_request P n1 + round_request P n2).
Proof.
  intros Hh Hn1 Hn2 Hmax1 Hmax2 Ha [Hr Hb] Hprev Hfit.
  destruct (round_request_spec P n1 Hh) as (_ & [Hle1 _] & Hmod1); [lia..|].
  destruct (round_request_spec P n2 Hh) as (_ & [Hle2 _] & _); [lia..|].
  apply returns_bind.
  edestruct (malloc_arena_fits P fuel1 arena n1 s r)
    as (s1 & E1 & _ & Hbl1 & _ & Ho1 & _ & Hr1 & Hframe1); try done.
  { by right. } { lia. }
  rewrite E1. cbn. apply returns_bind.
  edestruct (malloc_arena_fits P fuel2 arena n2 s1)
    as (s2 & E2 & _ & Hbl2 & _ & Ho2 & _ & Hr2 & _).
  - exact Ha.
  - split; [exact Hr1|]. by rewrite Hbl1.
  - cbn. destruct Hprev as [|(c & Hc & Hbc)]; [by left|right].
    destruct (decide (prev r = arena)) as [E|E].
    + rewrite E. eexists. split; [exact Hr1|]. by rewrite Hbl1.
    + destruct (Hframe1 (prev r) c E Hc) as (c' & Hc' & _).
      exists c'. split; [exact Hc'|]. by rewrite Hbl1.
  - by right.
  - cbn. lia.
  - rewrite E2. cbn. split_and!; try done.
    + lia.
    + intros Hal. rewrite <- Z.add_mod_idemp_r, Hmod1, Z.add_0_r by lia. exact Hal.
    + congruence.
    + congruence.
    + eexists. split; [exact Hr2|]. cbn. split; [done|lia].
Qed.

(** ** Arguments out of range, released handles *)

(** X7. With the checks compiled in, [malloc_arena] refuses an empty handle
    and a size that is not positive, and [calloc_arena] a count or a size
    that is not positive, by raising assertion-failure before anything is
    changed.  With the checks compiled out [malloc_arena] on an empty
    handle dereferences NULL. *)
Theorem bad_arguments_are_refused (fuel : nat) (arena count nbytes : Z) (s : state) :
  (assertions P = true → arena = 0 ∨ nbytes ≤ 0 →
   malloc_arena P fuel arena nbytes s = Throw assertion_failure s) ∧
  (assertions P = true → count ≤ 0 →
   calloc_arena P fuel arena count nbytes s = Throw assertion_failure s) ∧
  (assertions P = true → 0 < count → arena = 0 ∨ nbytes ≤ 0 →
   in_long (count * nbytes) = true →
   calloc_arena P fuel arena count nbytes s = Throw assertion_failure s) ∧
  (assertions P = false → heap s !! 0 = None →
   malloc_arena P fuel 0 nbytes s = Undef).
Proof.
  assert (Hm : ∀ a n, assertions P = true → a = 0 ∨ n ≤ 0 →
            malloc_arena P fuel a n s = Throw assertion_failure s).
  { intros a n Hchk Hbad. unfold malloc_arena, RAII_ASSERT, bind. rewrite Hchk.
    destruct (Z.eqb_spec a 0) as [->|Hne]; [done|]. cbn.
    destruct Hbad as [|Hn]; [done|].
    destruct (Z.gtb_spec n 0); [lia|done]. }
  split_and!.
  - apply Hm.
  - intros Hchk Hc. unfold calloc_arena, RAII_ASSERT, bind. rewrite Hchk.
    destruct (Z.gtb_spec count 0); [lia|done].
  - intros Hchk Hc Hbad Hin. unfold calloc_arena, RAII_ASSERT. rewrite Hchk.
    unfold bind at 1. destruct (Z.gtb_spec count 0); [|lia]. cbn.
    assert (Hprod : arena = 0 ∨ count * nbytes ≤ 0).
    { destruct Hbad; [by left|right]. nia. }
    rewrite Hin. unfold bind. by rewrite (Hm arena (count * nbytes) Hchk Hprod).
  - intros Hchk H0. unfold malloc_arena, RAII_ASSERT. rewrite Hchk. cbn.
    unfold bind, get, update, ret. cbn.
    destruct fuel; cbn; unfold field, bind, load; cbn; by rewrite H0.
Qed.

(** X8. [arena_free] on an arena handle releases the arena's block and the
    handle, and nothing else; the free list and its counter are left as
    they are, so a chunk of the arena that is on the free list stays there.
    On an object whose tag is not RAII_ARENA + RAII_STRUCT it does nothing.
    After the release every operation on the handle, a second [arena_free]
    included, reads released memory. *)
Theorem arena_free_releases (arena : Z) (s : state) (r : arena_s) :
  arena ≠ 0 → live s arena r →
  type r = RAII_ARENA P + RAII_STRUCT P →
  (base r = 0 ∨ (base r ≠ arena ∧ is_Some (blocks s !! base r))) →
  (∃ s', arena_free P arena s = Ret tt s' ∧
     blocks s' !! arena = None ∧ heap s' !! arena = None ∧
     (base r ≠ 0 → blocks s' !! base r = None ∧ heap s' !! base r = None) ∧
     (∀ q, q ≠ arena → q ≠ base r →
        blocks s' !! q = blocks s !! q ∧ heap s' !! q = heap s !! q) ∧
     mem s' = mem s ∧ brk s' = brk s ∧ oracle s' = oracle s ∧
     free_list s' = free_list s ∧ num_free s' = num_free s ∧
     arena_capacity P arena s' = Undef ∧
     arena_total P arena s' = Undef ∧
     arena_free P arena s' = Undef ∧
     (∀ fuel, arena_clear P fuel arena s' = Undef) ∧
     (∀ fuel n, 0 < n → malloc_arena P fuel arena n s' = Undef)) ∧
  (∀ q rq, q ≠ 0 → heap s !! q = Some rq →
     type rq ≠ RAII_ARENA P + RAII_STRUCT P → arena_free P q s = Ret tt s).
Proof.
  intros Ha [Hr [sz Hb]] Ht Hbase. split.
  - assert (Hgone : ∀ t, heap t !! arena = None →
      arena_capacity P arena t = Undef ∧ arena_total P arena t = Undef ∧
      arena_free P arena t = Undef ∧
      (∀ fuel, arena_clear P fuel arena t = Undef) ∧
      (∀ fuel n, 0 < n → malloc_arena P fuel arena n t = Undef)).
    { intros t Hn.
      assert (Hld : ∀ f, field arena f t = Undef).
      { intros f. apply bind_undef. unfold load. by rewrite Hn. }
      assert (Hty : ∀ x, is_type arena x t = Undef).
      { intros x. unfold is_type, is_empty.
        destruct (Z.eqb_spec arena 0); [done|]. apply bind_undef, Hld. }
      assert (Hcap : arena_capacity P arena t = Undef).
      { unfold arena_capacity, is_empty.
        destruct (Z.eqb_spec arena 0); [done|]. apply bind_undef, Hty. }
      split_and!.
      - exact Hcap.
      - unfold arena_total, is_empty.
        destruct (Z.eqb_spec arena 0); [done|]. apply bind_undef, Hty.
      - unfold arena_free, is_empty.
        destruct (Z.eqb_spec arena 0); [done|]. apply bind_undef, Hty.
      - intros fuel. unfold arena_clear, is_empty.
        destruct (Z.eqb_spec arena 0); [done|].
        destruct fuel; cbn [arena_clear_loop]; apply bind_undef, Hld.
      - intros fuel n Hpos. unfold malloc_arena.
        assert (E1 : RAII_ASSERT P (negb (arena =? 0)) t = Ret tt t).
        { unfold RAII_ASSERT. destruct (Z.eqb_spec arena 0); [done|].
          by rewrite andb_false_r. }
        assert (E2 : RAII_ASSERT P (n >? 0) t = Ret tt t).
        { unfold RAII_ASSERT. destruct (Z.gtb_spec n 0); [|lia].
          by rewrite andb_false_r. }
        rewrite (bind_eq _ _ _ _ _ E1), (bind_eq _ _ _ _ _ E2).
        apply bind_undef, Hcap. }
    assert (Hmain : ∃ s', arena_free P arena s = Ret tt s' ∧
      blocks s' !! arena = None ∧ heap s' !! arena = None ∧
      (base r ≠ 0 → blocks s' !! base r = None ∧ heap s' !! base r = None) ∧
      (∀ q, q ≠ arena → q ≠ base r →
         blocks s' !! q = blocks s !! q ∧ heap s' !! q = heap s !! q) ∧
      mem s' = mem s ∧ brk s' = brk s ∧ oracle s' = oracle s ∧
      free_list s' = free_list s ∧ num_free s' = num_free s).
    { unfold arena_free, is_empty. destruct (Z.eqb_spec arena 0); [done|].
      rewrite (bind_eq _ _ _ _ _ (is_type_live _ _ _ _ Ha Hr)).
      rewrite Ht, Z.eqb_refl.
      rewrite (bind_eq _ _ _ _ _ (assign_live _ _ _ _ _ _ Hr Hb)).
      set (s1 := set_heap (<[arena:=with_type (-1) r]> (heap s)) s).
      assert (Hr1 : heap s1 !! arena = Some (with_type (-1) r))
        by (subst s1; cbn; by simplify_map_eq).
      rewrite (bind_eq _ _ _ _ _ (field_live _ _ _ _ Hr1)). cbn [base with_type].
      unfold bind, RAII_FREE.
      destruct (decide (base r = 0)) as [E0|E0].
      + destruct (decide (arena = 0)); [done|]. subst s1. cbn. rewrite Hb.
        eexists. split; [reflexivity|].
        cbn. split_and!; try done; try (by simplify_map_eq).
        intros q Hq Hq2. by simplify_map_eq.
      + destruct Hbase as [|[Hne [sz' Hb']]]; [done|].
        subst s1. cbn. rewrite Hb'.
        destruct (decide (arena = 0)); [done|]. cbn.
        rewrite lookup_delete_ne, Hb by done.
        eexists. split; [reflexivity|].
        cbn. split_and!; try done; try (by simplify_map_eq).
        intros q Hq1 Hq2. split; by simplify_map_eq. }
    destruct Hmain as (s' & E & Hb1 & Hh1 & Hrest).
    exists s'. destruct (Hgone s' Hh1) as (? & ? & ? & ? & ?).
    destruct Hrest as (? & ? & ? & ? & ? & ? & ?).
    split_and!; done.
  - intros q rq Hq Hrq Hty. unfold arena_free, is_empty.
    destruct (Z.eqb_spec q 0); [done|].
    rewrite (bind_eq _ _ _ _ _ (is_type_live _ _ _ _ Hq Hrq)).
    by destruct (Z.eqb_spec (type rq) (RAII_ARENA P + RAII_STRUCT P)).
Qed.

(** X9. [arena_free] does not take the arena's chunk off the free list.
    When the head of the free list has been released, a [malloc_arena] that
    does not fit in its current chunk, on any arena, takes the head and
    reads released memory. *)
Theorem released_chunk_on_free_list (fuel : nat) (arena nbytes : Z) (s : state)
    (r : arena_s) :
  arena ≠ 0 → live s arena r →
  (assertions P = false ∨ 0 < nbytes) →
  free_list s ≠ 0 → heap s !! free_list s = None →
  limit r - avail r < round_request P nbytes →
  malloc_arena P (S fuel) arena nbytes s = Undef.
Proof.
  intros Ha [Hr Hb] Hchk Hfl Hgone Hnofit.
  unfold malloc_arena.
  assert (E1 : RAII_ASSERT P (negb (arena =? 0)) s = Ret tt s).
  { unfold RAII_ASSERT. destruct (Z.eqb_spec arena 0); [done|].
    by rewrite andb_false_r. }
  assert (E2 : RAII_ASSERT P (nbytes >? 0) s = Ret tt s).
  { unfold RAII_ASSERT. destruct Hchk as [->|Hn]; [done|].
    destruct (Z.gtb_spec nbytes 0); [|lia]. by rewrite andb_false_r. }
  rewrite (bind_eq _ _ _ _ _ E1), (bind_eq _ _ _ _ _ E2).
  destruct (arena_capacity_reads P s arena r Ha Hr) as [cp Ecp].
  destruct (arena_total_reads P s arena r Ha Hr) as [tt' Ett].
  rewrite (bind_eq _ _ _ _ _ Ecp), (bind_eq _ _ _ _ _ Ett).
  set (s1 := if cp =? tt' then set_num_free 0 s else s).
  assert (E3 : (if cp =? tt' then update (set_num_free 0) else ret tt) s = Ret tt s1)
    by (subst s1; by destruct (cp =? tt')).
  assert (Hs1 : heap s1 = heap s ∧ free_list s1 = free_list s)
    by (subst s1; by destruct (cp =? tt')).
  destruct Hs1 as [Hh1 Hf1]. clearbody s1.
  rewrite (bind_eq _ _ _ _ _ E3).
  assert (Hr1 : heap s1 !! arena = Some r) by by rewrite Hh1.
  unfold bind at 1. cbn [malloc_arena_loop].
  rewrite (bind_eq _ _ _ _ _ (field_live _ _ _ _ Hr1)).
  rewrite (bind_eq _ _ _ _ _ (field_live _ _ _ _ Hr1)).
  destruct (Z.gtb_spec (round_request P nbytes) (limit r - avail r)); [|lia].
  unfold bind at 1. unfold acquire_chunk. unfold bind at 1. unfold get at 1.
  rewrite decide_True by by rewrite Hf1.
  unfold bind at 1. unfold pop_free_list. unfold bind at 1. unfold get at 1.
  unfold bind at 1. unfold field, bind, load. by rewrite Hh1, Hf1, Hgone.
Qed.

(** X10. A fresh arena.  When the system allocator has a block,
    [arena_init] returns its address, having allocated that one block and
    touched neither the free list nor its counter; the new arena has
    capacity 0 and total 0, and clearing it changes nothing. *)
Theorem arena_init_fresh (s : state) (c : alloc_choice) (o : list alloc_choice) :
  0 ≤ sizeof_header P →
  allocator_ok s → next_choice s = (c, o) → c ≠ alloc_fail →
  ∃ s', arena_init P s = Ret (brk s) s' ∧
    live s' (brk s) (Arena (RAII_ARENA P + RAII_STRUCT P) 0 0 0 0 0 0) ∧
    blocks s' = <[brk s := sizeof_arena_s]> (blocks s) ∧
    heap s' = <[brk s := Arena (RAII_ARENA P + RAII_STRUCT P) 0 0 0 0 0 0]> (heap s) ∧
    mem s' = mem s ∧ oracle s' = o ∧
    free_list s' = free_list s ∧ num_free s' = num_free s ∧
    allocator_ok s' ∧
    arena_capacity P (brk s) s' = Ret 0 s' ∧
    arena_total P (brk s) s' = Ret 0 s' ∧
    ∀ fuel, arena_clear P fuel (brk s) s' = Ret tt s'.
Proof.
  intros Hh [Hbrk Hok] Hch Hc.
  unfold arena_init, try_malloc, sys_malloc. unfold bind at 1. unfold bind at 1.
  rewrite Hch.
  set (s1 := new_block sizeof_arena_s (set_oracle o s)).
  assert (E : (match c with
               | alloc_fail => Ret 0 (set_oracle o s)
               | _ => Ret (brk s) s1
               end) = Ret (brk s) s1) by by destruct c.
  rewrite E. destruct (decide (brk s = 0)); [lia|]. cbn [ret].
  unfold bind, store. subst s1. cbn. rewrite lookup_insert_eq.
  eexists. split; [reflexivity|].
  set (R := Arena (RAII_ARENA P + RAII_STRUCT P) 0 0 0 0 0 0).
  set (s' := set_heap _ _).
  assert (HR : heap s' !! brk s = Some R) by (subst s'; cbn; by simplify_map_eq).
  split_and!; try done.
  - split; [done|]. subst s'. cbn. rewrite lookup_insert_eq. eauto.
  - subst s'. split; cbn; [unfold sizeof_arena_s; lia|].
    intros p [x Hp]. destruct (decide (p = brk s)) as [->|Hne].
    + unfold sizeof_arena_s. lia.
    + rewrite lookup_insert_ne in Hp by done.
      specialize (Hok p (mk_is_Some _ _ Hp)). unfold sizeof_arena_s. lia.
  - rewrite (arena_capacity_live (brk s) s' R) by done. done.
  - rewrite (arena_total_live (brk s) s' R) by done. cbn.
    rewrite Z.max_r by lia. by rewrite Z.sub_diag.
  - intros fuel. unfold arena_clear, is_empty.
    destruct (Z.eqb_spec (brk s) 0); [lia|].
    destruct fuel; cbn [arena_clear_loop];
      by rewrite (bind_eq _ _ _ _ _ (field_live _ _ _ _ HR)).
Qed.

(** X11. The rounding of a request gives the least multiple of
    sizeof(union header) that holds it: the result is at least the request,
    it is a multiple of sizeof(union header), and no multiple that holds
    the request is smaller; a request that is a multiple already is not
    padded. *)
Theorem round_request_least (nbytes m : Z) :
  0 < sizeof_header P → 0 ≤ nbytes → nbytes + sizeof_header P - 1 ≤ LONG_MAX →
  nbytes ≤ round_request P nbytes ∧
  round_request P nbytes mod sizeof_header P = 0 ∧
  (nbytes ≤ m → m mod sizeof_header P = 0 → round_request P nbytes ≤ m) ∧
  (nbytes mod sizeof_header P = 0 → round_request P nbytes = nbytes).
Proof.
  intros Hh Hn Hmax.
  destruct (round_request_spec P nbytes Hh Hn Hmax) as (E & [Hle Hlt] & Hmod).
  assert (Hleast : ∀ k, nbytes ≤ k → k mod sizeof_header P = 0 →
            round_request P nbytes ≤ k).
  { intros k Hk Hkm.
    apply Z.mod_divide in Hkm as [q ->]; [|lia].
    pose proof Hmod as Hmod'.
    apply Z.mod_divide in Hmod' as [q' Hq']; [|lia].
    rewrite Hq' in *.
    assert (q' < q + 1) by nia.
    apply Z.mul_le_mono_nonneg_r; lia. }
  split; [exact Hle|]. split; [exact Hmod|].
  split; [apply Hleast|].
  intros Hal. specialize (Hleast nbytes). lia.
Qed.

End ArenaGrowth.

(** ** The thread shim: deadlines turned into timeouts *)

(** X12. The Win32 mtx_timedlock never waits less than the time left until
    the deadline, and at most two milliseconds more: for a deadline that is
    ahead and less than 2^32 ms away, the timeout in milliseconds it hands
    to WaitForSingleObject exceeds the time left and is within 2 ms of it.
    For a deadline that has passed the timeout is 0. *)
Theorem timeout_ms_covers_deadline (cur ts : timespec) :
  0 ≤ tv_nsec cur < 10 ^ 9 → 0 ≤ tv_nsec ts < 10 ^ 9 →
  (tv_sec ts - tv_sec cur) * 1000 + 1000 < 2 ^ 32 →
  let left := (tv_sec ts - tv_sec cur) * 10 ^ 9 + (tv_nsec ts - tv_nsec cur) in
  (deadline_passed cur ts = true → left ≤ 0 ∧ timeout_ms cur ts = 0) ∧
  (deadline_passed cur ts = false →
   0 < left ∧ left < timeout_ms cur ts * 10 ^ 6 ≤ left + 2 * 10 ^ 6).
Proof.
  intros Hc Ht Hrange left. split.
  - intros Hd. unfold timeout_ms. rewrite Hd. split; [|done].
    unfold deadline_passed in Hd. apply orb_true_iff in Hd as [Hd|Hd].
    + apply Z.gtb_lt in Hd. subst left. lia.
    + apply andb_true_iff in Hd as [E Hn]. apply Z.eqb_eq in E.
      apply Z.geb_le in Hn. subst left. lia.
  - intros Hd. unfold timeout_ms. rewrite Hd.
    destruct (deadline_not_passed cur ts Hd) as [Hs Hn].
    set (ds := tv_sec ts - tv_sec cur) in *.
    set (dn := tv_nsec ts - tv_nsec cur) in *.
    destruct (quot_rem_1000000 dn) as (Eq & Hpos & Hneg).
    set (q := dn ÷ 1000000) in *. set (m := Z.rem dn 1000000) in *.
    assert (Hq : -1000 < q < 1000) by lia.
    assert (Hq0 : ds = 0 → 0 ≤ q) by (intros E; subst ds; lia).
    unfold DWORD. rewrite (Z.mod_small ds) by lia.
    rewrite (Z.mod_small (ds * 1000)) by lia.
    rewrite (Z.mod_small (ds * 1000 + q)) by lia.
    rewrite (Z.mod_small (ds * 1000 + q + 1)) by lia.
    subst left. lia.
Qed.

(** X13. The Win32 cnd_timedwait rounds both the clock and the deadline
    down to milliseconds before it subtracts: the timeout it passes on is
    within one millisecond of the time left, and can be shorter than it. *)
Theorem cnd_delta_within_a_millisecond (now ts : timespec) :
  0 ≤ tv_sec now < 2 ^ 50 → 0 ≤ tv_sec ts < 2 ^ 50 →
  0 ≤ tv_nsec now < 10 ^ 9 → 0 ≤ tv_nsec ts < 10 ^ 9 →
  (tv_sec ts - tv_sec now) * 1000 + 1000 < 2 ^ 32 →
  let left := (tv_sec ts - tv_sec now) * 10 ^ 9 + (tv_nsec ts - tv_nsec now) in
  Z.max left 0 - 10 ^ 6 < cnd_delta now ts * 10 ^ 6 < Z.max left 0 + 10 ^ 6.
Proof.
  intros Hsn Hst Hn Ht Hr32 left. unfold cnd_delta, ULL, DWORD.
  destruct (quot_rem_1000000 (tv_nsec now)) as (En & Hpn & _).
  destruct (quot_rem_1000000 (tv_nsec ts)) as (Et & Hpt & _).
  set (qn := tv_nsec now ÷ 1000000) in *. set (qt := tv_nsec ts ÷ 1000000) in *.
  set (rn := Z.rem (tv_nsec now) 1000000) in *.
  set (rt := Z.rem (tv_nsec ts) 1000000) in *.
  assert (0 ≤ qn < 1000) by lia. assert (0 ≤ qt < 1000) by lia.
  rewrite (Z.mod_small (tv_sec now * 1000 + qn)) by lia.
  rewrite (Z.mod_small (tv_sec ts * 1000 + qt)) by lia.
  destruct (Z.gtb_spec (tv_sec ts * 1000 + qt) (tv_sec now * 1000 + qn)).
  - rewrite Z.mod_small by lia. subst left. lia.
  - subst left. lia.
Qed.

(** X14. The Win32 thrd_sleep rounds the duration up to whole
    milliseconds, so it never asks for less than the duration and for less
    than a millisecond more.  When the sleep is cut short it returns -1 or
    -2, and what it stores in [*remaining] is the time that has passed
    since the call started (not the time left), brought to
    0 ≤ tv_nsec < 10^9. *)
Theorem sleep_ms_rounds_up (W : Z) (duration start now : timespec) (SleepEx : Z → Z) :
  0 ≤ tv_sec duration → 0 ≤ tv_nsec duration < 10 ^ 9 →
  tv_sec duration * 1000 + 1000 < 2 ^ 32 →
  0 ≤ tv_nsec start < 10 ^ 9 → 0 ≤ tv_nsec now < 10 ^ 9 →
  let d := tv_sec duration * 10 ^ 9 + tv_nsec duration in
  (d ≤ sleep_ms duration * 10 ^ 6 < d + 10 ^ 6) ∧
  (SleepEx (sleep_ms duration) = 0 →
   thrd_sleep_win32 W duration true (Some start) SleepEx (Some now)
     = (inl 0, None)) ∧
  (SleepEx (sleep_ms duration) ≠ 0 →
   ∃ code r,
     thrd_sleep_win32 W duration true (Some start) SleepEx (Some now)
       = (inl code, Some r) ∧
     (code = -1 ∨ code = -2) ∧
     0 ≤ tv_nsec r < 10 ^ 9 ∧
     tv_sec r * 10 ^ 9 + tv_nsec r
       = (tv_sec now * 10 ^ 9 + tv_nsec now)
         - (tv_sec start * 10 ^ 9 + tv_nsec start)).
Proof.
  intros Hs Hn Hr Hst Hnw d. split; [|split].
  - unfold sleep_ms, DWORD.
    destruct (quot_rem_1000000 (tv_nsec duration)) as (Eq & Hp & _).
    set (q := tv_nsec duration ÷ 1000000) in *.
    set (m := Z.rem (tv_nsec duration) 1000000) in *.
    assert (0 ≤ q < 1000) by lia.
    destruct (Z.eqb_spec m 0); rewrite Z.mod_small by lia; subst d; lia.
  - intros E. unfold thrd_sleep_win32. by rewrite E.
  - intros E. unfold thrd_sleep_win32.
    destruct (Z.eqb_spec (SleepEx (sleep_ms duration)) 0); [done|].
    exists (if SleepEx (sleep_ms duration) =? W then -1 else -2), (since start now).
    split_and!.
    + by destruct (SleepEx (sleep_ms duration) =? W).
    + destruct (SleepEx (sleep_ms duration) =? W); auto.
    + unfold since. cbn.
      destruct (Z.ltb_spec (tv_nsec now - tv_nsec start) 0); cbn; lia.
    + unfold since. cbn.
      destruct (Z.ltb_spec (tv_nsec now - tv_nsec start) 0); cbn; lia.
    + unfold since. cbn.
      destruct (Z.ltb_spec (tv_nsec now - tv_nsec start) 0); cbn; lia.
Qed.

(** X15. The polling mtx_timedlock never naps past the deadline: while the
    deadline is ahead, the nap is positive, at most 5 ms and at most the
    time left. *)
Theorem nap_stays_before_deadline (cur ts : timespec) :
  0 ≤ tv_nsec cur < 10 ^ 9 → 0 ≤ tv_nsec ts < 10 ^ 9 →
  deadline_passed cur ts = false →
  let left := (tv_sec ts - tv_sec cur) * 10 ^ 9 + (tv_nsec ts - tv_nsec cur) in
  tv_sec (nap cur ts) = 0 ∧
  0 < tv_nsec (nap cur ts) ≤ 5000000 ∧
  tv_nsec (nap cur ts) ≤ left ∧
  (left ≤ 5000000 → tv_nsec (nap cur ts) = left).
Proof.
  intros Hc Ht Hd left.
  destruct (deadline_not_passed cur ts Hd) as [Hs Hn].
  unfold nap. cbn.
  destruct (Z.ltb_spec (tv_nsec ts - tv_nsec cur) 0); cbn.
  - destruct (Z.eqb_spec (tv_sec ts - tv_sec cur - 1) 0); cbn.
    + destruct (Z.gtb_spec (tv_nsec ts - tv_nsec cur + 1000000000) 5000000);
        cbn; subst left; lia.
    + subst left. lia.
  - destruct (Z.eqb_spec (tv_sec ts - tv_sec cur) 0); cbn.
    + destruct (Z.gtb_spec (tv_nsec ts - tv_nsec cur) 5000000);
        cbn; subst left; lia.
    + subst left. lia.
Qed.

(** ** The thread shim: mutexes and condition variables on Win32 *)

Section ShimSync.

Variable H : host.
Variable T : mtx_types.

(** X16. The flag that makes a Win32 mutex non-recursive.  On a mutex that
    is not recursive, mtx_lock sets mAlreadyLocked and mtx_unlock clears
    it, giving back the record as it was; while the flag is set mtx_trylock
    returns thrd_busy although the operating system grants the lock to its
    owner, and mtx_lock spins.  On a recursive mutex the flag is never
    set.  mtx_unlock clears the flag also when ReleaseMutex fails. *)
Theorem win32_mutex_flag (mtx : mtx_t) (wait : Z) (granted release : bool) :
  mAlreadyLocked mtx = false → wait = WAIT_OBJECT_0 H →
  (mRecursive mtx = false →
   ∃ locked, mtx_lock_win32 H mtx wait = Some (thrd_success, locked) ∧
     mAlreadyLocked locked = true ∧
     mtx_trylock_win32 H locked true wait = (thrd_busy, locked) ∧
     mtx_lock_win32 H locked wait = None ∧
     mtx_unlock_win32 locked true = (thrd_success, mtx)) ∧
  (mRecursive mtx = true →
   mtx_lock_win32 H mtx wait = Some (thrd_success, mtx) ∧
   mtx_trylock_win32 H mtx true wait = (thrd_success, mtx) ∧
   mtx_unlock_win32 mtx true = (thrd_success, mtx)) ∧
  (∀ m, mAlreadyLocked (mtx_unlock_win32 m release).2 = false).
Proof.
  intros Hfree ->. destruct mtx as [al rec timed]. cbn in Hfree. subst al.
  split_and!.
  - cbn. intros ->. exists (Mtx true false timed).
    unfold mtx_lock_win32, mtx_trylock_win32, mtx_unlock_win32, mark_locked. cbn.
    rewrite Z.eqb_refl. by destruct timed.
  - cbn. intros ->.
    unfold mtx_lock_win32, mtx_trylock_win32, mtx_unlock_win32, mark_locked. cbn.
    rewrite Z.eqb_refl. by destruct timed.
  - intros [al' rec' timed']. unfold mtx_unlock_win32. cbn.
    by destruct timed', release.
Qed.

(** X17. mtx_init decides whether mtx_timedlock can be used.  A mutex
    initialised without mtx_timed is created without a call that can fail,
    and mtx_timedlock on it returns thrd_error at once, whatever the
    deadline, the clock and the state of the mutex.  With mtx_timed the
    initialisation fails exactly when CreateMutex returns NULL, and a mutex
    that the wait obtains is locked. *)
Theorem mtx_init_decides_timedlock (type CreateMutex : Z) (now : option timespec)
    (cur ts : timespec) (wait : Z → Z) :
  let r := mtx_init_win32 T type CreateMutex in
  mAlreadyLocked r.2 = false ∧
  (Z.land type (mtx_timed T) = 0 →
   r.1 = thrd_success ∧
   mtx_timedlock_win32 H r.2 now ts wait = Some (thrd_error, r.2)) ∧
  (Z.land type (mtx_timed T) ≠ 0 →
   (r.1 = thrd_error ↔ CreateMutex = 0) ∧
   (wait (timeout_ms cur ts) = WAIT_OBJECT_0 H →
    ∃ locked, mtx_timedlock_win32 H r.2 (Some cur) ts wait
                = Some (thrd_success, locked))).
Proof.
  unfold mtx_init_win32. cbn. split_and!.
  - by repeat case_match.
  - intros ->. cbn. unfold mtx_timedlock_win32. by cbn.
  - intros Hne. destruct (Z.eqb_spec (Z.land type (mtx_timed T)) 0); [done|]. cbn.
    split.
    + destruct (Z.eqb_spec CreateMutex 0); cbn; split; done.
    + intros E. unfold mtx_timedlock_win32.
      destruct (Z.eqb_spec CreateMutex 0); cbn; rewrite E, Z.eqb_refl;
        destruct (negb (Z.land type (mtx_recursive T) =? 0)); cbn; eauto.
Qed.

(** X18. A timed-out wait stays counted.  _cnd_timedwait_win32 brings
    mWaitersCount back to its value only when an event wakes it; a wait
    that ends by WAIT_TIMEOUT or WAIT_FAILED leaves the count one higher.
    cnd_signal and cnd_broadcast call SetEvent exactly when the count is
    positive: with no waiter they do nothing, and after a timed-out wait
    they set the event although no thread waits. *)
Theorem timed_out_waiter_stays_counted (cond : cnd_t) (timeout : Z)
    (wait : Z → Z) (reset : Z) (SetEvent : Z → Z) :
  mWaitersCount cond = 0 → SetEvent _CONDITION_EVENT_ONE ≠ 0 →
  let after := (_cnd_timedwait_win32 H cond timeout wait reset).2 in
  cnd_signal_win32 cond SetEvent = (thrd_success, []) ∧
  cnd_broadcast_win32 cond SetEvent = (thrd_success, []) ∧
  (wait timeout = WAIT_TIMEOUT H ∨ wait timeout = WAIT_FAILED H →
   mWaitersCount after = 1 ∧
   cnd_signal_win32 after SetEvent = (thrd_success, [_CONDITION_EVENT_ONE])) ∧
  (wait timeout ≠ WAIT_TIMEOUT H → wait timeout ≠ WAIT_FAILED H →
   after = cond ∧ cnd_signal_win32 after SetEvent = (thrd_success, [])).
Proof.
  intros Hc Hset after. destruct cond as [n]. cbn in Hc. subst n.
  subst after. unfold _cnd_timedwait_win32, cnd_signal_win32,
    cnd_broadcast_win32, cnd_notify. cbn.
  split_and!; try done.
  - intros [E|E]; rewrite E, ?Z.eqb_refl.
    + cbn. by destruct (Z.eqb_spec (SetEvent _CONDITION_EVENT_ONE) 0).
    + destruct (WAIT_FAILED H =? WAIT_TIMEOUT H); cbn;
        by destruct (Z.eqb_spec (SetEvent _CONDITION_EVENT_ONE) 0).
  - intros Ht Hf.
    destruct (Z.eqb_spec (wait timeout) (WAIT_TIMEOUT H)); [done|].
    destruct (Z.eqb_spec (wait timeout) (WAIT_FAILED H)); [done|].
    by destruct (_ && _); destruct (reset =? 0).
Qed.

(** X19. What the polling mtx_timedlock returns is decided by the first
    poll that is not "busy, with the deadline still ahead".  If that poll
    finds the mutex free the result is thrd_success, whatever the deadline
    (the lock is tried before the clock is read, so a free mutex is taken
    even when the deadline has passed); any other result of trylock than
    EBUSY gives the status of the final switch at once; and a clock that
    cannot be read gives thrd_error. *)
Theorem mtx_timedlock_poll_outcome (ts : timespec) (before : list poll)
    (p : poll) (rest : list poll) :
  Forall (λ q, trylock q = EBUSY H ∧
               ∃ c, clock q = Some c ∧ deadline_passed c ts = false) before →
  (trylock p ≠ EBUSY H →
   mtx_timedlock_poll H ts (before ++ p :: rest) = Some (poll_status H (trylock p))) ∧
  (trylock p = 0 → EBUSY H ≠ 0 →
   mtx_timedlock_poll H ts (before ++ p :: rest) = Some thrd_success) ∧
  (trylock p = EBUSY H → clock p = None →
   mtx_timedlock_poll H ts (before ++ p :: rest) = Some thrd_error) ∧
  mtx_timedlock_poll H ts before = None.
Proof.
  intros Hbefore.
  assert (Hskip : ∀ tail,
    mtx_timedlock_poll H ts (before ++ tail) = mtx_timedlock_poll H ts tail).
  { intros tail. induction Hbefore as [|q before (Ht & c & Hc & Hd) _ IH]; [done|].
    cbn. by rewrite Ht, Z.eqb_refl, Hc, Hd. }
  split_and!.
  - intros Hne. rewrite Hskip. cbn.
    by destruct (Z.eqb_spec (trylock p) (EBUSY H)).
  - intros E Hb. rewrite Hskip. cbn. rewrite E.
    destruct (Z.eqb_spec 0 (EBUSY H)); [done|]. unfold poll_status. done.
  - intros E Hc. rewrite Hskip. cbn. by rewrite E, Z.eqb_refl, Hc.
  - rewrite <- (app_nil_r before). by rewrite Hskip.
Qed.

(** X20. call_once run by one thread: the first call on a fresh flag runs
    the callback once and leaves the flag at 3; every later call returns
    at once without running it, so any number of calls runs the callback
    exactly once. *)
Theorem call_once_runs_once {A} (fuel n : nat) (func : A → A) (a : A) :
  call_once (S fuel) 0 func a = Some (3, func a) ∧
  call_once fuel 3 func (func a) = Some (3, func a) ∧
  call_once_times (S n) (S fuel) 0 func a = Some (3, func a).
Proof.
  assert (H3 : ∀ f x, call_once f 3 func x = Some (3, x)) by (by intros []).
  assert (Hn : ∀ k x, call_once_times k (S fuel) 3 func x = Some (3, x)).
  { induction k as [|k IH]; intros x; [done|]. cbn [call_once_times].
    by rewrite H3. }
  split_and!; [done|apply H3|].
  cbn [call_once_times]. change (call_once (S fuel) 0 func a) with (Some (3, func a)).
  apply Hn.
Qed.

End ShimSync.

(** ** The thread shim: the bookkeeping of threads on Win32 *)

Lemma _insert_thread_data_app data head :
  _insert_thread_data data head = head ++ [data].
Proof. induction head as [|n head IH]; [done|]. cbn. by rewrite IH. Qed.

Lemma lookup_unregistered id head :
  Forall (λ n, thread_id n ≠ id) head → _lookup_thread_handle id head = 0.
Proof.
  induction 1 as [|n head Hn _ IH]; [done|]. cbn.
  by destruct (Z.eqb_spec (thread_id n) id).
Qed.

Lemma remove_unregistered id head :
  Forall (λ n, thread_id n ≠ id) head → _remove_thread_data id head = (head, None).
Proof.
  induction 1 as [|n head Hn _ IH]; [done|]. cbn.
  destruct (Z.eqb_spec (thread_id n) id); [done|]. by rewrite IH.
Qed.

Lemma remove_inserted data head :
  Forall (λ n, thread_id n ≠ thread_id data) head →
  _remove_thread_data (thread_id data) (_insert_thread_data data head)
    = (head, Some (node data)).
Proof.
  induction 1 as [|n head Hn _ IH]; cbn.
  - by rewrite Z.eqb_refl.
  - destruct (Z.eqb_spec (thread_id n) (thread_id data)); [done|]. by rewrite IH.
Qed.

(** X21. The chain of thread data.  _insert_thread_data appends, and
    _lookup_thread_handle and _remove_thread_data act on the first node
    with the id: a thread inserted under a fresh id is found with its
    handle and removed again, giving back the chain as it was; a node
    that is already there under the same id hides the new one; other ids
    are not affected; an id that is not there is looked up as NULL and
    its removal changes nothing; and when the ids are distinct a removed
    id is no longer found. *)
Theorem thread_chain_round_trip (data : CThreadThrdData) (id : Z)
    (head : list CThreadThrdData) :
  (Forall (λ n, thread_id n ≠ thread_id data) head →
   _lookup_thread_handle (thread_id data) (_insert_thread_data data head)
     = thread_handle data ∧
   _remove_thread_data (thread_id data) (_insert_thread_data data head)
     = (head, Some (node data))) ∧
  (Exists (λ n, thread_id n = id) head →
   _lookup_thread_handle id (_insert_thread_data data head)
     = _lookup_thread_handle id head) ∧
  (id ≠ thread_id data →
   _lookup_thread_handle id (_insert_thread_data data head)
     = _lookup_thread_handle id head) ∧
  (Forall (λ n, thread_id n ≠ id) head →
   _lookup_thread_handle id head = 0 ∧
   _remove_thread_data id head = (head, None)) ∧
  (NoDup (thread_id <$> head) →
   _lookup_thread_handle id (_remove_thread_data id head).1 = 0).
Proof.
  split_and!.
  - intros Hfresh. split; [|by apply remove_inserted].
    induction Hfresh as [|n head Hn _ IH]; cbn.
    + by rewrite Z.eqb_refl.
    + by destruct (Z.eqb_spec (thread_id n) (thread_id data)).
  - induction head as [|n head IH]; intros Hex; [by apply Exists_nil in Hex|].
    cbn. destruct (Z.eqb_spec (thread_id n) id) as [E|E]; [done|].
    apply IH. apply Exists_cons in Hex as [|]; done.
  - intros Hne. induction head as [|n head IH]; cbn.
    + by destruct (Z.eqb_spec (thread_id data) id).
    + by rewrite IH.
  - intros Hnone. split; [by apply lookup_unregistered|by apply remove_unregistered].
  - induction head as [|n head IH]; intros Hnd; [done|]. cbn.
    apply NoDup_cons in Hnd as [Hn Hnd].
    destruct (Z.eqb_spec (thread_id n) id) as [E|E].
    + cbn. apply lookup_unregistered. apply Forall_forall. intros m Hm Em.
      apply Hn. rewrite E, <- Em. by apply list_elem_of_fmap_2.
    + specialize (IH Hnd). destruct (_remove_thread_data id head) as [rest freed].
      cbn in *. by destruct (Z.eqb_spec (thread_id n) id).
Qed.

Lemma difference_union_fresh (p : Z) (A : gset Z) :
  p ∉ A → ({[p]} ∪ A) ∖ {[p]} = A.
Proof.
  intros Hp. apply set_eq. intros x.
  rewrite elem_of_difference, elem_of_union, elem_of_singleton. split.
  - intros [[->|Hx] Hne]; done.
  - intros Hx. split; [by right|]. by intros ->.
Qed.

Lemma free_fresh_block p w :
  p ∉ allocated w → start_infos w !! p = None →
  free_block p (malloc_block p w) = w.
Proof.
  intros Hp Hi. destruct w as [head infos alloc]. unfold free_block, malloc_block.
  cbn in *. by rewrite delete_id, difference_union_fresh.
Qed.

Lemma free_start_info ti func arg w :
  ti ∉ allocated w → start_infos w !! ti = None →
  free_block ti (write_start_info ti func arg (malloc_block ti w)) = w.
Proof.
  intros Hp Hi. destruct w as [head infos alloc].
  unfold free_block, write_start_info, malloc_block. cbn in *.
  by rewrite delete_insert_eq, delete_id, difference_union_fresh.
Qed.

Lemma free_block_comm p q w :
  free_block p (free_block q w) = free_block q (free_block p w).
Proof.
  destruct w as [head infos alloc]. unfold free_block. cbn. f_equal.
  - apply delete_delete.
  - apply set_eq. intros x. rewrite !elem_of_difference. tauto.
Qed.

Section ThreadsFacts.

Variable H : host.

(** X22. A thread that is created, runs and is joined, on Win32.  When the
    two allocations and CreateThread succeed and the id is new,
    thrd_create registers the thread and stores its id; the new thread
    frees the start info and calls the client's function with the
    argument; thrd_join then stores the int the function returned, and
    leaves the chain, the start infos and the allocated blocks as they were
    before thrd_create, and so does thrd_detach in its place.  After that
    the id is not found: thrd_join and thrd_detach return thrd_error and
    change nothing. *)
Theorem created_thread_is_joined_once (ti data hnd arg : Z) (func : Z → Z)
    (GetThreadId wait : Z → Z) (GetExitCodeThread : Z → option Z)
    (CloseHandle : Z → bool) (w : threads) :
  ti ≠ 0 → data ≠ 0 → ti ≠ data → hnd ≠ 0 →
  ti ∉ allocated w → data ∉ allocated w →
  start_infos w !! ti = None → start_infos w !! data = None →
  Forall (λ n, thread_id n ≠ GetThreadId hnd) (_cthread_thread_head w) →
  wait hnd ≠ WAIT_FAILED H → CloseHandle hnd = true →
  - 2 ^ 31 ≤ func arg < 2 ^ 31 →
  GetExitCodeThread hnd = Some (DWORD (func arg)) →
  let id := GetThreadId hnd in
  ∃ w1 w2,
    thrd_create_win32 ti data hnd GetThreadId func arg w
      = (thrd_success, Some id, w1) ∧
    _lookup_thread_handle id (_cthread_thread_head w1) = hnd ∧
    _thrd_wrapper_function ti w1 = Some (func arg, w2) ∧
    thrd_join_win32 H id true wait GetExitCodeThread CloseHandle w2
      = (thrd_success, Some (func arg), w) ∧
    thrd_detach_win32 id CloseHandle w2 = (thrd_success, w) ∧
    thrd_join_win32 H id true wait GetExitCodeThread CloseHandle w
      = (thrd_error, None, w) ∧
    thrd_detach_win32 id CloseHandle w = (thrd_error, w).
Proof.
  intros Hti Hdata Hne Hhnd Hfti Hfdata Hiti Hidata Hfresh Hwait Hclose Hint Hexit id.
  destruct w as [head infos alloc]. cbn in *.
  pose proof (lookup_unregistered id head Hfresh) as Hlook0.
  pose proof (remove_inserted (ThrdData data id hnd) head Hfresh) as Hrem.
  assert (Hlook : _lookup_thread_handle id
                    (_insert_thread_data (ThrdData data id hnd) head) = hnd).
  { clear Hrem Hlook0. induction Hfresh as [|n head Hn _ IH]; cbn.
    - by rewrite Z.eqb_refl.
    - by destruct (Z.eqb_spec (thread_id n) id). }
  cbn in Hrem.
  unfold thrd_create_win32.
  destruct (Z.eqb_spec ti 0); [done|]. destruct (Z.eqb_spec data 0); [done|].
  destruct (Z.eqb_spec hnd 0); [done|].
  eexists _, _. split; [reflexivity|]. cbn. split; [exact Hlook|].
  unfold _thrd_wrapper_function. cbn. rewrite lookup_insert_eq. cbn.
  split; [reflexivity|].
  assert (Eint : to_int (DWORD (func arg)) = func arg).
  { unfold to_int, DWORD. rewrite Z.mod_mod by lia.
    destruct (Z.ltb_spec (func arg mod 2 ^ 32) (2 ^ 31)) as [Hlt|Hge].
    - destruct (Z.lt_ge_cases (func arg) 0) as [Hneg|Hpos].
      + rewrite <- (Z.mod_add _ 1) in Hlt by lia.
        rewrite Z.mod_small in Hlt by lia. lia.
      + apply Z.mod_small. lia.
    - destruct (Z.lt_ge_cases (func arg) 0) as [Hneg|Hpos].
      + rewrite <- (Z.mod_add _ 1) by lia. rewrite Z.mod_small by lia. lia.
      + rewrite Z.mod_small in Hge by lia. lia. }
  assert (Hback :
    free_block data
      (set_thread_head head
         (free_block ti
            (set_thread_head (_insert_thread_data (ThrdData data id hnd) head)
               (malloc_block data
                  (write_start_info ti func arg
                     (malloc_block ti (Threads head infos alloc)))))))
    = Threads head infos alloc).
  { unfold free_block, set_thread_head. cbn. f_equal.
    - rewrite delete_insert_eq, (delete_id infos ti) by done.
      by rewrite delete_id.
    - apply set_eq. intros x.
      rewrite !elem_of_difference, !elem_of_union, !elem_of_singleton.
      split; [tauto|]. intros Hx. split_and!; [tauto|by intros ->..]. }
  split_and!.
  - unfold thrd_join_win32, remove_thread. cbn. fold id. rewrite Hlook, Hrem.
    destruct (Z.eqb_spec hnd 0); [done|].
    destruct (Z.eqb_spec (wait hnd) (WAIT_FAILED H)); [done|].
    rewrite Hexit, Hclose, Eint. by rewrite Hback.
  - unfold thrd_detach_win32, remove_thread. cbn. fold id. rewrite Hlook, Hrem.
    destruct (Z.eqb_spec hnd 0); [done|]. rewrite Hclose. by rewrite Hback.
  - unfold thrd_join_win32. cbn. fold id. by rewrite Hlook0.
  - unfold thrd_detach_win32. cbn. fold id. by rewrite Hlook0.
Qed.

(** X23. thrd_create gives back what it allocated when it fails.  If the
    first malloc fails nothing happens; if the second malloc or
    CreateThread (on POSIX, pthread_create) fails, the blocks obtained so
    far are freed, so that the chain, the start infos and the allocated
    blocks are as before, and the status is thrd_nomem for a failed malloc
    and thrd_error for a failed thread creation. *)
Theorem thrd_create_failure_frees (ti data hnd rc thr arg : Z) (func : Z → Z)
    (GetThreadId : Z → Z) (w : threads) :
  ti ∉ allocated w → data ∉ allocated w → ti ≠ data →
  start_infos w !! ti = None → start_infos w !! data = None →
  thrd_create_win32 0 data hnd GetThreadId func arg w = (thrd_nomem, None, w) ∧
  thrd_create_posix 0 rc thr func arg w = (thrd_nomem, None, w) ∧
  (ti ≠ 0 →
   thrd_create_win32 ti 0 hnd GetThreadId func arg w = (thrd_nomem, None, w) ∧
   (data ≠ 0 →
    thrd_create_win32 ti data 0 GetThreadId func arg w = (thrd_error, None, w)) ∧
   (rc ≠ 0 →
    thrd_create_posix ti rc thr func arg w = (thrd_error, None, w))).
Proof.
  intros Hfti Hfdata Hne Hiti Hidata.
  pose proof (free_start_info ti func arg w Hfti Hiti) as E1.
  split_and!; try done.
  intros Hti. split_and!.
  - unfold thrd_create_win32. destruct (Z.eqb_spec ti 0); [done|].
    cbn. by rewrite E1.
  - intros Hdata. unfold thrd_create_win32.
    destruct (Z.eqb_spec ti 0); [done|]. destruct (Z.eqb_spec data 0); [done|].
    cbn. rewrite free_block_comm, free_fresh_block.
    + by rewrite E1.
    + cbn. rewrite elem_of_union, elem_of_singleton. intros [|]; done.
    + cbn. by rewrite lookup_insert_ne.
  - intros Hrc. unfold thrd_create_posix.
    destruct (Z.eqb_spec ti 0); [done|]. destruct (Z.eqb_spec rc 0); [done|].
    cbn. by rewrite E1.
Qed.

End ThreadsFacts.

(** ** The thread shim: thread-specific storage on Win32 *)

(** What a successful tss_set leaves: the slot of the key holds a node with
    the value, and the values of the other nodes are as before. *)
Lemma tss_set_success k val malloc ok w w' :
  tss_set k val malloc ok w = Some (thrd_success, w') →
  let data := if TlsGetValue k w =? 0 then malloc else TlsGetValue k w in
  data ≠ 0 ∧
  tls_slots w' = (if TlsGetValue k w =? 0 then <[k := data]> (tls_slots w)
                  else tls_slots w) ∧
  value <$> tss_nodes w' !! data = Some val ∧
  ∀ p, p ≠ data → value <$> tss_nodes w' !! p = value <$> tss_nodes w !! p.
Proof.
  unfold tss_set. intros Hset.
  destruct (Z.eqb_spec (TlsGetValue k w) 0) as [E0|E0].
  - destruct (Z.eqb_spec malloc 0) as [|Hm]; [done|].
    cbn in Hset. destruct ok; cbn in Hset.
    2: { destruct (negb (_ =? 0)); cbn in Hset; [|by destruct (_ =? 0)].
         destruct (set_next _ _ _); cbn in Hset; [|done]. by destruct (_ =? 0). }
    unfold set_next, set_value in Hset. cbn in Hset.
    destruct (Z.eqb_spec (_cthread_tss_tail w) 0) as [Et|Et]; cbn in Hset.
    + destruct (_cthread_tss_head w =? 0); cbn in Hset;
        rewrite lookup_insert_eq in Hset; cbn in Hset; injection Hset as <-;
        cbn; (split_and!; [done|done|by rewrite lookup_insert_eq|]);
        intros p Hp; by rewrite !lookup_insert_ne.
    + destruct (decide (_cthread_tss_tail w = malloc)) as [Etm|Etm].
      * rewrite Etm, lookup_insert_eq in Hset. cbn in Hset.
        destruct (_cthread_tss_head w =? 0); cbn in Hset;
          rewrite lookup_insert_eq in Hset; cbn in Hset; injection Hset as <-;
          cbn; (split_and!; [done|done|by rewrite lookup_insert_eq|]);
          intros p Hp; by rewrite !lookup_insert_ne.
      * rewrite lookup_insert_ne in Hset by done.
        destruct (tss_nodes w !! _cthread_tss_tail w) as [nt|] eqn:Ent; [|done].
        cbn in Hset.
        destruct (_cthread_tss_head w =? 0); cbn in Hset;
          rewrite lookup_insert_ne, lookup_insert_eq in Hset by done;
          cbn in Hset; injection Hset as <-;
          cbn; (split_and!; [done|done|by rewrite lookup_insert_eq|]);
          intros p Hp; rewrite lookup_insert_ne by done;
          (destruct (decide (p = _cthread_tss_tail w)) as [->|Hpt];
           [rewrite lookup_insert_eq, Ent; done
           |by rewrite !lookup_insert_ne by done]).
  - unfold set_value in Hset.
    destruct (tss_nodes w !! TlsGetValue k w) as [n|] eqn:En; [|done].
    cbn in Hset. injection Hset as <-. cbn.
    split_and!; [done|done|by rewrite lookup_insert_eq|].
    intros p Hp. by rewrite lookup_insert_ne.
Qed.

Lemma tss_get_value k w :
  tss_get k w = if TlsGetValue k w =? 0 then Some 0
                else value <$> tss_nodes w !! TlsGetValue k w.
Proof.
  unfold tss_get. destruct (_ =? 0); [done|].
  by destruct (tss_nodes w !! TlsGetValue k w).
Qed.

(** X24. tss_set and tss_get.  After a tss_set that returns thrd_success,
    tss_get of the key returns the value stored.  The value another key
    reads is not affected, provided the two keys do not share a node; and
    a key that was never set reads as NULL. *)
Theorem tss_set_then_get (k k' val malloc v : Z) (ok : bool) (w w' : tss) :
  tss_set k val malloc ok w = Some (thrd_success, w') →
  tss_get k w' = Some val ∧
  (k' ≠ k → TlsGetValue k' w ≠ TlsGetValue k w →
   tss_nodes w !! malloc = None →
   tss_get k' w = Some v → tss_get k' w' = Some v) ∧
  (tls_slots w !! k' = None → tss_get k' w = Some 0).
Proof.
  intros Hset.
  destruct (tss_set_success k val malloc ok w w' Hset) as (Hd & Hslots & Hval & Hrest).
  cbn in *. split_and!.
  - rewrite tss_get_value. unfold TlsGetValue at 1 2. rewrite Hslots.
    destruct (Z.eqb_spec (TlsGetValue k w) 0) as [E0|E0].
    + rewrite lookup_insert_eq. cbn.
      destruct (Z.eqb_spec malloc 0); [done|]. exact Hval.
    + fold (TlsGetValue k w). destruct (Z.eqb_spec (TlsGetValue k w) 0); done.
  - intros Hk Hshare Hfresh. rewrite !tss_get_value.
    assert (Es : TlsGetValue k' w' = TlsGetValue k' w).
    { unfold TlsGetValue. rewrite Hslots.
      destruct (TlsGetValue k w =? 0); [|done]. by rewrite lookup_insert_ne. }
    rewrite Es. destruct (Z.eqb_spec (TlsGetValue k' w) 0); [done|].
    intros Hv. rewrite Hrest; [done|].
    destruct (Z.eqb_spec (TlsGetValue k w) 0); [|done].
    intros E. rewrite E, Hfresh in Hv. done.
  - intros Hnone. unfold tss_get, TlsGetValue. by rewrite Hnone.
Qed.

(** tss_set of a key without a node, on an empty list and on a list whose
    tail is [t]. *)
Lemma tss_set_first k val p nodes dtors slots :
  slots !! k = None → p ≠ 0 →
  tss_set k val p true (TSS nodes 0 0 dtors slots)
    = Some (thrd_success,
            TSS (<[p := TSSData val k 0]> nodes) p p dtors (<[k := p]> slots)).
Proof.
  intros Hk Hp. unfold tss_set, TlsGetValue. cbn. rewrite Hk. cbn.
  destruct (Z.eqb_spec p 0); [done|]. cbn.
  unfold set_value. cbn. rewrite lookup_insert_eq. cbn.
  unfold set_tss_nodes. cbn. by rewrite insert_insert_eq.
Qed.

Lemma tss_set_later k val p nodes h t nt dtors slots :
  slots !! k = None → p ≠ 0 → h ≠ 0 → t ≠ 0 → t ≠ p →
  nodes !! t = Some nt →
  tss_set k val p true (TSS nodes h t dtors slots)
    = Some (thrd_success,
            TSS (<[p := TSSData val k 0]>
                   (<[t := TSSData (value nt) (key nt) p]> nodes))
                h t dtors (<[k := p]> slots)).
Proof.
  intros Hk Hp Hh Ht Htp Hnt. unfold tss_set, TlsGetValue. cbn. rewrite Hk. cbn.
  destruct (Z.eqb_spec p 0); [done|]. destruct (Z.eqb_spec t 0); [done|]. cbn.
  unfold set_next. cbn. rewrite lookup_insert_ne, Hnt by done. cbn.
  destruct (Z.eqb_spec h 0); [done|].
  unfold set_value. cbn.
  rewrite lookup_insert_ne, lookup_insert_eq by done. cbn.
  unfold set_tss_nodes. cbn. do 3 f_equal.
  rewrite (insert_insert_ne _ t p) by done. by rewrite insert_insert_eq.
Qed.

(** X25. The list of a thread's nodes keeps two of them at most.  tss_set
    sets _cthread_tss_tail only while it is NULL, so the tail stays at the
    first node and every new node is linked right behind it, in place of
    the one before: after values have been stored for three keys, the list
    holds the nodes of the first and the third, while the second key still
    reads its value. *)
Theorem tss_list_drops_second (k1 k2 k3 v1 v2 v3 n1 n2 n3 : Z) :
  k1 ≠ k2 → k1 ≠ k3 → k2 ≠ k3 →
  n1 ≠ 0 → n2 ≠ 0 → n3 ≠ 0 → n1 ≠ n2 → n1 ≠ n3 → n2 ≠ n3 →
  ∃ w1 w2 w3,
    tss_set k1 v1 n1 true tss_empty = Some (thrd_success, w1) ∧
    tss_set k2 v2 n2 true w1 = Some (thrd_success, w2) ∧
    tss_set k3 v3 n3 true w2 = Some (thrd_success, w3) ∧
    tss_list w2 (_cthread_tss_head w2) [n1; n2] ∧
    tss_list w3 (_cthread_tss_head w3) [n1; n3] ∧
    _cthread_tss_tail w3 = n1 ∧
    tss_get k1 w3 = Some v1 ∧ tss_get k2 w3 = Some v2 ∧ tss_get k3 w3 = Some v3.
Proof.
  intros Hk12 Hk13 Hk23 H1 H2 H3 H12 H13 H23.
  assert (Hz : ∀ n, n ≠ 0 → (n =? 0) = false) by (intros; by apply Z.eqb_neq).
  eexists _, _, _. split; [by apply tss_set_first|].
  split.
  { eapply tss_set_later; try done.
    - by rewrite lookup_insert_ne.
    - by rewrite lookup_insert_eq. }
  split.
  { eapply tss_set_later; try done.
    - by rewrite !lookup_insert_ne.
    - by rewrite lookup_insert_ne, lookup_insert_eq. }
  cbn. split_and!.
  - eapply tss_list_node; [done|by simplify_map_eq|]. cbn.
    eapply tss_list_node; [done|by simplify_map_eq|]. cbn. constructor.
  - eapply tss_list_node; [done|by simplify_map_eq|]. cbn.
    eapply tss_list_node; [done|by simplify_map_eq|]. cbn. constructor.
  - done.
  - unfold tss_get, TlsGetValue. cbn. simplify_map_eq.
    rewrite (Hz n1) by done. by simplify_map_eq.
  - unfold tss_get, TlsGetValue. cbn. simplify_map_eq.
    rewrite (Hz n2) by done. by simplify_map_eq.
  - unfold tss_get, TlsGetValue. cbn. simplify_map_eq.
    rewrite (Hz n3) by done. by simplify_map_eq.
Qed.

(** ** The further theorems at concrete inputs *)

(** X1 on an arena that has been used and cleared once. *)
Lemma arena_clear_terminates_witness :
  arena_clear lp64 11 handle
    (after_calls lp64 [call_init; call_malloc 2 handle 5000; call_clear 2 handle] boot)
  ≠ OutOfFuel.
Proof.
  apply arena_clear_terminates. vm_compute. lia.
Defined.

(** X2 on an arena whose chunk is on the free list: the first turn takes
    it, the second grows the arena. *)
Lemma malloc_arena_terminates_witness :
  let s := after_calls lp64 [call_init; call_malloc 2 handle 8;
                             call_clear 2 handle; call_malloc 2 handle 10000] boot in
  malloc_arena lp64 1 handle 20000 s = OutOfFuel ∧
  malloc_arena lp64 2 handle 20000 s ≠ OutOfFuel.
Proof.
  intros s. split; [vm_compute; reflexivity|].
  apply (malloc_arena_terminates lp64 2 handle 20000 s).
  - reflexivity.
  - apply after_calls_reachable. eexists. vm_compute. reflexivity.
  - intros r Hr. vm_compute in Hr. injection Hr as <-.
    unfold growth_fits. vm_compute. split_and!; by intros.
  - lia.
Defined.

(** X3 for a request of 100 bytes. *)
Lemma first_allocation_accounting_witness :
  let s := after_calls lp64 [call_init] boot in
  returns
    ((do p <- malloc_arena lp64 1 handle 100;
      do cap <- arena_capacity lp64 handle;
      do tot <- arena_total lp64 handle;
      ret (p, cap, tot)) s)
    (λ v s',
       v = (chunk + 8, 10240, 104 + 10240) ∧
       blocks s' = <[chunk := 104 + (8 + 10240)]> (blocks s) ∧
       oracle s' = []).
Proof.
  intros s.
  apply (first_allocation_accounting lp64 handle 100 s alloc_fresh []).
  - reflexivity.
  - reflexivity.
  - by vm_compute.
  - by vm_compute.
  - discriminate.
  - split; [vm_compute; reflexivity|eexists; vm_compute; reflexivity].
  - reflexivity.
  - apply allocator_ok_decide. vm_compute. reflexivity.
  - reflexivity.
  - discriminate.
Defined.

(** X4 for a request of 100 bytes followed, after the clear, by one of 300. *)
Lemma clear_makes_region_reusable_witness :
  let s := after_calls lp64 [call_init] boot in
  returns
    ((do p1 <- malloc_arena lp64 1 handle 100;
      arena_clear lp64 1 handle;;
      do p2 <- malloc_arena lp64 0 handle 300;
      ret (p1, p2)) s)
    (λ v s',
       v.1 = chunk + 8 ∧ v.2 = v.1 ∧
       blocks s' = <[chunk := 104 + (8 + 10240)]> (blocks s) ∧
       oracle s' = [] ∧ free_list s' = chunk ∧
       ∃ r', heap s' !! handle = Some r' ∧ prev r' = chunk).
Proof.
  intros s.
  apply (clear_makes_region_reusable lp64 0 handle 100 300 s alloc_fresh []).
  - reflexivity.
  - reflexivity.
  - by vm_compute.
  - by vm_compute.
  - discriminate.
  - split; [vm_compute; reflexivity|eexists; vm_compute; reflexivity].
  - reflexivity.
  - apply allocator_ok_decide. vm_compute. reflexivity.
  - reflexivity.
  - discriminate.
  - reflexivity.
  - by vm_compute.
Defined.

(** X5 when realloc resizes the block in place. *)
Lemma growth_restarts_the_block_witness :
  let s := after_calls lp64 [call_init] boot_in_place in
  returns
    ((do p1 <- malloc_arena lp64 1 handle 8;
      do p2 <- malloc_arena lp64 1 handle 20000;
      ret (p1, p2)) s)
    (λ v s', v.1 = chunk + 8 ∧ v.2 = v.1).
Proof.
  intros s.
  apply (growth_restarts_the_block lp64 handle 8 20000 s alloc_fresh alloc_same []).
  - reflexivity.
  - reflexivity.
  - reflexivity.
  - by vm_compute.
  - by vm_compute.
  - by vm_compute.
  - by vm_compute.
  - discriminate.
  - split; [vm_compute; reflexivity|eexists; vm_compute; reflexivity].
  - reflexivity.
  - apply allocator_ok_decide. vm_compute. reflexivity.
  - reflexivity.
  - discriminate.
  - discriminate.
Defined.

(** X6 for requests of 10 and of 20 bytes in an arena with room. *)
Lemma consecutive_allocations_adjacent_witness :
  let s := after_calls lp64 [call_init; call_malloc 2 handle 8] boot in
  returns
    ((do p1 <- malloc_arena lp64 0 handle 10;
      do p2 <- malloc_arena lp64 0 handle 20;
      ret (p1, p2)) s)
    (λ v s', v = (65608, 65624) ∧ blocks s' = blocks s).
Proof.
  intros s. eapply returns_mono.
  - apply (consecutive_allocations_adjacent lp64 0 0 handle 10 20 s
             (Arena 3 chunk 65608 75848 chunk 8 10256)).
    + reflexivity.
    + reflexivity.
    + reflexivity.
    + by vm_compute.
    + by vm_compute.
    + discriminate.
    + split; [vm_compute; reflexivity|eexists; vm_compute; reflexivity].
    + right. exists (Arena 1 0 0 0 chunk 0 10256).
      split; [vm_compute; reflexivity|eexists; vm_compute; reflexivity].
    + by vm_compute.
  - cbv beta. intros [p1 p2] s' (E1 & E2 & _ & _ & Hb & _). cbn in *.
    split; [|done]. rewrite E1, E2. reflexivity.
Defined.

(** X7 on an empty handle and on a count of zero. *)
Lemma bad_arguments_are_refused_witness :
  let s := after_calls lp64 [call_init] boot in
  malloc_arena lp64 2 0 8 s = Throw assertion_failure s ∧
  malloc_arena lp64 2 handle (-8) s = Throw assertion_failure s ∧
  calloc_arena lp64 2 handle 0 8 s = Throw assertion_failure s ∧
  calloc_arena lp64 2 handle 4 0 s = Throw assertion_failure s ∧
  malloc_arena lp64_nocheck 2 0 8 s = Undef.
Proof.
  intros s.
  destruct (bad_arguments_are_refused lp64 2 0 0 8 s) as (H1 & _ & _ & _).
  destruct (bad_arguments_are_refused lp64 2 handle 0 8 s) as (_ & H2 & _ & _).
  destruct (bad_arguments_are_refused lp64 2 handle 4 (-8) s) as (H3 & _ & _ & _).
  destruct (bad_arguments_are_refused lp64 2 handle 4 0 s) as (_ & _ & H4 & _).
  destruct (bad_arguments_are_refused lp64_nocheck 2 0 0 8 s) as (_ & _ & _ & H5).
  split_and!.
  - apply H1; [reflexivity|by left].
  - apply H3; [reflexivity|right; lia].
  - apply H2; [reflexivity|lia].
  - apply H4; [reflexivity|lia|right; lia|reflexivity].
  - apply H5; [reflexivity|vm_compute; reflexivity].
Defined.

(** X8 on an arena that holds one allocation. *)
Lemma arena_free_releases_witness :
  let s := after_calls lp64 [call_init; call_malloc 2 handle 8] boot in
  ∃ s', arena_free lp64 handle s = Ret tt s' ∧
        blocks s' !! handle = None ∧ blocks s' !! chunk = None ∧
        free_list s' = free_list s ∧
        arena_free lp64 handle s' = Undef ∧
        arena_free lp64 chunk s = Ret tt s.
Proof.
  intros s.
  destruct (arena_free_releases lp64 handle s (Arena 3 chunk 65608 75848 chunk 8 10256))
    as [(s' & E & Hb & _ & Hbase & _ & _ & _ & _ & Hfl & _ & _ & _ & Hfree & _) Hother].
  - discriminate.
  - split; [vm_compute; reflexivity|eexists; vm_compute; reflexivity].
  - reflexivity.
  - right. split; [discriminate|eexists; vm_compute; reflexivity].
  - exists s'. split_and!; [exact E|exact Hb|by apply Hbase|exact Hfl|exact Hfree|].
    apply (Hother chunk (Arena 1 0 0 0 chunk 0 10256)).
    + discriminate.
    + vm_compute. reflexivity.
    + discriminate.
Defined.

(** X9 after an arena was cleared and freed: the chunk it pushed is the
    head of the free list when the next arena asks for memory. *)
Lemma released_chunk_on_free_list_witness :
  let s := after_calls lp64 [call_init; call_malloc 2 handle 8;
                             call_clear 2 handle; call_free handle;
                             call_init] boot in
  free_list s = chunk ∧ blocks s !! chunk = None ∧
  malloc_arena lp64 1 75848 8 s = Undef.
Proof.
  intros s. split_and!; [vm_compute; reflexivity..|].
  apply (released_chunk_on_free_list lp64 0 75848 8 s (Arena 3 0 0 0 0 0 0)).
  - discriminate.
  - split; [vm_compute; reflexivity|eexists; vm_compute; reflexivity].
  - by right.
  - by vm_compute.
  - vm_compute. reflexivity.
  - by vm_compute.
Defined.

(** X10 at the start of the process. *)
Lemma arena_init_fresh_witness :
  ∃ s', arena_init lp64 boot = Ret handle s' ∧
        arena_capacity lp64 handle s' = Ret 0 s' ∧
        arena_total lp64 handle s' = Ret 0 s' ∧
        arena_clear lp64 3 handle s' = Ret tt s'.
Proof.
  destruct (arena_init_fresh lp64 boot alloc_fresh [])
    as (s' & E & _ & _ & _ & _ & _ & _ & _ & _ & Hc & Ht & Hclr).
  - by vm_compute.
  - apply allocator_ok_decide. vm_compute. reflexivity.
  - reflexivity.
  - discriminate.
  - exists s'. split_and!; [exact E|exact Hc|exact Ht|apply Hclr].
Defined.

(** X11 for requests of 13 and of 16 bytes with an 8-byte header: 13 is
    rounded to 24, not to 16 (too small) and not to 32 (not the least). *)
Lemma round_request_least_witness :
  (13 ≤ round_request lp64 13 ∧ round_request lp64 13 mod 8 = 0 ∧
   round_request lp64 13 ≤ 24) ∧
  round_request lp64 16 = 16.
Proof.
  destruct (round_request_least lp64 13 24) as (Hge & Hmul & H13 & _);
    [reflexivity|by vm_compute|by vm_compute|].
  destruct (round_request_least lp64 16 16) as (_ & _ & _ & H16);
    [reflexivity|by vm_compute|by vm_compute|].
  split; [|apply H16; reflexivity].
  split; [exact Hge|]. split; [exact Hmul|].
  apply H13; [by vm_compute|reflexivity].
Defined.

(** X12 one millisecond and a microsecond before the deadline: the timeout
    is 3 ms. *)
Lemma timeout_ms_covers_deadline_witness :
  let cur := Timespec 4 999000000 in
  let ts := Timespec 5 1000 in
  timeout_ms cur ts = 3 ∧ 1001000 < timeout_ms cur ts * 10 ^ 6 ≤ 1001000 + 2 * 10 ^ 6.
Proof.
  intros cur ts. split; [reflexivity|].
  destruct (timeout_ms_covers_deadline cur ts) as [_ Hahead];
    [by vm_compute..|].
  destruct (Hahead eq_refl) as [_ Hbound]. exact Hbound.
Defined.

(** X13 a millisecond before the deadline, within the same millisecond of
    the clock: the timeout is 0. *)
Lemma cnd_delta_within_a_millisecond_witness :
  let now := Timespec 4 1 in
  let ts := Timespec 4 999999 in
  cnd_delta now ts = 0 ∧
  Z.max 999998 0 - 10 ^ 6 < cnd_delta now ts * 10 ^ 6 < Z.max 999998 0 + 10 ^ 6.
Proof.
  intros now ts. split; [reflexivity|].
  apply (cnd_delta_within_a_millisecond now ts); by vm_compute.
Defined.

(** X14 for a sleep of one second and 500001 ns that is interrupted after
    half a second. *)
Lemma sleep_ms_rounds_up_witness :
  sleep_ms (Timespec 1 500001) = 1001 ∧
  thrd_sleep_win32 192 (Timespec 1 500001) true (Some (Timespec 7 900000000))
    (λ _, 192) (Some (Timespec 8 400000000))
  = (inl (-1), Some (Timespec 0 500000000)).
Proof.
  destruct (sleep_ms_rounds_up 192 (Timespec 1 500001) (Timespec 7 900000000)
              (Timespec 8 400000000) (λ _, 192))
    as (_ & _ & Hcut); [by vm_compute..|].
  destruct (Hcut ltac:(discriminate)) as (code & r & E & _).
  split; reflexivity.
Defined.

(** X15 one millisecond and a microsecond before the deadline. *)
Lemma nap_stays_before_deadline_witness :
  let cur := Timespec 4 999000000 in
  let ts := Timespec 5 1000 in
  tv_sec (nap cur ts) = 0 ∧ tv_nsec (nap cur ts) = 1001000.
Proof.
  intros cur ts.
  destruct (nap_stays_before_deadline cur ts) as (Hs & _ & _ & Hleft);
    [by vm_compute..|].
  split; [exact Hs|]. apply Hleft. by vm_compute.
Defined.

(** X16 on a timed mutex that is not recursive. *)
Lemma win32_mutex_flag_witness :
  let mtx := Mtx false false true in
  let locked := Mtx true false true in
  mtx_lock_win32 a_host mtx 0 = Some (thrd_success, locked) ∧
  mtx_trylock_win32 a_host locked true 0 = (thrd_busy, locked) ∧
  mtx_lock_win32 a_host locked 0 = None ∧
  mtx_unlock_win32 locked true = (thrd_success, mtx) ∧
  mAlreadyLocked (mtx_unlock_win32 locked false).2 = false.
Proof.
  intros mtx locked.
  destruct (win32_mutex_flag a_host mtx 0 true false) as (Hplain & _ & Hclear);
    [reflexivity..|].
  destruct (Hplain eq_refl) as (l & El & _ & Etry & Espin & Eun).
  injection El as <-. split_and!; [reflexivity|exact Etry|exact Espin|exact Eun|].
  apply Hclear.
Defined.

(** X17 for a plain mutex and for a timed one. *)
Lemma mtx_init_decides_timedlock_witness :
  mtx_init_win32 a_mtx_types 0 0 = (thrd_success, Mtx false false false) ∧
  mtx_timedlock_win32 a_host (Mtx false false false) (Some (Timespec 4 0))
    (Timespec 5 0) (λ _, 0) = Some (thrd_error, Mtx false false false) ∧
  (mtx_init_win32 a_mtx_types 1 0).1 = thrd_error.
Proof.
  destruct (mtx_init_decides_timedlock a_host a_mtx_types 0 0
              (Some (Timespec 4 0)) (Timespec 4 0) (Timespec 5 0) (λ _, 0))
    as (_ & Hplain & _).
  destruct (mtx_init_decides_timedlock a_host a_mtx_types 1 0
              None (Timespec 4 0) (Timespec 5 0) (λ _, 0))
    as (_ & _ & Htimed).
  destruct (Hplain eq_refl) as [_ E].
  destruct (Htimed ltac:(discriminate)) as [[_ Hfail] _].
  split_and!; [reflexivity|exact E|by apply Hfail].
Defined.

(** X18 for a single waiter whose wait times out. *)
Lemma timed_out_waiter_stays_counted_witness :
  let after := (_cnd_timedwait_win32 a_host (Cnd 0) 10 (λ _, 258) 1).2 in
  cnd_signal_win32 (Cnd 0) (λ _, 1) = (thrd_success, []) ∧
  after = Cnd 1 ∧
  cnd_signal_win32 after (λ _, 1) = (thrd_success, [_CONDITION_EVENT_ONE]).
Proof.
  intros after.
  destruct (timed_out_waiter_stays_counted a_host (Cnd 0) 10 (λ _, 258) 1 (λ _, 1))
    as (Hnone & _ & Hout & _); [reflexivity|discriminate|].
  destruct Hout as [_ Hsig]; [by left|].
  split_and!; [exact Hnone|reflexivity|exact Hsig].
Defined.

(** X19 when the second poll finds the mutex free. *)
Lemma mtx_timedlock_poll_outcome_witness :
  mtx_timedlock_poll a_host (Timespec 5 0)
    [Poll 16 (Some (Timespec 4 0)); Poll 0 None] = Some thrd_success ∧
  mtx_timedlock_poll a_host (Timespec 5 0)
    [Poll 16 (Some (Timespec 4 0)); Poll 16 None] = Some thrd_error.
Proof.
  destruct (mtx_timedlock_poll_outcome a_host (Timespec 5 0)
              [Poll 16 (Some (Timespec 4 0))] (Poll 0 None) [])
    as (_ & Hfree & _).
  { repeat constructor. by exists (Timespec 4 0). }
  destruct (mtx_timedlock_poll_outcome a_host (Timespec 5 0)
              [Poll 16 (Some (Timespec 4 0))] (Poll 16 None) [])
    as (_ & _ & Hclock & _).
  { repeat constructor. by exists (Timespec 4 0). }
  split; [by apply Hfree|by apply Hclock].
Defined.

(** X21 for a new thread with the id 42 beside one with the id 41. *)
Lemma thread_chain_round_trip_witness :
  let head := [ThrdData 300 41 6] in
  let data := ThrdData 200 42 7 in
  _lookup_thread_handle 42 (_insert_thread_data data head) = 7 ∧
  _remove_thread_data 42 (_insert_thread_data data head) = (head, Some 200) ∧
  _lookup_thread_handle 43 head = 0.
Proof.
  intros head data.
  destruct (thread_chain_round_trip data 43 head) as (Hnew & _ & _ & Hmiss & _).
  destruct Hnew as [Hl Hr]; [repeat constructor; discriminate|].
  destruct Hmiss as [Hm _]; [repeat constructor; discriminate|].
  split_and!; [exact Hl|exact Hr|exact Hm].
Defined.

(** X22 for a thread that adds one to its argument. *)
Lemma created_thread_is_joined_once_witness :
  ∃ w1 w2,
    thrd_create_win32 100 200 7 (λ _, 42) (λ x, x + 1) 5 no_threads
      = (thrd_success, Some 42, w1) ∧
    _thrd_wrapper_function 100 w1 = Some (6, w2) ∧
    thrd_join_win32 a_host 42 true (λ _, 0) (λ _, Some 6) (λ _, true) w2
      = (thrd_success, Some 6, no_threads) ∧
    thrd_join_win32 a_host 42 true (λ _, 0) (λ _, Some 6) (λ _, true) no_threads
      = (thrd_error, None, no_threads).
Proof.
  destruct (created_thread_is_joined_once a_host 100 200 7 5 (λ x, x + 1)
              (λ _, 42) (λ _, 0) (λ _, Some 6) (λ _, true) no_threads)
    as (w1 & w2 & E1 & _ & E2 & E3 & _ & E4 & _).
  - discriminate.
  - discriminate.
  - discriminate.
  - discriminate.
  - apply not_elem_of_empty.
  - apply not_elem_of_empty.
  - reflexivity.
  - reflexivity.
  - constructor.
  - discriminate.
  - reflexivity.
  - split; by vm_compute.
  - reflexivity.
  - exists w1, w2. split_and!; [exact E1|exact E2|exact E3|exact E4].
Defined.

(** X23 when the second malloc fails and when the thread cannot be
    created. *)
Lemma thrd_create_failure_frees_witness :
  thrd_create_win32 100 0 7 (λ _, 42) (λ x, x + 1) 5 no_threads
    = (thrd_nomem, None, no_threads) ∧
  thrd_create_win32 100 200 0 (λ _, 42) (λ x, x + 1) 5 no_threads
    = (thrd_error, None, no_threads) ∧
  thrd_create_posix 100 11 0 (λ x, x + 1) 5 no_threads
    = (thrd_error, None, no_threads).
Proof.
  destruct (thrd_create_failure_frees 100 200 7 11 0 5 (λ x, x + 1) (λ _, 42)
              no_threads) as (_ & _ & Hti).
  - apply not_elem_of_empty.
  - apply not_elem_of_empty.
  - discriminate.
  - reflexivity.
  - reflexivity.
  - destruct Hti as (E1 & E2 & E3); [discriminate|].
    split_and!; [exact E1|apply E2; discriminate|apply E3; discriminate].
Defined.

(** X24 for a first key. *)
Lemma tss_set_then_get_witness :
  let w' := TSS (<[100 := TSSData 7 1 0]> ∅) 100 100 ∅ (<[1 := 100]> ∅) in
  tss_set 1 7 100 true tss_empty = Some (thrd_success, w') ∧
  tss_get 1 w' = Some 7 ∧ tss_get 2 tss_empty = Some 0.
Proof.
  intros w'.
  assert (E : tss_set 1 7 100 true tss_empty = Some (thrd_success, w'))
    by (vm_compute; reflexivity).
  destruct (tss_set_then_get 1 2 7 100 0 true tss_empty w' E) as (Hget & _ & Hnone).
  split_and!; [exact E|exact Hget|by apply Hnone].
Defined.

(** X25 for the keys 1, 2 and 3. *)
Lemma tss_list_drops_second_witness :
  ∃ w3, tss_list w3 (_cthread_tss_head w3) [100; 300] ∧
        tss_get 2 w3 = Some 20.
Proof.
  destruct (tss_list_drops_second 1 2 3 10 20 30 100 200 300)
    as (w1 & w2 & w3 & _ & _ & _ & _ & Hl & _ & _ & Hg & _); try done.
  exists w3. split; [exact Hl|exact Hg].
Defined.
